(** * A shallow embedding of serializr (src/serializr.js)

    The JavaScript program is modelled as it runs: values, a heap of objects,
    the deserialization [Context]s, the single-shot callbacks handed out by
    [Context.prototype.createCallback] and the bookkeeping of [parallel] live
    in an explicit state; closures are defunctionalised (a callback is a tag
    plus the numbered record it closes over); a thrown exception aborts the
    whole synchronous run.  Numbers are integers ([Z]) plus [NaN].  Objects
    hold own keys only: the [for ... in] loops of [serializeStarProps] and
    [deserializeStarProps] skip the members [schema.props] inherits from
    [Object.prototype], as the [in] tests do there; elsewhere a read of a
    key sees own keys only, so the theorems that depend on such reads keep
    [Object.prototype] member names out of their inputs.  Classes have no
    static inheritance: [C.serializeInfo] is the class's own. *)

From Stdlib Require Import List String Ascii ZArith Bool Lia Arith.
Import ListNotations.
Open Scope string_scope.
Abbreviation length := List.length.

(** ** JavaScript values *)

Inductive val : Type :=
| VUndef
| VNull
| VBool (b : bool)
| VNum (z : Z)
| VNaN
| VStr (s : string)
| VFun (c : nat)      (** a constructor function (class); [c] indexes the class table *)
| VSchema (sid : nat) (** a model schema object; [sid] indexes the schema store *)
| VRef (l : nat).     (** any other object, at heap location [l] *)

(** [isPrimitive] (lines 53-57). *)
Definition isPrimitive (v : val) : bool :=
  match v with
  | VFun _ | VSchema _ | VRef _ => false
  | _ => true
  end.

Definition truthy (v : val) : bool :=
  match v with
  | VUndef | VNull | VNaN => false
  | VBool b => b
  | VNum z => negb (Z.eqb z 0)
  | VStr s => negb (String.eqb s "")
  | _ => true
  end.

Definition is_nullish (v : val) : bool :=
  match v with VUndef | VNull => true | _ => false end.

(** ** Decimal strings *)

Definition digit_char (n : nat) : ascii := ascii_of_nat (48 + n).

Fixpoint digits_of_nat (fuel n : nat) (acc : string) : string :=
  match fuel with
  | 0 => acc
  | S f =>
      let acc' := String (digit_char (n mod 10)) acc in
      if Nat.ltb n 10 then acc' else digits_of_nat f (n / 10) acc'
  end.

Definition string_of_nat (n : nat) : string := digits_of_nat (S n) n "".

Definition string_of_Z (z : Z) : string :=
  if (z <? 0)%Z then "-" ++ string_of_nat (Z.to_nat (- z))
  else string_of_nat (Z.to_nat z).

(** Parsing a canonical array index ("0" or digits without a leading zero). *)
Fixpoint parse_digits (s : string) (acc : N) : option N :=
  match s with
  | EmptyString => Some acc
  | String c r =>
      let n := nat_of_ascii c in
      if Nat.leb 48 n && Nat.leb n 57 then parse_digits r (acc * 10 + N.of_nat (n - 48))%N
      else None
  end.

Definition array_index (s : string) : option N :=
  match s with
  | EmptyString => None
  | String c r =>
      if Nat.eqb (nat_of_ascii c) 48 && negb (String.eqb r "") then None
      else match parse_digits s 0 with
           | Some n => if (n <? 4294967295)%N then Some n else None
           | None => None
           end
  end.

(** ** JavaScript objects as association lists

    Keys are kept in insertion order; [js_keys] gives the enumeration order of
    [Object.keys] and [for ... in]: array-index keys ascending, then the other
    keys in insertion order. *)

Fixpoint insert_idx (k : string) (n : N) (l : list (string * N)) : list (string * N) :=
  match l with
  | [] => [(k, n)]
  | (k', n') :: r => if (n <=? n')%N then (k, n) :: l else (k', n') :: insert_idx k n r
  end.

Fixpoint index_keys (ks : list string) : list (string * N) :=
  match ks with
  | [] => []
  | k :: r =>
      match array_index k with
      | Some n => insert_idx k n (index_keys r)
      | None => index_keys r
      end
  end.

Definition js_keys (ks : list string) : list string :=
  map fst (index_keys ks) ++ filter (fun k => match array_index k with Some _ => false | None => true end) ks.

Section JsObj.
Context {A : Type}.

Fixpoint oget (o : list (string * A)) (k : string) : option A :=
  match o with
  | [] => None
  | (k', v) :: r => if String.eqb k k' then Some v else oget r k
  end.

(** [o[k] = v]: overwrite in place, or append a new key. *)
Fixpoint oset (o : list (string * A)) (k : string) (v : A) : list (string * A) :=
  match o with
  | [] => [(k, v)]
  | (k', v') :: r => if String.eqb k k' then (k, v) :: r else (k', v') :: oset r k v
  end.

Definition ohas (o : list (string * A)) (k : string) : bool :=
  match oget o k with Some _ => true | None => false end.

Definition okeys (o : list (string * A)) : list string := js_keys (map fst o).

(** [splice(i, 1)] on a list. *)
Fixpoint remove_at (i : nat) (l : list A) : list A :=
  match l, i with
  | [], _ => []
  | _ :: r, 0 => r
  | x :: r, S j => x :: remove_at j r
  end.

Fixpoint set_nth (l : list A) (i : nat) (x : A) : list A :=
  match l, i with
  | [], _ => []
  | _ :: r, 0 => x :: r
  | y :: r, S j => y :: set_nth r j x
  end.

End JsObj.

(** [a[i] = v] on a JavaScript array: extends the array, holes read as undefined. *)
Fixpoint array_write (l : list val) (i : nat) (v : val) : list val :=
  match l, i with
  | [], 0 => [v]
  | [], S j => VUndef :: array_write [] j v
  | _ :: r, 0 => v :: r
  | y :: r, S j => y :: array_write r j v
  end.

(** ** Heap objects *)

Inductive obj : Type :=
| OPlain (cls : option nat) (props : list (string * val))  (** [cls]: its constructor, if a class *)
| OArray (elems : list val)
| ODate (time : option Z).                                   (** [None]: an Invalid Date *)

(** ** Prop schemas and model schemas (section 4.2 of the spec, lines 550-885) *)

Inductive prop_schema : Type :=
| PS (jsonname : option string) (identifier : bool) (kind : ps_kind)
with ps_kind : Type :=
| KPrimitive
| KIdentifier
| KDate
| KCustom (ser : val -> val) (des : val -> val)
| KObject (sid : nat)
| KReference (sid : nat) (attr : string)   (** default lookup: await in the root Context *)
| KList (inner : prop_schema).

Inductive propdef : Type :=
| PTrue
| PFalse
| PSch (ps : prop_schema).

Inductive factory : Type :=
| FactoryPlain          (** [createSimpleSchema]: [() => ({})] *)
| FactoryNew (c : nat). (** [createModelSchema]: [() => new clazz()] *)

Record model_schema : Type := MS {
  ms_factory : factory;
  ms_props : list (string * propdef);
  ms_extends : option nat
}.

Definition ps_jsonname (ps : prop_schema) : option string :=
  match ps with PS j _ _ => j end.
Definition ps_identifier (ps : prop_schema) : bool :=
  match ps with PS _ i _ => i end.
Definition ps_kind_of (ps : prop_schema) : ps_kind :=
  match ps with PS _ _ k => k end.

(** [propDef.jsonname || propName] *)
Definition json_attr (name : string) (ps : prop_schema) : string :=
  match ps_jsonname ps with
  | Some j => if String.eqb j "" then name else j
  | None => name
  end.

(** ** Callbacks, Contexts and the state *)

Inductive jserr : Type :=
| EStr (s : string)      (** a string passed as error *)
| EError (msg : string). (** an [Error] object *)

(** The function a [createCallback] wrapper runs on success. *)
Inductive fnk : Type :=
| FnNoop                           (** [GUARDED_NOOP], the lock *)
| FnAssign (l : nat) (p : string). (** [value => target[propName] = value] *)

(** A callback value. *)
Inductive cbk : Type :=
| CbOnce (k : nat)          (** the [once] wrapper returned by [createCallback] *)
| CbPar (p : nat) (idx : nat) (** [processorCb.bind(null, idx)] of a [parallel] run *)
| CbUser                    (** the user's completion callback *)
| CbNoop                    (** [GUARDED_NOOP] *)
| CbUndefined.              (** an omitted callback ([undefined]) *)

Record pending : Type := Pending { pr_schema : nat; pr_uuid : val; pr_cb : cbk }.

Record context : Type := Ctx {
  cx_parent : option nat;
  cx_isRoot : bool;
  cx_pc : Z;                 (** pendingCallbacks *)
  cx_prc : Z;                (** pendingRefsCount *)
  cx_onReady : cbk;
  cx_target : val;
  cx_hasError : bool;
  cx_schema : nat;
  cx_root : nat;             (** rootContext *)
  cx_pendingRefs : list (string * list pending);
  cx_resolvedRefs : list (string * list (nat * val))
}.

Record once_rec : Type := Once { on_ctx : nat; on_fn : fnk; on_fired : bool }.

(** The variables [parallel] closes over (lines 29-51). *)
Record par_rec : Type := Par { pa_left : Z; pa_failed : bool; pa_arr : nat; pa_cb : cbk }.

Record state : Type := St {
  st_heap : list obj;
  st_classes : list (option nat);   (** [clazz.serializeInfo] of each class *)
  st_schemas : list model_schema;
  st_ctxs : list context;
  st_onces : list once_rec;
  st_pars : list par_rec;
  st_events : list (option jserr * val);  (** calls of the user's completion callback *)
  st_factory_calls : nat
}.

Definition upd_heap (f : list obj -> list obj) (s : state) : state :=
  St (f (st_heap s)) (st_classes s) (st_schemas s) (st_ctxs s) (st_onces s) (st_pars s) (st_events s) (st_factory_calls s).
Definition upd_classes (f : list (option nat) -> list (option nat)) (s : state) : state :=
  St (st_heap s) (f (st_classes s)) (st_schemas s) (st_ctxs s) (st_onces s) (st_pars s) (st_events s) (st_factory_calls s).
Definition upd_ctxs (f : list context -> list context) (s : state) : state :=
  St (st_heap s) (st_classes s) (st_schemas s) (f (st_ctxs s)) (st_onces s) (st_pars s) (st_events s) (st_factory_calls s).
Definition upd_onces (f : list once_rec -> list once_rec) (s : state) : state :=
  St (st_heap s) (st_classes s) (st_schemas s) (st_ctxs s) (f (st_onces s)) (st_pars s) (st_events s) (st_factory_calls s).
Definition upd_pars (f : list par_rec -> list par_rec) (s : state) : state :=
  St (st_heap s) (st_classes s) (st_schemas s) (st_ctxs s) (st_onces s) (f (st_pars s)) (st_events s) (st_factory_calls s).
Definition upd_events (f : list (option jserr * val) -> list (option jserr * val)) (s : state) : state :=
  St (st_heap s) (st_classes s) (st_schemas s) (st_ctxs s) (st_onces s) (st_pars s) (f (st_events s)) (st_factory_calls s).
Definition bump_factory_calls (s : state) : state :=
  St (st_heap s) (st_classes s) (st_schemas s) (st_ctxs s) (st_onces s) (st_pars s) (st_events s) (S (st_factory_calls s)).

(** ** The state and exception monad

    [Throw] is a JavaScript exception escaping to the caller; [OutOfFuel]
    stands for a run that does not terminate within the fuel given. *)

Inductive result (A : Type) : Type :=
| Ok (s : state) (a : A)
| Throw (s : state) (msg : string)
| OutOfFuel.
Arguments Ok {A} s a.
Arguments Throw {A} s msg.
Arguments OutOfFuel {A}.

Definition M (A : Type) : Type := state -> result A.

Definition ret {A} (a : A) : M A := fun s => Ok s a.
Definition bind {A B} (m : M A) (k : A -> M B) : M B :=
  fun s => match m s with
           | Ok s' a => k a s'
           | Throw s' e => Throw s' e
           | OutOfFuel => OutOfFuel
           end.
Definition throw {A} (msg : string) : M A := fun s => Throw s msg.
Definition out_of_fuel {A} : M A := fun _ => OutOfFuel.
Definition get : M state := fun s => Ok s s.
Definition modify (f : state -> state) : M unit := fun s => Ok (f s) tt.

Notation "x <- m ;; k" := (bind m (fun x => k)) (at level 61, m at next level, right associativity).
Notation "m ;;; k" := (bind m (fun _ : unit => k)) (at level 61, right associativity).

Definition invariant (cond : bool) (message : string) : M unit :=
  if cond then ret tt else throw ("[serializr] " ++ message).

(** Heap access. *)
Definition alloc (o : obj) : M nat :=
  fun s => Ok (upd_heap (fun h => app h [o]) s) (length (st_heap s)).
Definition heap_get (l : nat) : M obj :=
  fun s => match nth_error (st_heap s) l with
           | Some o => Ok s o
           | None => Throw s "TypeError: not an object"
           end.
Definition heap_put (l : nat) (o : obj) : M unit := modify (upd_heap (fun h => set_nth h l o)).

Definition lookup_obj (s : state) (v : val) : option obj :=
  match v with VRef l => nth_error (st_heap s) l | _ => None end.

Definition array_elems (s : state) (v : val) : option (list val) :=
  match lookup_obj s v with Some (OArray es) => Some es | _ => None end.

(** [v[k]] *)
Definition js_get (s : state) (v : val) (k : string) : val :=
  match v with
  | VStr str =>
      if String.eqb k "length" then VNum (Z.of_nat (String.length str))
      else match array_index k with
           | Some n => match String.get (N.to_nat n) str with Some c => VStr (String c EmptyString) | None => VUndef end
           | None => VUndef
           end
  | _ =>
    match lookup_obj s v with
    | Some (OPlain _ ps) => match oget ps k with Some x => x | None => VUndef end
    | Some (OArray es) =>
        if String.eqb k "length" then VNum (Z.of_nat (length es))
        else match array_index k with
             | Some n => nth (N.to_nat n) es VUndef
             | None => VUndef
             end
    | _ => VUndef
    end
  end.

(** The members every plain object inherits from [Object.prototype]. *)
Definition object_proto_keys : list string :=
  ["constructor"; "__defineGetter__"; "__defineSetter__"; "hasOwnProperty"; "__lookupGetter__";
   "__lookupSetter__"; "isPrototypeOf"; "propertyIsEnumerable"; "toString"; "valueOf"; "__proto__";
   "toLocaleString"].

Definition proto_key (k : string) : bool := existsb (String.eqb k) object_proto_keys.

(** [k in v]; [None] is the TypeError of [in] on a primitive. *)
Definition js_in (s : state) (v : val) (k : string) : option bool :=
  match v with
  | VRef _ =>
    match lookup_obj s v with
    | Some (OPlain _ ps) => Some (ohas ps k)
    | Some (OArray es) =>
        Some (String.eqb k "length" ||
              match array_index k with Some n => N.ltb n (N.of_nat (length es)) | None => false end)
    | Some (ODate _) => Some false
    | None => None
    end
  | VFun _ | VSchema _ => Some false
  | _ => None
  end.

(** The keys [for (key in v)] visits. *)
Definition js_forin (s : state) (v : val) : list string :=
  match v with
  | VStr str => map string_of_nat (seq 0 (String.length str))
  | _ =>
    match lookup_obj s v with
    | Some (OPlain _ ps) => okeys ps
    | Some (OArray es) => map string_of_nat (seq 0 (length es))
    | _ => []
    end
  end.

(** [String(v)], with array elements that are objects shown as [[object Object]]. *)
Definition js_str_prim (v : val) : string :=
  match v with
  | VUndef => "undefined"
  | VNull => "null"
  | VBool b => if b then "true" else "false"
  | VNum z => string_of_Z z
  | VNaN => "NaN"
  | VStr s => s
  | VFun _ => "function"
  | _ => "[object Object]"
  end.

Definition js_str (s : state) (v : val) : string :=
  match lookup_obj s v with
  | Some (OArray es) =>
      String.concat "," (map (fun e => if is_nullish e then "" else js_str_prim e) es)
  | Some (ODate None) => "Invalid Date"
  | _ => js_str_prim v
  end.

(** ** The default-schema registry (lines 192-221) *)

(** [getDefaultModelSchema(thing)] *)
Definition getDefaultModelSchema (s : state) (thing : val) : val :=
  if negb (truthy thing) then VNull
  else match thing with
       | VSchema _ => thing
       | VFun c =>
           match nth_error (st_classes s) c with
           | Some (Some sid) => VSchema sid
           | _ => VUndef           (* [Function.serializeInfo] is undefined *)
           end
       | VRef l =>
           match nth_error (st_heap s) l with
           | Some (OPlain cls ps) =>
               match oget ps "serializeInfo" with
               | Some (VSchema sid) => VSchema sid
               | _ =>
                 match cls with
                 | Some c => match nth_error (st_classes s) c with
                             | Some (Some sid) => VSchema sid
                             | _ => VUndef
                             end
                 | None => VUndef
                 end
               end
           | _ => VUndef
           end
       | _ => VUndef
       end.

Definition isModelSchema (v : val) : bool :=
  match v with VSchema _ => true | _ => false end.

(** [setDefaultModelSchema(clazz, modelSchema)]: [clazz.serializeInfo = modelSchema]. *)
Definition setDefaultModelSchema (clazz modelSchema : val) : M val :=
  invariant (isModelSchema modelSchema) "Illegal State" ;;;
  match clazz, modelSchema with
  | VFun c, VSchema sid => modify (upd_classes (fun cs => set_nth cs c (Some sid))) ;;; ret modelSchema
  | VRef l, _ =>
      o <- heap_get l ;;
      match o with
      | OPlain cls ps => heap_put l (OPlain cls (oset ps "serializeInfo" modelSchema)) ;;; ret modelSchema
      | _ => ret modelSchema
      end
  | VSchema _, _ => ret modelSchema
  | _, _ => throw "TypeError: cannot set property serializeInfo"
  end.

(** The registry entries of the object [mrFactory] returns (lines 953-973). *)
Inductive registry_fn : Type := RGetDefault | RSetDefault.

Definition exported_registry : list (string * registry_fn) :=
  [("setDefaultModelSchema", RGetDefault);
   ("getDefaultModelSchema", RGetDefault)].

Definition run_registry_fn (f : registry_fn) (a1 a2 : val) : M val :=
  match f with
  | RGetDefault => s <- get ;; ret (getDefaultModelSchema s a1)
  | RSetDefault => setDefaultModelSchema a1 a2
  end.

(** Calling [serializr[name](a1, a2)]. *)
Definition call_exported (name : string) (a1 a2 : val) : M val :=
  match oget exported_registry name with
  | Some f => run_registry_fn f a1 a2
  | None => throw ("TypeError: serializr." ++ name ++ " is not a function")
  end.

(** ** Accessors of Contexts, [once] wrappers and [parallel] runs *)

Definition ctx_get (c : nat) : M context :=
  fun s => match nth_error (st_ctxs s) c with
           | Some cx => Ok s cx
           | None => Throw s "TypeError: no such context"
           end.
Definition ctx_put (c : nat) (cx : context) : M unit := modify (upd_ctxs (fun l => set_nth l c cx)).

Definition with_pc (pc : Z) (cx : context) : context :=
  Ctx (cx_parent cx) (cx_isRoot cx) pc (cx_prc cx) (cx_onReady cx) (cx_target cx)
      (cx_hasError cx) (cx_schema cx) (cx_root cx) (cx_pendingRefs cx) (cx_resolvedRefs cx).
Definition with_error (cx : context) : context :=
  Ctx (cx_parent cx) (cx_isRoot cx) (cx_pc cx) (cx_prc cx) (cx_onReady cx) (cx_target cx)
      true (cx_schema cx) (cx_root cx) (cx_pendingRefs cx) (cx_resolvedRefs cx).
Definition with_target (t : val) (cx : context) : context :=
  Ctx (cx_parent cx) (cx_isRoot cx) (cx_pc cx) (cx_prc cx) (cx_onReady cx) t
      (cx_hasError cx) (cx_schema cx) (cx_root cx) (cx_pendingRefs cx) (cx_resolvedRefs cx).
Definition with_pending (prc : Z) (pr : list (string * list pending)) (cx : context) : context :=
  Ctx (cx_parent cx) (cx_isRoot cx) (cx_pc cx) prc (cx_onReady cx) (cx_target cx)
      (cx_hasError cx) (cx_schema cx) (cx_root cx) pr (cx_resolvedRefs cx).
Definition with_resolved (rr : list (string * list (nat * val))) (cx : context) : context :=
  Ctx (cx_parent cx) (cx_isRoot cx) (cx_pc cx) (cx_prc cx) (cx_onReady cx) (cx_target cx)
      (cx_hasError cx) (cx_schema cx) (cx_root cx) (cx_pendingRefs cx) rr.

(** [new Context(parentContext, modelSchema, json, onReadyCb)] (lines 422-441):
    a root Context is its own [rootContext]; a nested one takes its parent
    as [rootContext]. *)
Definition ctx_new (parent : option nat) (sid : nat) (onReadyCb : cbk) : M nat :=
  fun s =>
    let c := length (st_ctxs s) in
    let onReady := match onReadyCb with CbUndefined => CbNoop | k => k end in
    let cx := match parent with
              | None => Ctx None true 0 0 onReady VNull false sid c [] []
              | Some p => Ctx (Some p) false 0 0 onReady VNull false sid p [] []
              end in
    Ok (upd_ctxs (fun l => app l [cx]) s) c.

Definition once_get (k : nat) : M once_rec :=
  fun s => match nth_error (st_onces s) k with
           | Some r => Ok s r
           | None => Throw s "TypeError: no such callback"
           end.
Definition once_put (k : nat) (r : once_rec) : M unit := modify (upd_onces (fun l => set_nth l k r)).
Definition once_new (r : once_rec) : M nat :=
  fun s => Ok (upd_onces (fun l => app l [r]) s) (length (st_onces s)).

Definition par_get (p : nat) : M par_rec :=
  fun s => match nth_error (st_pars s) p with
           | Some r => Ok s r
           | None => Throw s "TypeError: no such parallel run"
           end.
Definition par_put (p : nat) (r : par_rec) : M unit := modify (upd_pars (fun l => set_nth l p r)).
Definition par_new (r : par_rec) : M nat :=
  fun s => Ok (upd_pars (fun l => app l [r]) s) (length (st_pars s)).

Definition schema_get (sid : nat) : M model_schema :=
  fun s => match nth_error (st_schemas s) sid with
           | Some ms => Ok s ms
           | None => Throw s "[serializr] Expected schema"
           end.

Definition record_event (e : option jserr * val) : M unit := modify (upd_events (fun l => app l [e])).

(** [target[p] = v] on a heap object. *)
Definition set_prop (l : nat) (p : string) (v : val) : M unit :=
  o <- heap_get l ;;
  match o with
  | OPlain cls ps => heap_put l (OPlain cls (oset ps p v))
  | OArray es =>
      match array_index p with
      | Some n => heap_put l (OArray (array_write es (N.to_nat n) v))
      | None => ret tt
      end
  | ODate _ => ret tt
  end.

Definition array_push (l : nat) (v : val) : M unit :=
  o <- heap_get l ;;
  match o with
  | OArray es => heap_put l (OArray (app es [v]))
  | _ => throw "TypeError: push is not a function"
  end.

(** [schema.factory(context)]: a fresh object. *)
Definition run_factory (f : factory) : M nat :=
  modify bump_factory_calls ;;;
  match f with
  | FactoryPlain => alloc (OPlain None [])
  | FactoryNew c => alloc (OPlain (Some c) [])
  end.

(** [GUARDED_NOOP(err)] (lines 8-11). *)
Definition guarded_noop_err (err : option jserr) : M unit :=
  match err with
  | Some (EStr m) => throw ("Error: " ++ m)
  | Some (EError m) => throw ("Error: Error: " ++ m)
  | None => ret tt
  end.

(** The function a [createCallback] wrapper runs on success. *)
Definition run_fn (fn : fnk) (v : val) : M unit :=
  match fn with
  | FnNoop => s <- get ;; if truthy v then throw ("Error: " ++ js_str s v) else ret tt
  | FnAssign l p => set_prop l p v
  end.

(** ** The built-in prop schemas (lines 550-885) *)

(** [primitive()] *)
Definition primitive : prop_schema := PS None false KPrimitive.
(** [_defaultPrimitiveProp] *)
Definition defaultPrimitiveProp : prop_schema := primitive.
(** [identifier()] *)
Definition identifier : prop_schema := PS None true KIdentifier.
(** [date()] *)
Definition date : prop_schema := PS None false KDate.
(** [custom(serializer, deserializer)] *)
Definition custom (ser des : val -> val) : prop_schema := PS None false (KCustom ser des).

Definition isAliasedPropSchema (ps : prop_schema) : bool :=
  match ps_jsonname ps with Some j => negb (String.eqb j "") | None => false end.

(** [alias(name, propSchema)]; [None] as [propSchema] is an omitted or [true] argument. *)
Definition alias (name : string) (propSchema : option prop_schema) : M prop_schema :=
  invariant (negb (String.eqb name "")) "expected prop name as first argument" ;;;
  let ps := match propSchema with Some p => p | None => defaultPrimitiveProp end in
  invariant (negb (isAliasedPropSchema ps)) "provided prop is already aliased" ;;;
  ret (PS (Some name) (ps_identifier ps) (ps_kind_of ps)).

(** [list(propSchema)] *)
Definition list_ (propSchema : option prop_schema) : M prop_schema :=
  let ps := match propSchema with Some p => p | None => defaultPrimitiveProp end in
  invariant (negb (isAliasedPropSchema ps)) "provided prop is aliased, please put aliases first" ;;;
  ret (PS None false (KList ps)).

(** [object(modelSchema)] (lines 738-753): the schema is looked up when
    [object] is called. *)
Definition object (modelSchema : val) : M prop_schema :=
  s <- get ;;
  let ms := getDefaultModelSchema s modelSchema in
  match ms with
  | VSchema sid => ret (PS None false (KObject sid))
  | _ => throw ("[serializr] expected modelSchema, got " ++ js_str s ms)
  end.

(** [getIdentifierProp(modelSchema)] (lines 235-245); [None]: the [extends]
    chain is cyclic and the loop does not end. *)
Fixpoint identifier_prop (n : nat) (schemas : list model_schema) (sid : nat) : option (option string) :=
  match nth_error schemas sid with
  | None => Some None
  | Some ms =>
      match find (fun k => match oget (ms_props ms) k with
                           | Some (PSch ps) => ps_identifier ps
                           | _ => false
                           end) (okeys (ms_props ms)) with
      | Some k => Some (Some k)
      | None => match ms_extends ms with
                | None => Some None
                | Some p => match n with 0 => None | S n' => identifier_prop n' schemas p end
                end
      end
  end.

(** [reference(target)] with the default lookup function (lines 807-838). *)
Definition reference (target : val) : M prop_schema :=
  s <- get ;;
  match target with
  | VStr _ => throw "[serializr] if the reference target is specified by attribute name, a lookup function is required"
  | _ =>
    let ms := getDefaultModelSchema s target in
    match ms with
    | VSchema sid =>
        match identifier_prop (length (st_schemas s)) (st_schemas s) sid with
        | Some (Some attr) =>
            if String.eqb attr "" then
              throw "[serializr] provided model schema doesn't define an identifier() property and cannot be used by 'ref'."
            else ret (PS None false (KReference sid attr))
        | Some None => throw "[serializr] provided model schema doesn't define an identifier() property and cannot be used by 'ref'."
        | None => out_of_fuel
        end
    | _ => throw ("[serializr] expected model schema or string as first argument for 'ref', got " ++ js_str s ms)
    end
  end.

(** ** Schema chains *)

(** [isAssignableTo(actualType, expectedType)] (lines 247-254); [None]: a
    cyclic [extends] chain, on which the loop does not end. *)
Fixpoint assignable_walk (n : nat) (schemas : list model_schema) (actual : option nat) (expected : nat)
  : option bool :=
  match actual with
  | None => Some false
  | Some a =>
      if Nat.eqb a expected then Some true
      else match n with
           | 0 => None
           | S n' => assignable_walk n' schemas
                       (match nth_error schemas a with Some ms => ms_extends ms | None => None end) expected
           end
  end.

Definition isAssignableTo (actual expected : nat) : M bool :=
  s <- get ;;
  match assignable_walk (length (st_schemas s)) (st_schemas s) (Some actual) expected with
  | Some b => ret b
  | None => out_of_fuel
  end.

(** ** The property walk of [deserializePropsWithSchema] (lines 376-420)

    The schemas the walk visits, and the props it runs through, depend only
    on the schema store, which deserialization never changes; they are listed
    first as the steps of the walk: a [*] prop, a prop with a deserializer,
    or a throw (after which nothing more runs).  What a step does with the
    JSON input (the [in] test, [json[jsonAttr]], the keys of [*]) is read
    when the step runs, from the state of that moment. *)

Inductive action : Type :=
| AStar (k : string) (v : val)                      (** [obj[key] = value] of [deserializeStarProps] *)
| AInvoke (p : string) (ps : prop_schema) (jv : val) (** [propDef.deserializer(json[jsonAttr], ...)] *)
| AThrow (msg : string).

(** [schemaHasAlias(schema, name)] *)
Definition schemaHasAlias (ms : model_schema) (name : string) : bool :=
  existsb (fun k => match oget (ms_props ms) k with
                    | Some (PSch ps) => match ps_jsonname ps with
                                        | Some j => String.eqb j name
                                        | None => false
                                        end
                    | _ => false
                    end) (okeys (ms_props ms)).

(** [deserializeStarProps(schema, obj, json)] over the keys of [json];
    [key in schema.props] also holds for the members [schema.props] inherits
    from [Object.prototype]. *)
Fixpoint star_loop (s : state) (ms : model_schema) (json : val) (keys : list string) : list action :=
  match keys with
  | [] => []
  | k :: r =>
      if ohas (ms_props ms) k || proto_key k || schemaHasAlias ms k then star_loop s ms json r
      else let v := js_get s json k in
           if isPrimitive v then AStar k v :: star_loop s ms json r
           else [AThrow ("[serializr] encountered non primitive value while deserializing '*' properties in property '"
                         ++ k ++ "': " ++ js_str s v)]
  end.

(** [if (!(jsonAttr in json)) return] and the call of the deserializer. *)
Definition invoke_acts (s : state) (json : val) (name : string) (ps : prop_schema) : list action :=
  let a := json_attr name ps in
  match js_in s json a with
  | None => [AThrow ("TypeError: Cannot use 'in' operator to search for '" ++ a ++ "' in " ++ js_str s json)]
  | Some false => []
  | Some true => [AInvoke name ps (js_get s json a)]
  end.

Inductive wstep : Type :=
| WStar (ms : model_schema)                  (** [deserializeStarProps(schema, target, json)] *)
| WProp (name : string) (ps : prop_schema)   (** a prop with a deserializer *)
| WThrow (msg : string).

(** The body of the [forEach] over [Object.keys(schema.props)]. *)
Definition prop_step (ms : model_schema) (name : string) : list wstep :=
  match oget (ms_props ms) name with
  | None => []
  | Some def =>
      if String.eqb name "*" then
        match def with
        | PTrue => [WStar ms]
        | _ => [WThrow "[serializr] prop schema '*' can onle be used with 'true'"]
        end
      else match def with
           | PFalse => []
           | PTrue => [WProp name defaultPrimitiveProp]
           | PSch ps => [WProp name ps]
           end
  end.

Definition own_steps (ms : model_schema) : list wstep :=
  flat_map (prop_step ms) (okeys (ms_props ms)).

(** The steps, parents first; [None]: a cyclic [extends] chain (unbounded recursion). *)
Fixpoint props_steps (n : nat) (schemas : list model_schema) (sid : nat) : option (list wstep) :=
  match n with
  | 0 => None
  | S n' =>
    match nth_error schemas sid with
    | None => Some [WThrow "TypeError: Cannot read properties of undefined (reading 'extends')"]
    | Some ms =>
        match match ms_extends ms with
              | None => Some []
              | Some p => props_steps n' schemas p
              end with
        | None => None
        | Some pa => Some (app pa (own_steps ms))
        end
    end
  end.

Definition walk (schemas : list model_schema) (sid : nat) : option (list wstep) :=
  props_steps (S (length schemas)) schemas sid.

(** What a step does, in state [s]. *)
Definition step_acts (s : state) (json : val) (w : wstep) : list action :=
  match w with
  | WStar ms => star_loop s ms json (js_forin s json)
  | WProp name ps => invoke_acts s json name ps
  | WThrow m => [AThrow m]
  end.

(** ** [parallel] (lines 29-51): the step of [processorCb] *)

Record par_pure : Type := PP { pp_left : Z; pp_failed : bool; pp_arr : list val }.

Inductive agg_event : Type :=
| AggErr (e : jserr)
| AggOk (vs : list val).

Definition par_step (st : par_pure) (idx : nat) (err : option jserr) (v : val) : par_pure * option agg_event :=
  match err with
  | Some e =>
      if pp_failed st then (st, None)
      else (PP (pp_left st) true (pp_arr st), Some (AggErr e))
  | None =>
      let arr := array_write (pp_arr st) idx v in
      let left := (pp_left st - 1)%Z in
      (PP left (pp_failed st) arr, if Z.eqb left 0 then Some (AggOk arr) else None)
  end.

(** ** The completion test of [createCallback] (lines 453-465) *)

Definition dq : string := String (ascii_of_nat 34) EmptyString.

Definition unresolvable_keys (pr : list (string * list pending)) : list string :=
  filter (fun k => match oget pr k with Some (_ :: _) => true | _ => false end) (okeys pr).

Definition unresolvable_message (pr : list (string * list pending)) : string :=
  "Unresolvable references in json: " ++ dq ++ String.concat (dq ++ ", " ++ dq) (unresolvable_keys pr) ++ dq.

(** After the decrement: which call of [onReadyCb], if any. *)
Definition settle (cx : context) : option (option jserr * val) :=
  if Z.eqb (cx_pc cx) (cx_prc cx) then
    if (0 <? cx_prc cx)%Z then Some (Some (EError (unresolvable_message (cx_pendingRefs cx))), VUndef)
    else Some (None, cx_target cx)
  else None.

(** [Context.prototype.createCallback(fn)]: the counter and a fresh [once] wrapper. *)
Definition create_cb (c : nat) (fn : fnk) : M cbk :=
  cx <- ctx_get c ;;
  ctx_put c (with_pc (cx_pc cx + 1) cx) ;;;
  k <- once_new (Once c fn false) ;;
  ret (CbOnce k).

Fixpoint filter_assignable (lst : list (nat * val)) (expected : nat) : M (list (nat * val)) :=
  match lst with
  | [] => ret []
  | (a, v) :: r =>
      b <- isAssignableTo a expected ;;
      rest <- filter_assignable r expected ;;
      ret (if b then (a, v) :: rest else rest)
  end.

Definition not_primitive_msg (s : state) (v : val) : string :=
  "[serializr] this value is not primitive: " ++ js_str s v.

(** [new Date(jsonValue)]; parsing date strings is not modelled (Invalid Date). *)
Definition date_time (s : state) (v : val) : option Z :=
  match v with
  | VNum z => Some z
  | VBool b => Some (if b then 1 else 0)%Z
  | VRef _ => match lookup_obj s v with Some (ODate t) => t | _ => None end
  | _ => None
  end.

(** ** Deserialization (lines 341-509, 566-885)

    [call_cb] invokes a callback value, [deser_prop] a prop schema's
    deserializer, [deser_obj] is [deserializeObjectWithSchema], [deser_props]
    is [deserializePropsWithSchema], [await] and [resolve] are the Context
    methods of the same name. *)

Fixpoint call_cb (fuel : nat) (k : cbk) (err : option jserr) (v : val) {struct fuel} : M unit :=
  match fuel with
  | 0 => out_of_fuel
  | S f =>
    match k with
    | CbUser => record_event (err, v)
    | CbNoop => guarded_noop_err err
    | CbUndefined => throw "TypeError: callback is not a function"
    | CbOnce i =>
        r <- once_get i ;;
        if on_fired r then throw "[serializr] callback was invoked twice"
        else
          once_put i (Once (on_ctx r) (on_fn r) true) ;;;
          cx <- ctx_get (on_ctx r) ;;
          match err with
          | Some e =>
              if cx_hasError cx then ret tt
              else ctx_put (on_ctx r) (with_error cx) ;;;
                   call_cb f (cx_onReady cx) (Some e) VUndef
          | None =>
              if cx_hasError cx then ret tt
              else run_fn (on_fn r) v ;;;
                   cx1 <- ctx_get (on_ctx r) ;;
                   let cx2 := with_pc (cx_pc cx1 - 1) cx1 in
                   ctx_put (on_ctx r) cx2 ;;;
                   match settle cx2 with
                   | Some (e, w) => call_cb f (cx_onReady cx2) e w
                   | None => ret tt
                   end
          end
    | CbPar p idx =>
        pr <- par_get p ;;
        o <- heap_get (pa_arr pr) ;;
        let arr := match o with OArray es => es | _ => [] end in
        let '(st', ev) := par_step (PP (pa_left pr) (pa_failed pr) arr) idx err v in
        par_put p (Par (pp_left st') (pp_failed st') (pa_arr pr) (pa_cb pr)) ;;;
        heap_put (pa_arr pr) (OArray (pp_arr st')) ;;;
        match ev with
        | None => ret tt
        | Some (AggErr e) => call_cb f (pa_cb pr) (Some e) VUndef
        | Some (AggOk _) => call_cb f (pa_cb pr) None (VRef (pa_arr pr))
        end
    end
  end.

Definition await (fuel : nat) (root : nat) (sid : nat) (uuid : val) (cb : cbk) : M unit :=
  match fuel with
  | 0 => out_of_fuel
  | S f =>
    cx <- ctx_get root ;;
    invariant (cx_isRoot cx) "Illegal State" ;;;
    s <- get ;;
    let key := js_str s uuid in
    found <- match oget (cx_resolvedRefs cx) key with
             | Some lst => filter_assignable lst sid
             | None => ret []
             end ;;
    match found with
    | (_, v) :: _ => call_cb f cb None v
    | [] =>
        let old := match oget (cx_pendingRefs cx) key with Some l => l | None => [] end in
        ctx_put root (with_pending (cx_prc cx + 1)
                        (oset (cx_pendingRefs cx) key (app old [Pending sid uuid cb])) cx)
    end
  end.

Definition resolve (fuel : nat) (root : nat) (sid : nat) (id : val) (value : val) : M unit :=
  match fuel with
  | 0 => out_of_fuel
  | S f =>
    cx <- ctx_get root ;;
    invariant (cx_isRoot cx) "Illegal State" ;;;
    s <- get ;;
    let key := js_str s id in
    let old := match oget (cx_resolvedRefs cx) key with Some l => l | None => [] end in
    ctx_put root (with_resolved (oset (cx_resolvedRefs cx) key (app old [(sid, value)])) cx) ;;;
    match oget (cx_pendingRefs cx) key with
    | None => ret tt
    | Some lst =>
        (fix go (n : nat) : M unit :=
           match n with
           | 0 => ret tt
           | S i =>
               cx1 <- ctx_get root ;;
               let cur := match oget (cx_pendingRefs cx1) key with Some l => l | None => [] end in
               match nth_error cur i with
               | None => throw "TypeError: Cannot read properties of undefined (reading 'modelSchema')"
               | Some opts =>
                   b <- isAssignableTo sid (pr_schema opts) ;;
                   if b then
                     ctx_put root (with_pending (cx_prc cx1 - 1)
                                     (oset (cx_pendingRefs cx1) key (remove_at i cur)) cx1) ;;;
                     call_cb f (pr_cb opts) None value ;;;
                     go i
                   else go i
               end
           end) (length lst)
    end
  end.

(** The steps of the walk of [deserializePropsWithSchema] on [target] (at
    [t]) in Context [c]; [dp ps jv cb old] calls the prop deserializer. *)
Fixpoint run_acts (dp : prop_schema -> val -> cbk -> val -> M unit) (c t : nat) (acts : list action)
  : M unit :=
  match acts with
  | [] => ret tt
  | AStar k v :: r => set_prop t k v ;;; run_acts dp c t r
  | AInvoke p ps jv :: r =>
      cx <- ctx_get c ;;
      cb <- create_cb (cx_root cx) (FnAssign t p) ;;
      s' <- get ;;
      dp ps jv cb (js_get s' (VRef t) p) ;;;
      run_acts dp c t r
  | AThrow m :: _ => throw m
  end.

(** The steps of the walk, each run on the state it starts in. *)
Fixpoint run_steps (dp : prop_schema -> val -> cbk -> val -> M unit) (c t : nat) (json : val)
  (ws : list wstep) : M unit :=
  match ws with
  | [] => ret tt
  | w :: r => s <- get ;; run_acts dp c t (step_acts s json w) ;;; run_steps dp c t json r
  end.

Fixpoint deser_prop (fuel : nat) (ps : prop_schema) (jv : val) (done : cbk) (c : nat) (old : val)
  {struct fuel} : M unit :=
  match fuel with
  | 0 => out_of_fuel
  | S f =>
    match ps_kind_of ps with
    | KPrimitive =>
        s <- get ;;
        if isPrimitive jv then call_cb f done None jv
        else call_cb f done (Some (EStr (not_primitive_msg s jv))) VUndef
    | KIdentifier =>
        s <- get ;;
        cx <- ctx_get c ;;
        let '(e, id) := if isPrimitive jv then (None, jv)
                        else (Some (EStr (not_primitive_msg s jv)), VUndef) in
        resolve f (cx_root cx) (cx_schema cx) id (cx_target cx) ;;;
        call_cb f done e id
    | KDate =>
        if is_nullish jv then call_cb f done None jv
        else s <- get ;; l <- alloc (ODate (date_time s jv)) ;; call_cb f done None (VRef l)
    | KCustom _ des => call_cb f done None (des jv)
    | KObject sid =>
        if is_nullish jv then call_cb f done None jv
        else _ <- deser_obj f (Some c) sid jv done ;; ret tt
    | KReference sid _ =>
        if is_nullish jv then call_cb f done None jv
        else cx <- ctx_get c ;; await f (cx_root cx) sid jv done
    | KList inner =>
        s <- get ;;
        match array_elems s jv with
        | None => call_cb f done (Some (EStr "[serializr] expected JSON array")) VUndef
        | Some [] => l <- alloc (OArray []) ;; call_cb f done None (VRef l)
        | Some es =>
            a <- alloc (OArray []) ;;
            p <- par_new (Par (Z.of_nat (length es)) false a done) ;;
            (fix go (es : list val) (idx : nat) : M unit :=
               match es with
               | [] => ret tt
               | e :: r => deser_prop f inner e (CbPar p idx) c VUndef ;;; go r (S idx)
               end) es 0
        end
    end
  end

with deser_obj (fuel : nat) (parent : option nat) (sid : nat) (json : val) (cb : cbk)
  {struct fuel} : M val :=
  match fuel with
  | 0 => out_of_fuel
  | S f =>
    if is_nullish json then call_cb f cb None VNull ;;; ret VUndef
    else
      c <- ctx_new parent sid cb ;;
      ms <- schema_get sid ;;
      t <- run_factory (ms_factory ms) ;;
      cx <- ctx_get c ;;
      ctx_put c (with_target (VRef t) cx) ;;;
      lock <- create_cb c FnNoop ;;
      deser_props f c sid json t ;;;
      call_cb f lock None VUndef ;;;
      ret (VRef t)
  end

with deser_props (fuel : nat) (c : nat) (sid : nat) (json : val) (t : nat) {struct fuel} : M unit :=
  match fuel with
  | 0 => out_of_fuel
  | S f =>
    s <- get ;;
    match walk (st_schemas s) sid with
    | None => out_of_fuel
    | Some ws => run_steps (fun ps jv cb old => deser_prop f ps jv cb c old) c t json ws
    end
  end.

(** [deserialize(schema, json, callback)] (lines 341-359); [CbUndefined] is
    an omitted callback. *)
Definition deserialize (fuel : nat) (schema json : val) (callback : cbk) : M val :=
  s <- get ;;
  let ms := getDefaultModelSchema s schema in
  match ms with
  | VSchema sid =>
      match array_elems s json with
      | Some es =>
          items <- alloc (OArray []) ;;
          let cb := match callback with CbUndefined => CbNoop | k => k end in
          match es with
          | [] => l <- alloc (OArray []) ;; call_cb fuel cb None (VRef l) ;;; ret (VRef items)
          | _ =>
              a <- alloc (OArray []) ;;
              p <- par_new (Par (Z.of_nat (length es)) false a cb) ;;
              (fix go (es : list val) (idx : nat) : M unit :=
                 match es with
                 | [] => ret tt
                 | e :: r =>
                     inst <- deser_obj fuel None sid e (CbPar p idx) ;;
                     array_push items inst ;;;
                     go r (S idx)
                 end) es 0 ;;;
              ret (VRef items)
          end
      | None => deser_obj fuel None sid json callback
      end
  | _ => throw "[serializr] first argument should be model schema"
  end.

(** [update(modelSchema, target, json, callback)] (lines 525-544), called with
    the schema given explicitly. *)
Definition update (fuel : nat) (modelSchema target json : val) (callback : cbk) : M unit :=
  s <- get ;;
  match modelSchema with
  | VSchema sid =>
      match target with
      | VRef t =>
          match lookup_obj s target with
          | Some (OArray _) => throw "[serializr] update needs an object"
          | _ =>
              c <- ctx_new None sid callback ;;
              cx <- ctx_get c ;;
              ctx_put c (with_target target cx) ;;;
              lock <- create_cb c FnNoop ;;
              deser_props fuel c sid json t ;;;
              call_cb fuel lock None VUndef
          end
      | _ => throw "[serializr] update needs an object"
      end
  | _ => throw "[serializr] update failed to determine schema"
  end.

(** ** Serialization (lines 269-322) *)

Definition is_object (v : val) : bool :=
  match v with VRef _ | VSchema _ => true | _ => false end.

Definition set_prop_val (target : val) (p : string) (v : val) : M unit :=
  match target with
  | VRef l => set_prop l p v
  | _ => throw "TypeError: cannot set property"
  end.

(** [serializeStarProps(schema, obj, target)] *)
Fixpoint ser_star (ms : model_schema) (o : val) (res : val) (keys : list string) : M unit :=
  match keys with
  | [] => ret tt
  | k :: r =>
      if ohas (ms_props ms) k || proto_key k then ser_star ms o res r
      else s <- get ;;
           let v := js_get s o k in
           invariant (isPrimitive v)
             ("encountered non primitive value while serializing '*' properties in property '"
              ++ k ++ "': " ++ js_str s v) ;;;
           set_prop_val res k v ;;;
           ser_star ms o res r
  end.

(** The body of the [forEach] over [Object.keys(schema.props)] in
    [serializeWithSchema]; [sp] is the prop serializer [propDef.serializer]. *)
Fixpoint ser_keys (sp : prop_schema -> val -> M val) (ms : model_schema) (o res : val) (keys : list string)
  : M unit :=
  match keys with
  | [] => ret tt
  | key :: r =>
      match oget (ms_props ms) key with
      | None => ser_keys sp ms o res r
      | Some def =>
          if String.eqb key "*" then
            match def with
            | PTrue => s <- get ;; ser_star ms o res (js_forin s o) ;;; ser_keys sp ms o res r
            | _ => throw "[serializr] prop schema '*' can onle be used with 'true'"
            end
          else
            match def with
            | PFalse => ser_keys sp ms o res r
            | PTrue =>
                s <- get ;;
                jv <- sp defaultPrimitiveProp (js_get s o key) ;;
                set_prop_val res (json_attr key defaultPrimitiveProp) jv ;;; ser_keys sp ms o res r
            | PSch ps =>
                s <- get ;;
                jv <- sp ps (js_get s o key) ;;
                set_prop_val res (json_attr key ps) jv ;;; ser_keys sp ms o res r
            end
      end
  end.

Fixpoint ser_prop (fuel : nat) (ps : prop_schema) (v : val) {struct fuel} : M val :=
  match fuel with
  | 0 => out_of_fuel
  | S f =>
    match ps_kind_of ps with
    | KPrimitive | KIdentifier =>
        s <- get ;;
        invariant (isPrimitive v) ("this value is not primitive: " ++ js_str s v) ;;;
        ret v
    | KDate =>
        if is_nullish v then ret v
        else s <- get ;;
             match lookup_obj s v with
             | Some (ODate t) => ret (match t with Some z => VNum z | None => VNaN end)
             | _ => throw "[serializr] Expected Date object"
             end
    | KCustom ser _ => ret (ser v)
    | KObject sid => if is_nullish v then ret v else serialize_ f (VSchema sid) v
    | KReference _ attr => if truthy v then s <- get ;; ret (js_get s v attr) else ret VNull
    | KList inner =>
        s <- get ;;
        match array_elems s v with
        | Some es =>
            vs <- (fix go (es : list val) : M (list val) :=
                     match es with
                     | [] => ret []
                     | e :: r => x <- ser_prop f inner e ;; xs <- go r ;; ret (x :: xs)
                     end) es ;;
            l <- alloc (OArray vs) ;;
            ret (VRef l)
        | None =>
            (* [invariant(ar && "length" in ar && "map" in ar, ...)]; [ar.map] is
               then an own data property, not a function *)
            if negb (truthy v) then throw "[serializr] expected array (like) object"
            else match js_in s v "length" with
                 | None => throw ("TypeError: Cannot use 'in' operator to search for 'length' in " ++ js_str s v)
                 | Some false => throw "[serializr] expected array (like) object"
                 | Some true =>
                     match js_in s v "map" with
                     | Some true => throw "TypeError: ar.map is not a function"
                     | _ => throw "[serializr] expected array (like) object"
                     end
                 end
        end
    end
  end

(** [serializeWithSchema(schema, obj)] *)
with ser_with_schema (fuel : nat) (sid : nat) (o : val) {struct fuel} : M val :=
  match fuel with
  | 0 => out_of_fuel
  | S f =>
    ms <- schema_get sid ;;
    invariant (is_object o) "Expected object" ;;;
    res <- match ms_extends ms with
           | Some p => ser_with_schema f p o
           | None => l <- alloc (OPlain None []) ;; ret (VRef l)
           end ;;
    ser_keys (ser_prop f) ms o res (okeys (ms_props ms)) ;;;
    ret res
  end

(** [serialize(schema, thing)]; [VNull] as [schema] is the one-argument call. *)
with serialize_ (fuel : nat) (schema : val) (thing : val) {struct fuel} : M val :=
  match fuel with
  | 0 => out_of_fuel
  | S f =>
    s <- get ;;
    let with_schema (sch : val) (x : val) : M val :=
        match sch with
        | VSchema sid => ser_with_schema f sid x
        | VRef _ => throw "TypeError: Cannot convert undefined or null to object"
        | _ => throw "[serializr] Expected schema"
        end in
    match array_elems s thing with
    | Some [] => l <- alloc (OArray []) ;; ret (VRef l)
    | Some ((x :: _) as es) =>
        let sch := if truthy schema then schema else getDefaultModelSchema s x in
        invariant (truthy sch) ("Failed to find default schema for " ++ js_str s schema) ;;;
        vs <- (fix go (es : list val) : M (list val) :=
                 match es with
                 | [] => ret []
                 | e :: r => y <- with_schema sch e ;; ys <- go r ;; ret (y :: ys)
                 end) es ;;
        l <- alloc (OArray vs) ;;
        ret (VRef l)
    | None =>
        let sch := if truthy schema then schema else getDefaultModelSchema s thing in
        invariant (truthy sch) ("Failed to find default schema for " ++ js_str s schema) ;;;
        with_schema sch thing
    end
  end.

(** ** JSON input

    The host's parsed JSON, allocated on the heap as plain objects and arrays. *)
#[local] Set Warnings "-register-all".
Inductive jtree : Type :=
| JUndef | JNull | JBool (b : bool) | JNum (z : Z) | JStr (s : string)
| JArr (l : list jtree)
| JObj (l : list (string * jtree)).

Fixpoint alloc_json (j : jtree) : M val :=
  match j with
  | JUndef => ret VUndef
  | JNull => ret VNull
  | JBool b => ret (VBool b)
  | JNum z => ret (VNum z)
  | JStr s => ret (VStr s)
  | JArr l =>
      vs <- (fix go (l : list jtree) : M (list val) :=
               match l with
               | [] => ret []
               | x :: r => v <- alloc_json x ;; vs <- go r ;; ret (v :: vs)
               end) l ;;
      a <- alloc (OArray vs) ;; ret (VRef a)
  | JObj l =>
      ps <- (fix go (l : list (string * jtree)) (acc : list (string * val)) : M (list (string * val)) :=
               match l with
               | [] => ret acc
               | (k, x) :: r => v <- alloc_json x ;; go r (oset acc k v)
               end) l [] ;;
      a <- alloc (OPlain None ps) ;; ret (VRef a)
  end.

(** ** Running a scenario *)

Definition initial_state (schemas : list model_schema) (classes : list (option nat)) : state :=
  St [] classes schemas [] [] [] [] 0.

Definition events_of {A} (r : result A) : option (list (option jserr * val)) :=
  match r with Ok s _ => Some (st_events s) | _ => None end.

(** [deserialize(schema, JSON.parse(...), callback)] from an empty heap. *)
Definition run_deserialize (schemas : list model_schema) (schema : val) (j : jtree) (cb : cbk) : result val :=
  (v <- alloc_json j ;; deserialize 1000 schema v cb) (initial_state schemas []).

(** The final state of a run. *)
Definition state_of {A} (r : result A) : state :=
  match r with Ok s _ => s | Throw s _ => s | OutOfFuel => initial_state [] [] end.

(** [update(modelSchema, target, json)] on a target object built from [tgt]. *)
Definition run_update (schemas : list model_schema) (sid : nat) (tgt j : jtree) (cb : cbk) : result val :=
  (t <- alloc_json tgt ;; v <- alloc_json j ;; update 1000 (VSchema sid) t v cb ;;; ret t)
    (initial_state schemas []).

(** [serialize(schema, x)] followed by [deserialize(schema, ...)] on its output. *)
Definition run_round_trip (schemas : list model_schema) (sid : nat) (x : jtree) : result (val * val) :=
  (xv <- alloc_json x ;; j <- serialize_ 1000 (VSchema sid) xv ;;
   y <- deserialize 1000 (VSchema sid) j CbUser ;; ret (xv, y))
    (initial_state schemas []).

(** ** Example schemas *)

(** [User = createSimpleSchema({ uuid: identifier() })] *)
Definition User : model_schema := MS FactoryPlain [("uuid", PSch identifier)] None.
(** [reference(User)], with [User] at index 0 of the schema store *)
Definition refUser : prop_schema := PS None false (KReference 0 "uuid").
(** [{ author: reference(User), msg: true }] *)
Definition Post : model_schema := MS FactoryPlain [("author", PSch refUser); ("msg", PTrue)] None.
(** [{ authors: list(reference(User)), msg: true, user: object(User) }] *)
Definition Post2 : model_schema :=
  MS FactoryPlain [("authors", PSch (PS None false (KList refUser))); ("msg", PTrue);
                   ("user", PSch (PS None false (KObject 0)))] None.
(** [Node = { uuid: identifier(), name: true, author: reference(Node) }] at index 0 *)
Definition Node : model_schema :=
  MS FactoryPlain [("uuid", PSch identifier); ("name", PTrue);
                   ("author", PSch (PS None false (KReference 0 "uuid")))] None.
(** [{ items: list(object(Node)) }] *)
Definition NodeList : model_schema :=
  MS FactoryPlain [("items", PSch (PS None false (KList (PS None false (KObject 0)))))] None.
Definition publisher : jtree := JObj [("uuid", JNum 1); ("name", JStr "A")].
Definition referrer : jtree := JObj [("author", JNum 1); ("name", JStr "B")].
(** [{ a: alias("b", primitive()), b: primitive() }] *)
Definition AliasClash : model_schema :=
  MS FactoryPlain [("a", PSch (PS (Some "b") false KPrimitive)); ("b", PSch primitive)] None.
(** [{ a: alias("b", primitive()), "*": true }] *)
Definition AliasStar : model_schema :=
  MS FactoryPlain [("a", PSch (PS (Some "b") false KPrimitive)); ("*", PTrue)] None.
(** [{ a: alias("b", primitive()), c: alias("a", primitive()) }] *)
Definition SelfAlias : model_schema :=
  MS FactoryPlain [("a", PSch (PS (Some "b") false KPrimitive)); ("c", PSch (PS (Some "a") false KPrimitive))] None.
(** [Base = { p: alias("a", primitive()) }] and [{ "*": true }] extending it *)
Definition Base : model_schema := MS FactoryPlain [("p", PSch (PS (Some "a") false KPrimitive))] None.
Definition StarChild : model_schema := MS FactoryPlain [("*", PTrue)] (Some 0).
(** [{ p: true, q: alias("r", primitive()), d: date() }] *)
Definition RoundTrip : model_schema :=
  MS FactoryPlain [("p", PTrue); ("q", PSch (PS (Some "r") false KPrimitive)); ("d", PSch date)] None.
(** [{ extends: RoundTrip, props: { c: alias("cc", primitive()), e: custom(v => v + 1, v => v - 1) } }] *)
Definition RoundTripChild : model_schema :=
  MS FactoryPlain [("c", PSch (PS (Some "cc") false KPrimitive));
                   ("e", PSch (PS None false (KCustom (fun v => match v with VNum z => VNum (z + 1) | _ => VNaN end)
                                                      (fun v => match v with VNum z => VNum (z - 1) | _ => VNaN end))))]
     (Some 0).
(** [x = { p: 1, q: "s", d: new Date(5), c: true, e: 4 }] at index 0 of the heap, its Date at 1 *)
Definition rt_state : state :=
  St [OPlain None [("p", VNum 1); ("q", VStr "s"); ("d", VRef 1); ("c", VBool true); ("e", VNum 4)];
      ODate (Some 5%Z)] [] [RoundTrip; RoundTripChild] [] [] [] [] 0.

(** ** Firing the element callbacks of a [parallel] run *)

(** A call [processorCb(idx, err, result)] of one element. *)
Record firing : Type := Fire { fi_idx : nat; fi_err : option jserr; fi_val : val }.

(** The aggregate events of a sequence of element calls. *)
Fixpoint par_run (st : par_pure) (fs : list firing) : list agg_event :=
  match fs with
  | [] => []
  | x :: r =>
      let '(st', ev) := par_step st (fi_idx x) (fi_err x) (fi_val x) in
      match ev with
      | Some e => e :: par_run st' r
      | None => par_run st' r
      end
  end.

Fixpoint first_error (fs : list firing) : option jserr :=
  match fs with
  | [] => None
  | x :: r => match fi_err x with Some e => Some e | None => first_error r end
  end.

Definition successes (fs : list firing) : nat :=
  length (filter (fun x => match fi_err x with None => true | Some _ => false end) fs).

(** [resultArray] after the writes of [fs]. *)
Definition writes (arr : list val) (fs : list firing) : list val :=
  fold_left (fun a x => array_write a (fi_idx x) (fi_val x)) fs arr.


(** ** Frame conditions *)

(** The object at [t] is a plain object whose keys outside [P] hold their
    values in [ps0]; no [once] wrapper assigns a key outside [P] of [t]; no
    [parallel] run writes its result array over [t]. *)
Definition frame_inv (t : nat) (P : string -> Prop) (ps0 : list (string * val)) (s : state) : Prop :=
  (exists cls ps, nth_error (st_heap s) t = Some (OPlain cls ps) /\
                  forall k, ~ P k -> oget ps k = oget ps0 k) /\
  (forall i r p, nth_error (st_onces s) i = Some r -> on_fn r = FnAssign t p -> P p) /\
  (forall q pr, nth_error (st_pars s) q = Some pr -> pa_arr pr <> t).

(** [m] keeps [I], also when it throws, and its result satisfies [Q]. *)
Definition keeps {A} (I : state -> Prop) (m : M A) (Q : A -> Prop) : Prop :=
  forall s, I s -> match m s with
                   | Ok s' a => I s' /\ Q a
                   | Throw s' _ => I s'
                   | OutOfFuel => True
                   end.

(** The key of the target a step of the walk assigns. *)
Definition walk_key (a : action) : option string :=
  match a with AStar k _ => Some k | AInvoke p _ _ => Some p | AThrow _ => None end.

Definition assigned (acts : list action) (k : string) : Prop := In (Some k) (map walk_key acts).

(** The schemas of the [extends] chain from [sid]. *)
Fixpoint chain (n : nat) (schemas : list model_schema) (sid : nat) : list model_schema :=
  match n with
  | 0 => []
  | S n' =>
      match nth_error schemas sid with
      | None => []
      | Some ms => ms :: match ms_extends ms with Some p => chain n' schemas p | None => [] end
      end
  end.

(** Why one schema [ms] of the chain may assign key [k] of the target: [k]
    is a prop of [ms] (other than [*]) whose JSON key is in [json]; or [k] is
    a key of [json], not a member name of [Object.prototype], and [ms] has
    the prop [*: true] and neither lists [k] as a prop nor uses it as a JSON
    name. *)
Definition level_assigns (s : state) (json : val) (ms : model_schema) (k : string) : Prop :=
  (k <> "*" /\
   exists def ps, oget (ms_props ms) k = Some def /\
     ((def = PTrue /\ ps = defaultPrimitiveProp) \/ def = PSch ps) /\
     js_in s json (json_attr k ps) = Some true) \/
  (oget (ms_props ms) "*" = Some PTrue /\ ohas (ms_props ms) k = false /\ proto_key k = false /\
   schemaHasAlias ms k = false /\ In k (js_forin s json)).

Definition may_assign (s : state) (sid : nat) (json : val) (k : string) : Prop :=
  exists ms, In ms (chain (S (length (st_schemas s))) (st_schemas s) sid) /\ level_assigns s json ms k.

(** [m] run from [s] ends, returning or throwing, in a state satisfying [I]. *)
Definition ends {A} (I : state -> Prop) (m : M A) (s : state) : Prop :=
  match m s with
  | Ok s' _ => I s'
  | Throw s' _ => I s'
  | OutOfFuel => True
  end.

(** The heap and the schemas of [s] are [h] and [sc]. *)
Definition same_hs (h : list obj) (sc : list model_schema) (s : state) : Prop :=
  st_heap s = h /\ st_schemas s = sc.

(** A heap with the target [{uuid: 7, x: 1}] at 0 and the json [{uuid: 9}] at 1. *)
Definition frame_state : state :=
  St [OPlain None [("uuid", VNum 7); ("x", VNum 1)]; OPlain None [("uuid", VNum 9)]]
     [] [User] [] [] [] [] 0.

(** ** Round trips: the prop schemas of the claim and the values they carry *)

(** The prop schema a prop definition stands for ([true] is [primitive()]). *)
Definition prop_ps (d : propdef) : option prop_schema :=
  match d with
  | PTrue => Some defaultPrimitiveProp
  | PSch ps => Some ps
  | PFalse => None
  end.

(** [v] is a value [ps] serializes and reads back: a primitive for
    [primitive()], a Date or null/undefined for [date()], and a value that
    [des] maps back from [ser] for [custom(ser, des)]. *)
Definition rt_ok (h : list obj) (ps : prop_schema) (v : val) : Prop :=
  match ps_kind_of ps with
  | KPrimitive => isPrimitive v = true
  | KDate => is_nullish v = true \/ exists d tm, v = VRef d /\ nth_error h d = Some (ODate tm)
  | KCustom ser des => des (ser v) = v
  | _ => False
  end.

(** [sv] is the JSON value [ps] serializes [v] to. *)
Definition ser_rel (h : list obj) (ps : prop_schema) (v sv : val) : Prop :=
  match ps_kind_of ps with
  | KPrimitive => sv = v /\ isPrimitive v = true
  | KDate => (is_nullish v = true /\ sv = v) \/
             exists d tm, v = VRef d /\ nth_error h d = Some (ODate tm) /\
                          sv = match tm with Some z => VNum z | None => VNaN end
  | KCustom ser des => des sv = v
  | _ => False
  end.

(** [v] and [w] are equal, or Dates with the same time. *)
Definition same_val (h : list obj) (v w : val) : Prop :=
  v = w \/ exists d1 d2 tm, v = VRef d1 /\ w = VRef d2 /\
                             nth_error h d1 = Some (ODate tm) /\ nth_error h d2 = Some (ODate tm).

(** Every Date of [h] is still there in [h']. *)
Definition dates_kept (h h' : list obj) : Prop :=
  forall d tm, nth_error h d = Some (ODate tm) -> nth_error h' d = Some (ODate tm).

(** The root Context of [deserialize] while its props are read: the lock
    pending, no references, the target at [t]. *)
Definition rt_ctx (sid c t : nat) : context := Ctx None true 1 0 CbUser (VRef t) false sid c [] [].

(** The constructor of the objects a factory makes. *)
Definition factory_cls (fa : factory) : option nat :=
  match fa with FactoryPlain => None | FactoryNew c => Some c end.

(** The state while [deserialize] reads the props [D] of the JSON into the
    target at [t]: each key of [D] holds the value [xv k] had (a Date as a
    new Date of the same time), no other key is set. *)
Definition rt_inv (c L0 sid t : nat) (cls0 : option nat) (ev0 : list (option jserr * val))
  (H1 : list obj) (xv : string -> val) (D : list string) (s : state) : Prop :=
  nth_error (st_ctxs s) c = Some (rt_ctx sid c t) /\
  nth_error (st_onces s) L0 = Some (Once c FnNoop false) /\
  st_events s = ev0 /\
  (forall i, i < t -> nth_error (st_heap s) i = nth_error H1 i) /\
  exists tps, nth_error (st_heap s) t = Some (OPlain cls0 tps) /\
    forall k, (In k D -> exists w, oget tps k = Some w /\ same_val (st_heap s) (xv k) w) /\
              (~ In k D -> oget tps k = None).

(** The schemas of the [extends] chain from [sid], child first, when the
    chain ends within [n] steps and each of its schemas is in the store. *)
Fixpoint schema_chain (n : nat) (schemas : list model_schema) (sid : nat) : option (list model_schema) :=
  match n with
  | 0 => None
  | S n' =>
      match nth_error schemas sid with
      | None => None
      | Some ms =>
          match ms_extends ms with
          | None => Some [ms]
          | Some p => match schema_chain n' schemas p with Some r => Some (ms :: r) | None => None end
          end
      end
  end.

(** Two props of the schemas [mss] (at positions [i1] and [i2] of the chain)
    with the same JSON name are the same prop. *)
Definition json_names_distinct (mss : list model_schema) : Prop :=
  forall i1 i2 ms1 ms2 k1 k2 d1 d2 ps1 ps2,
    nth_error mss i1 = Some ms1 -> nth_error mss i2 = Some ms2 ->
    oget (ms_props ms1) k1 = Some d1 -> oget (ms_props ms2) k2 = Some d2 ->
    prop_ps d1 = Some ps1 -> prop_ps d2 = Some ps2 -> json_attr k1 ps1 = json_attr k2 ps2 ->
    i1 = i2 /\ k1 = k2.

(** ** The [extends] chain as schema indices, and heaps that only grow *)

(** The indices [isAssignableTo] visits from [sid]: [sid], then the
    [extends] of each schema, at most [n] of them. *)
Fixpoint chain_ids (n : nat) (schemas : list model_schema) (sid : nat) : list nat :=
  match n with
  | 0 => []
  | S n' =>
      sid :: match nth_error schemas sid with
             | Some ms => match ms_extends ms with Some p => chain_ids n' schemas p | None => [] end
             | None => []
             end
  end.

(** [s'] differs from [s] only by its heap, and every object of [s] is
    unchanged in [s']: new objects are appended after them. *)
Definition heap_grows (s s' : state) : Prop :=
  (exists tl, st_heap s' = app (st_heap s) tl) /\ s' = upd_heap (fun _ => st_heap s') s.

(** The value returned by [serialize]: an object allocated after [s0]. *)
Definition fresh_ref (s0 : state) (r : val) : Prop := exists l, r = VRef l /\ length (st_heap s0) <= l.

(** The [fired] flag of the [once] wrapper [i]. *)
Definition fired (s : state) (i : nat) : bool :=
  match nth_error (st_onces s) i with Some r => on_fired r | None => false end.

(** The object at [it] is [o0], and no pending [once] callback or
    [parallel] collector writes to it. *)
Definition obj_kept (it : nat) (o0 : obj) (s : state) : Prop :=
  nth_error (st_heap s) it = Some o0 /\
  (forall i r l p, nth_error (st_onces s) i = Some r -> on_fn r = FnAssign l p -> l <> it) /\
  (forall q pr, nth_error (st_pars s) q = Some pr -> pa_arr pr <> it).

(** The members an array inherits from [Array.prototype]. *)
Definition array_proto_keys : list string :=
  ["constructor"; "at"; "concat"; "copyWithin"; "fill"; "find"; "findIndex"; "findLast";
   "findLastIndex"; "lastIndexOf"; "pop"; "push"; "reverse"; "shift"; "unshift"; "slice"; "sort";
   "splice"; "includes"; "indexOf"; "join"; "keys"; "entries"; "values"; "forEach"; "filter";
   "flat"; "flatMap"; "map"; "every"; "some"; "reduce"; "reduceRight"; "toLocaleString";
   "toString"; "toReversed"; "toSorted"; "toSpliced"; "with"].

(** [k] names a member that [v], a plain object or an array, inherits: [k in v]
    holds in JavaScript although [v] has no own key [k]. *)
Definition inherited (s : state) (v : val) (k : string) : bool :=
  match lookup_obj s v with
  | Some (OArray _) => proto_key k || existsb (String.eqb k) array_proto_keys
  | Some (OPlain _ _) => proto_key k
  | _ => false
  end.

(** The [json] argument of [update] on the target at [t]: a primitive, [null],
    [undefined], or a plain object or an array on the heap (what [JSON.parse]
    returns) other than the target. *)
Definition json_input (s : state) (t : nat) (json : val) : Prop :=
  match json with
  | VRef j => j <> t /\ exists o, nth_error (st_heap s) j = Some o /\
                                  match o with OPlain None _ | OArray _ => True | _ => False end
  | VFun _ | VSchema _ => False
  | _ => True
  end.

(** The object [json] refers to, if any, is still [o], and no callback or
    [parallel] run writes into it. *)
Definition json_view (json : val) (o : obj) (s : state) : Prop :=
  match json with VRef j => obj_kept j o s | _ => True end.

(** Every [once] callback target and [parallel] result array is on the heap. *)
Definition refs_in_heap (s : state) : Prop :=
  (forall i r l p, nth_error (st_onces s) i = Some r -> on_fn r = FnAssign l p -> l < length (st_heap s)) /\
  (forall q pr, nth_error (st_pars s) q = Some pr -> pa_arr pr < length (st_heap s)).

(** ** Example inputs *)

(** [{authors: [1, 1], msg: "hi", user: {uuid: 1}}] *)
Definition post2_json : jtree :=
  JObj [("authors", JArr [JNum 1; JNum 1]); ("msg", JStr "hi"); ("user", JObj [("uuid", JNum 1)])].
(** [{author: 99, msg: "hi"}] *)
Definition post_json : jtree := JObj [("author", JNum 99); ("msg", JStr "hi")].

(** A Context with two pending callbacks, one of them a pending reference to [99]. *)
Definition stuck_ctx : context :=
  Ctx None true 2 1 CbUser VNull false 0 0 [("99", [Pending 0 (VNum 99) CbNoop])] [].
Definition stuck_state : state := St [] [] [User] [stuck_ctx] [Once 0 FnNoop false] [] [] 0.

(** The referrer's [author] is the publisher, the completion was called
    once with [(null, root)], and [root] was returned. *)
Definition resolved_in (r : result val) (root items pub refr : nat) : Prop :=
  r = Ok (state_of r) (VRef root) /\
  st_events (state_of r) = [(None, VRef root)] /\
  js_get (state_of r) (VRef root) "items" = VRef items /\
  js_get (state_of r) (VRef pub) "uuid" = VNum 1 /\
  js_get (state_of r) (VRef refr) "author" = VRef pub.

(** * Properties *)

(** ** The default-schema registry *)

(** The function [setDefaultModelSchema] itself does record the schema. *)
Lemma setDefaultModelSchema_then_get (s : state) (c sid : nat) (x : option nat)
  (Hc : nth_error (st_classes s) c = Some x) :
  exists s', (_ <- setDefaultModelSchema (VFun c) (VSchema sid) ;;
              s1 <- get ;; ret (getDefaultModelSchema s1 (VFun c))) s = Ok s' (VSchema sid).
Proof.
  eexists. unfold setDefaultModelSchema, bind, invariant, ret, modify, get; simpl.
  unfold getDefaultModelSchema; simpl.
  assert (E : forall (l : list (option nat)) i y, nth_error l i = Some y ->
                nth_error (set_nth l i (Some sid)) i = Some (Some sid)).
  { induction l as [|a l IH]; intros [|i] y H; simpl in *; try discriminate; auto. eapply IH; eauto. }
  rewrite (E _ _ _ Hc). reflexivity.
Qed.

(** C1 (code bug): the operation exported as [setDefaultModelSchema] is
    [getDefaultModelSchema] (line 956).  Calling it with a class [C] that has
    no schema yet and a model schema [S] changes nothing: the state is
    unchanged, and [getDefaultModelSchema(C)] afterwards still gives
    [undefined] rather than [S]. *)
Theorem exported_setDefaultModelSchema_no_effect (s : state) (c sid : nat)
  (Hunreg : nth_error (st_classes s) c = Some None) :
  (_ <- call_exported "setDefaultModelSchema" (VFun c) (VSchema sid) ;;
   call_exported "getDefaultModelSchema" (VFun c) VUndef) s = Ok s VUndef.
Proof.
  cbv [call_exported run_registry_fn bind get ret]; simpl.
  unfold getDefaultModelSchema; simpl. rewrite Hunreg. reflexivity.
Qed.

Lemma exported_setDefaultModelSchema_no_effect_witness :
  nth_error (st_classes (initial_state [User] [None])) 0 = Some None /\
  (_ <- call_exported "setDefaultModelSchema" (VFun 0) (VSchema 0) ;;
   call_exported "getDefaultModelSchema" (VFun 0) VUndef) (initial_state [User] [None])
  = Ok (initial_state [User] [None]) VUndef.
Proof.
  split; [reflexivity|].
  apply (exported_setDefaultModelSchema_no_effect (initial_state [User] [None]) 0 0).
  reflexivity.
Defined.

(** ** [object(schemaRef)] *)

(** C2 (counterexample): [object(undefined)] and [object(C)] for a class [C]
    without a default schema throw when [object] is called. *)
Lemma object_unresolved_throws :
  object VUndef (initial_state [User] [None])
    = Throw (initial_state [User] [None]) "[serializr] expected modelSchema, got null" /\
  object (VFun 0) (initial_state [User] [None])
    = Throw (initial_state [User] [None]) "[serializr] expected modelSchema, got undefined".
Proof. split; reflexivity. Qed.

(** C2 (amended): [object(schemaRef)] looks [schemaRef] up in the
    default-schema registry when [object] is called.  If it resolves to a
    model schema [S], the prop schema returned (de)serializes with [S];
    otherwise [object] throws ["[serializr] expected modelSchema, got ..."]
    and no prop schema is built. *)
Theorem object_resolves_at_call (s : state) (schemaRef : val) :
  object schemaRef s =
    match getDefaultModelSchema s schemaRef with
    | VSchema sid => Ok s (PS None false (KObject sid))
    | ms => Throw s ("[serializr] expected modelSchema, got " ++ js_str s ms)
    end.
Proof.
  unfold object, bind, get, ret, throw.
  destruct (getDefaultModelSchema s schemaRef); reflexivity.
Qed.

(** ** Completion of a deserialization *)

(** C3 (code bug): with [User] and [Post2], deserializing
    [{authors: [1, 1], msg: "hi", user: {uuid: 1}}] calls the completion
    twice: first with the error [Unresolvable references in json: "1"] (the
    two references are still pending when [msg] settles), then with
    [(null, target)] once the nested [user] publishes identifier 1.  The
    branch that reports unresolvable references does not set [hasError]. *)
Theorem unresolvable_then_success :
  events_of (run_deserialize [User; Post2] (VSchema 1) post2_json CbUser) =
  Some [(Some (EError ("Unresolvable references in json: " ++ dq ++ "1" ++ dq)), VUndef);
        (None, VRef 3)].
Proof. vm_compute. reflexivity. Qed.

(** ** [primitive()] *)

(** C9: the serializer of [primitive()] returns a primitive value unchanged
    and throws on any other; its deserializer calls [done(null, v)] with the
    same [v] when [v] is primitive and reports an error otherwise; [null] is
    primitive. *)
Theorem primitive_ser_deser (f : nat) (v : val) (s : state) :
  isPrimitive VNull = true /\
  ser_prop (S f) primitive v s =
    (if isPrimitive v then Ok s v
     else Throw s ("[serializr] this value is not primitive: " ++ js_str s v)) /\
  (forall done c old,
     deser_prop (S f) primitive v done c old s =
       (if isPrimitive v then call_cb f done None v
        else call_cb f done (Some (EStr ("[serializr] this value is not primitive: " ++ js_str s v))) VUndef) s).
Proof.
  split; [reflexivity|]. split.
  - simpl. unfold bind, get, invariant, ret, throw. destruct (isPrimitive v); reflexivity.
  - intros done c old. simpl. unfold bind, get, not_primitive_msg. reflexivity.
Qed.

(** ** [deserialize] on [null] or [undefined] *)

(** C10: [deserialize(schema, json, cb)] with [json] [null] or [undefined]
    calls [cb(null, null)] once, runs no factory, and returns [undefined]; with
    no callback it throws. *)
Theorem deserialize_nullish (f sid : nat) (s : state) (schema json : val)
  (Hs : getDefaultModelSchema s schema = VSchema sid) (Hj : json = VNull \/ json = VUndef) :
  deserialize (S (S f)) schema json CbUser s
    = Ok (upd_events (fun l => app l [(None, VNull)]) s) VUndef /\
  st_factory_calls (upd_events (fun l => app l [(None, VNull)]) s) = st_factory_calls s /\
  deserialize (S (S f)) schema json CbUndefined s
    = Throw s "TypeError: callback is not a function".
Proof.
  unfold deserialize, bind, get. rewrite Hs.
  destruct Hj as [-> | ->]; simpl; repeat split; reflexivity.
Qed.

Lemma deserialize_nullish_witness :
  getDefaultModelSchema (initial_state [User] []) (VSchema 0) = VSchema 0 /\
  deserialize 2 (VSchema 0) VNull CbUser (initial_state [User] [])
    = Ok (upd_events (fun l => app l [(None, VNull)]) (initial_state [User] [])) VUndef.
Proof.
  split; [reflexivity|].
  apply (deserialize_nullish 0 0 (initial_state [User] []) (VSchema 0) VNull); auto.
Defined.

(** ** Unresolvable references *)

Lemma in_insert_idx (k : string) (n : N) (x : string * N) (l : list (string * N)) :
  In x (insert_idx k n l) <-> (k, n) = x \/ In x l.
Proof.
  induction l as [|[k' n'] l IH]; simpl; [tauto|].
  destruct (n <=? n')%N; simpl; [tauto|]. rewrite IH. tauto.
Qed.

Lemma in_index_keys (x : string * N) (ks : list string) :
  In x (index_keys ks) <-> In (fst x) ks /\ array_index (fst x) = Some (snd x).
Proof.
  induction ks as [|k ks IH]; simpl; [tauto|].
  destruct x as [a b]; simpl in *.
  destruct (array_index k) as [n|] eqn:E.
  - rewrite in_insert_idx, IH. split.
    + intros [H|[H1 H2]]; [inversion H; subst; auto | auto].
    + intros [[H|H] H2]; [subst; left; rewrite E in H2; inversion H2; reflexivity | auto].
  - rewrite IH. split; [tauto|].
    intros [[H|H] H2]; [subst; congruence | auto].
Qed.

Lemma in_js_keys (k : string) (ks : list string) : In k (js_keys ks) <-> In k ks.
Proof.
  unfold js_keys. rewrite in_app_iff, in_map_iff, filter_In. split.
  - intros [[x [Hx Hin]]|[H _]]; auto.
    apply in_index_keys in Hin. subst k. tauto.
  - intros H. destruct (array_index k) as [n|] eqn:E.
    + left. exists (k, n). split; auto. apply in_index_keys. simpl; auto.
    + right. split; [auto | reflexivity].
Qed.

Lemma oget_in {A} (o : list (string * A)) (k : string) (v : A) :
  oget o k = Some v -> In k (map fst o).
Proof.
  induction o as [|[k' v'] o IH]; simpl; [discriminate|].
  destruct (String.eqb k k') eqn:E.
  - intros _. left. apply String.eqb_eq in E. auto.
  - intros H. right. auto.
Qed.

Lemma in_unresolvable_keys (pr : list (string * list pending)) (k : string) :
  In k (unresolvable_keys pr) <-> exists l, oget pr k = Some l /\ l <> [].
Proof.
  unfold unresolvable_keys, okeys. rewrite filter_In, in_js_keys. split.
  - intros [_ H]. destruct (oget pr k) as [[|x l]|]; try discriminate.
    exists (x :: l). split; congruence.
  - intros [l [H Hl]]. split; [eapply oget_in; eauto|].
    rewrite H. destruct l; [congruence | reflexivity].
Qed.

(** C4: a [once] wrapper of a Context that has not failed, called with a
    value, runs its function and decrements [pendingCallbacks]; when the
    counter then equals [pendingRefsCount] and that count is positive, the
    completion receives the error [Unresolvable references in json: "k1",
    "k2", ...], where the [ki] are exactly the keys of [pendingRefs] with a
    non-empty list.  With [Post], deserializing [{author: 99, msg: "hi"}]
    gives the error naming [99]. *)
Theorem once_settles_unresolvable (f i : nat) (s s1 : state) (r : once_rec) (cx cx1 : context) (v : val)
  (Hr : nth_error (st_onces s) i = Some r) (Hfresh : on_fired r = false)
  (Hcx : nth_error (st_ctxs s) (on_ctx r) = Some cx) (Herr : cx_hasError cx = false)
  (Hfn : run_fn (on_fn r) v (upd_onces (fun l => set_nth l i (Once (on_ctx r) (on_fn r) true)) s) = Ok s1 tt)
  (Hcx1 : nth_error (st_ctxs s1) (on_ctx r) = Some cx1)
  (Hpc : (cx_pc cx1 - 1 = cx_prc cx1)%Z) (Hprc : (0 < cx_prc cx1)%Z)
  (Huser : cx_onReady cx1 = CbUser) :
  call_cb (S (S f)) (CbOnce i) None v s =
    Ok (upd_events (fun l => app l [(Some (EError (unresolvable_message (cx_pendingRefs cx1))), VUndef)])
          (upd_ctxs (fun l => set_nth l (on_ctx r) (with_pc (cx_pc cx1 - 1) cx1)) s1)) tt /\
  (forall k, In k (unresolvable_keys (cx_pendingRefs cx1)) <->
             exists l, oget (cx_pendingRefs cx1) k = Some l /\ l <> []) /\
  events_of (run_deserialize [User; Post] (VSchema 1) post_json CbUser) =
    Some [(Some (EError ("Unresolvable references in json: " ++ dq ++ "99" ++ dq)), VUndef)].
Proof.
  split; [|split; [apply in_unresolvable_keys | vm_compute; reflexivity]].
  cbn [call_cb]. cbv [bind once_get once_put ctx_get ctx_put modify ret].
  rewrite Hr, Hfresh. simpl st_ctxs. rewrite Hcx, Herr, Hfn, Hcx1.
  unfold settle; simpl.
  rewrite Hpc, Z.eqb_refl. apply Z.ltb_lt in Hprc. rewrite Hprc, Huser. reflexivity.
Qed.

Lemma once_settles_unresolvable_witness :
  call_cb 2 (CbOnce 0) None VUndef stuck_state =
    Ok (upd_events (fun l => app l [(Some (EError (unresolvable_message (cx_pendingRefs stuck_ctx))), VUndef)])
          (upd_ctxs (fun l => set_nth l 0 (with_pc (cx_pc stuck_ctx - 1) stuck_ctx))
             (upd_onces (fun l => set_nth l 0 (Once 0 FnNoop true)) stuck_state))) tt.
Proof.
  refine (proj1 (once_settles_unresolvable 0 0 stuck_state
           (upd_onces (fun l => set_nth l 0 (Once 0 FnNoop true)) stuck_state)
           (Once 0 FnNoop false) stuck_ctx stuck_ctx VUndef _ _ _ _ _ _ _ _ _)); reflexivity.
Defined.

(** ** Order of identifiers and references *)

(** C5 (code bug): with [Node = {uuid: identifier(), name: true,
    author: reference(Node)}], [deserialize(Node, [publisher, referrer])]
    on a top-level array gives each element its own root Context, so the
    reference to identifier 1 is never resolved although its publisher is
    in the same JSON document: in both orders the completion is called once,
    with the error [Unresolvable references in json: "1"] and no result. *)
Lemma top_level_array_refs_unresolved :
  events_of (run_deserialize [Node; NodeList] (VSchema 0) (JArr [publisher; referrer]) CbUser) =
    Some [(Some (EError ("Unresolvable references in json: " ++ dq ++ "1" ++ dq)), VUndef)] /\
  events_of (run_deserialize [Node; NodeList] (VSchema 0) (JArr [referrer; publisher]) CbUser) =
    Some [(Some (EError ("Unresolvable references in json: " ++ dq ++ "1" ++ dq)), VUndef)].
Proof. split; vm_compute; reflexivity. Qed.

(** When the array is instead the value of a
    [list(object(Node))] prop of the root object, a publisher of identifier
    1 and a referrer to 1 are linked whichever comes first: the completion
    is called once with [(null, root)] and the referrer's [author] is the
    publisher's instance. *)
Theorem nested_refs_either_order :
  (let r := run_deserialize [Node; NodeList] (VSchema 1)
              (JObj [("items", JArr [publisher; referrer])]) CbUser in
   resolved_in r 4 5 6 7 /\ array_elems (state_of r) (VRef 5) = Some [VRef 6; VRef 7]) /\
  (let r := run_deserialize [Node; NodeList] (VSchema 1)
              (JObj [("items", JArr [referrer; publisher])]) CbUser in
   resolved_in r 4 5 7 6 /\ array_elems (state_of r) (VRef 5) = Some [VRef 6; VRef 7]).
Proof. unfold resolved_in; split; vm_compute; repeat split; reflexivity. Qed.

(** ** Round trips and [update]: counterexamples *)


(** C8 (counterexample): [update] with [{ "*": true }] extending
    [{p: alias("a", primitive())}] on target [{p: 1}] and json [{p: 7}]: the
    JSON key of [p] is [a], absent from the json, yet the [*] prop of the
    child copies [json.p] and [target.p] becomes 7.  And [update(S, t, t)]
    with [S = {a: alias("b", primitive()), c: alias("a", primitive())}] and
    [t = {b: 1}]: the JSON key [a] of [c] is absent when [update] is called,
    but the step for [a] writes [t.a] first, so [t.c] becomes 1. *)
Lemma update_overwrites_absent_keys :
  (json_attr "p" (PS (Some "a") false KPrimitive) = "a" /\
   match run_update [Base; StarChild] 1 (JObj [("p", JNum 1)]) (JObj [("p", JNum 7)]) CbUser with
   | Ok s t => js_get s t "p" = VNum 7 /\ st_events s = [(None, t)]
   | _ => False
   end) /\
  (json_attr "c" (PS (Some "a") false KPrimitive) = "a" /\
   match (t <- alloc_json (JObj [("b", JNum 1)]) ;; update 1000 (VSchema 0) t t CbUser ;;; ret t)
           (initial_state [SelfAlias] []) with
   | Ok s t => js_get s t "c" = VNum 1 /\ js_get s t "a" = VNum 1 /\ st_events s = [(None, t)]
   | _ => False
   end).
Proof. split; vm_compute; repeat split; reflexivity. Qed.

(** ** [list(inner)] and [parallel] *)

Lemma array_write_length (l : list val) (i : nat) (v : val) :
  length (array_write l i v) = Nat.max (length l) (S i).
Proof.
  revert i; induction l as [|y l IH]; intros i.
  - induction i as [|i IHi]; simpl; [reflexivity|]. rewrite IHi. reflexivity.
  - destruct i; simpl; [lia|]. rewrite IH. reflexivity.
Qed.

Lemma array_write_nth (l : list val) (i : nat) (v : val) (j : nat) :
  nth j (array_write l i v) VUndef = if Nat.eqb j i then v else nth j l VUndef.
Proof.
  revert i j; induction l as [|y l IH]; intros i j.
  - revert j; induction i as [|i IHi]; intros [|j]; simpl;
      first [reflexivity | destruct j; reflexivity
            | rewrite IHi; destruct (Nat.eqb j i); [reflexivity | destruct j; reflexivity]].
  - destruct i, j; simpl; auto.
Qed.

Lemma writes_nth_notin (arr : list val) (fs : list firing) (j : nat) :
  ~ In j (map fi_idx fs) -> nth j (writes arr fs) VUndef = nth j arr VUndef.
Proof.
  unfold writes. revert arr; induction fs as [|x fs IH]; simpl; intros arr H; auto.
  rewrite IH by tauto. rewrite array_write_nth.
  destruct (Nat.eqb j (fi_idx x)) eqn:E; auto.
  apply Nat.eqb_eq in E. exfalso. auto.
Qed.

Lemma writes_nth (arr : list val) (fs : list firing) (x : firing) :
  NoDup (map fi_idx fs) -> In x fs -> nth (fi_idx x) (writes arr fs) VUndef = fi_val x.
Proof.
  revert arr; induction fs as [|y fs IH]; simpl; intros arr Hnd Hin; [contradiction|].
  inversion Hnd as [|? ? Hy Hnd']; subst.
  destruct Hin as [->|Hin].
  - fold (writes (array_write arr (fi_idx x) (fi_val x)) fs).
    rewrite writes_nth_notin by auto. rewrite array_write_nth, Nat.eqb_refl. reflexivity.
  - apply IH; auto.
Qed.

Lemma writes_length (arr : list val) (fs : list firing) (n : nat) :
  (forall x, In x fs -> fi_idx x < n) -> length arr <= n ->
  length (writes arr fs) <= n /\ length arr <= length (writes arr fs) /\
  (forall x, In x fs -> fi_idx x < length (writes arr fs)).
Proof.
  unfold writes. revert arr; induction fs as [|x fs IH]; simpl; intros arr Hx Harr.
  - split; [auto | split; [lia | tauto]].
  - assert (Hw : length (array_write arr (fi_idx x) (fi_val x)) <= n).
    { rewrite array_write_length. specialize (Hx x (or_introl eq_refl)). lia. }
    destruct (IH (array_write arr (fi_idx x) (fi_val x))) as [H1 [H2 H3]]; auto.
    rewrite array_write_length in H2.
    split; [auto | split; [lia|]].
    intros y [<-|Hy]; [lia | auto].
Qed.

Lemma par_run_no_ok (fs : list firing) (left : Z) (failed : bool) (arr : list val) :
  (Z.of_nat (successes fs) < left)%Z ->
  par_run (PP left failed arr) fs =
    if failed then [] else match first_error fs with Some e => [AggErr e] | None => [] end.
Proof.
  revert left failed arr; induction fs as [|x fs IH]; intros left failed arr H; simpl.
  - destruct failed; reflexivity.
  - unfold successes in H; simpl in H.
    destruct (fi_err x) as [e|] eqn:E; simpl.
    + destruct failed; simpl; rewrite IH by exact H; reflexivity.
    + simpl in H. destruct (Z.eqb (left - 1) 0) eqn:Z0; [apply Z.eqb_eq in Z0; lia|].
      apply IH. unfold successes. lia.
Qed.

Lemma par_run_all_ok (fs : list firing) (failed : bool) (arr : list val) :
  first_error fs = None -> fs <> [] ->
  par_run (PP (Z.of_nat (length fs)) failed arr) fs = [AggOk (writes arr fs)].
Proof.
  revert failed arr; induction fs as [|x fs IH]; intros failed arr He Hne; [congruence|].
  simpl in He. destruct (fi_err x) eqn:E; [discriminate|].
  cbn [par_run]. unfold par_step. rewrite E. cbn [pp_left pp_failed pp_arr length].
  replace (Z.of_nat (S (length fs)) - 1)%Z with (Z.of_nat (length fs)) by lia.
  destruct fs as [|y fs'].
  - reflexivity.
  - replace (Z.of_nat (length (y :: fs')) =? 0)%Z with false
      by (symmetry; apply Z.eqb_neq; cbn [length]; lia).
    cbv beta iota. apply IH; [exact He | discriminate].
Qed.

Lemma successes_le (fs : list firing) : successes fs <= length fs.
Proof. unfold successes. apply filter_length_le. Qed.

Lemma successes_error (fs : list firing) (e : jserr) :
  first_error fs = Some e -> successes fs < length fs.
Proof.
  unfold successes. induction fs as [|x fs IH]; simpl; [discriminate|].
  destruct (fi_err x); intros H.
  - pose proof (filter_length_le (fun x => match fi_err x with None => true | Some _ => false end) fs). lia.
  - simpl. specialize (IH H). lia.
Qed.

Lemma successes_no_error (fs : list firing) : first_error fs = None -> successes fs = length fs.
Proof.
  unfold successes. induction fs as [|x fs IH]; simpl; [reflexivity|].
  destruct (fi_err x); intros H; [discriminate|]. simpl. rewrite IH; auto.
Qed.

Lemma indices_length (fs : list firing) (n : nat) :
  (forall x, In x fs -> fi_idx x < n) -> NoDup (map fi_idx fs) -> length fs <= n.
Proof.
  intros Hx Hnd. rewrite <- (length_map fi_idx fs), <- (length_seq n 0).
  apply NoDup_incl_length; auto.
  intros i Hi. apply in_map_iff in Hi as [x [<- Hx']]. apply in_seq. specialize (Hx x Hx'). lia.
Qed.

(** C7: the deserializer of [list(inner)] reports
    ["[serializr] expected JSON array"] through [done] on a non-array without
    calling [inner]; on [[]] it calls [done(null, [])] at once; on a non-empty
    array it starts a [parallel] run whose element callbacks are
    [processorCb.bind(null, idx)].  For any calls of those element callbacks
    (distinct indices below [n], in any order): if one reports an error, the
    aggregate callback gets the first error and nothing else; otherwise it
    fires only once all [n] elements have completed, once, with an array of
    length [n] holding the result of element [k] at index [k]. *)
Theorem list_deserializer_parallel (n : nat) (fs : list firing)
  (Hn : 0 < n) (Hidx : forall x, In x fs -> fi_idx x < n) (Hnd : NoDup (map fi_idx fs)) :
  (forall f j b inner jv done c old s,
     array_elems s jv = None ->
     deser_prop (S f) (PS j b (KList inner)) jv done c old s
       = call_cb f done (Some (EStr "[serializr] expected JSON array")) VUndef s) /\
  (forall f j b inner jv done c old s,
     array_elems s jv = Some [] ->
     deser_prop (S f) (PS j b (KList inner)) jv done c old s
       = call_cb f done None (VRef (length (st_heap s))) (upd_heap (fun h => app h [OArray []]) s)) /\
  (forall f j b inner jv done c old s es,
     array_elems s jv = Some es -> es <> [] ->
     deser_prop (S f) (PS j b (KList inner)) jv done c old s
       = (fix go (es : list val) (idx : nat) : M unit :=
            match es with
            | [] => ret tt
            | e :: r => deser_prop f inner e (CbPar (length (st_pars s)) idx) c VUndef ;;; go r (S idx)
            end) es 0
           (upd_pars (fun l => app l [Par (Z.of_nat (length es)) false (length (st_heap s)) done])
              (upd_heap (fun h => app h [OArray []]) s))) /\
  (forall e, first_error fs = Some e -> par_run (PP (Z.of_nat n) false []) fs = [AggErr e]) /\
  (first_error fs = None -> length fs < n -> par_run (PP (Z.of_nat n) false []) fs = []) /\
  (first_error fs = None -> length fs = n ->
     exists arr, par_run (PP (Z.of_nat n) false []) fs = [AggOk arr] /\ length arr = n /\
                 forall x, In x fs -> nth (fi_idx x) arr VUndef = fi_val x).
Proof.
  pose proof (indices_length fs n Hidx Hnd) as Hlen.
  split; [|split; [|split; [|split; [|split]]]].
  - intros f j b inner jv done c old s H. simpl. unfold bind, get. rewrite H. reflexivity.
  - intros f j b inner jv done c old s H. simpl. unfold bind, get. rewrite H. reflexivity.
  - intros f j b inner jv done c old s es H Hne. simpl. unfold bind at 1, get. rewrite H.
    destruct es as [|e es]; [congruence|]. reflexivity.
  - intros e He. rewrite par_run_no_ok; [rewrite He; reflexivity|].
    pose proof (successes_error fs e He). lia.
  - intros He Hl. rewrite par_run_no_ok; [rewrite He; reflexivity|].
    rewrite successes_no_error by exact He. lia.
  - intros He Hl. exists (writes [] fs).
    assert (Hne : fs <> []) by (intros ->; simpl in Hl; lia).
    split; [rewrite <- Hl; apply par_run_all_ok; auto|].
    split; [|intros x Hx; apply writes_nth; auto].
    destruct (writes_length [] fs n Hidx) as [H1 [_ H3]]; [simpl; lia|].
    apply Nat.le_antisymm; [exact H1|].
    destruct (in_dec Nat.eq_dec (n - 1) (map fi_idx fs)) as [Hin|Hout].
    + apply in_map_iff in Hin as [x [Hx Hin]]. specialize (H3 x Hin). lia.
    + exfalso.
      assert (Hle : length (map fi_idx fs) <= length (seq 0 (n - 1))).
      { apply NoDup_incl_length; auto.
        intros i Hi. apply in_seq. split; [lia|].
        apply in_map_iff in Hi as [x [<- Hx]]. specialize (Hidx x Hx).
        assert (fi_idx x <> n - 1) by (intros E; apply Hout; apply in_map_iff; eauto). lia. }
      rewrite length_map, length_seq in Hle. lia.
Qed.

Lemma list_deserializer_parallel_witness :
  exists arr, par_run (PP (Z.of_nat 2) false []) [Fire 1 None (VNum 5); Fire 0 None (VNum 3)] = [AggOk arr] /\
    length arr = 2 /\
    forall x, In x [Fire 1 None (VNum 5); Fire 0 None (VNum 3)] -> nth (fi_idx x) arr VUndef = fi_val x.
Proof.
  refine (proj2 (proj2 (proj2 (proj2 (proj2
            (list_deserializer_parallel 2 [Fire 1 None (VNum 5); Fire 0 None (VNum 3)] _ _ _))))) _ _).
  - lia.
  - intros x [<-|[<-|[]]]; simpl; lia.
  - repeat constructor; simpl; intuition discriminate.
  - reflexivity.
  - reflexivity.
Defined.

(** ** The keys the walk assigns *)

Lemma star_loop_keys (s : state) (ms : model_schema) (json : val) (keys : list string) (k : string) :
  In (Some k) (map walk_key (star_loop s ms json keys)) ->
  In k keys /\ ohas (ms_props ms) k = false /\ proto_key k = false /\ schemaHasAlias ms k = false.
Proof.
  induction keys as [|k' r IH]; simpl; [tauto|].
  destruct (ohas (ms_props ms) k' || proto_key k' || schemaHasAlias ms k') eqn:E.
  - intros H. destruct (IH H) as [H1 H2]. auto.
  - destruct (isPrimitive (js_get s json k')); simpl.
    + intros [H|H].
      * inversion H; subst. apply orb_false_iff in E as [E E3]. apply orb_false_iff in E. tauto.
      * destruct (IH H) as [H1 H2]. auto.
    + intros [H|[]]. discriminate.
Qed.

Lemma invoke_acts_keys (s : state) (json : val) (name : string) (ps : prop_schema) (k : string) :
  In (Some k) (map walk_key (invoke_acts s json name ps)) ->
  k = name /\ js_in s json (json_attr name ps) = Some true.
Proof.
  unfold invoke_acts.
  destruct (js_in s json (json_attr name ps)) as [[|]|]; simpl;
    intros H; repeat destruct H as [H|H]; try discriminate; try contradiction.
  inversion H; auto.
Qed.

Lemma prop_step_keys (s : state) (ms : model_schema) (json : val) (name : string) (w : wstep) (k : string) :
  In w (prop_step ms name) -> In (Some k) (map walk_key (step_acts s json w)) -> level_assigns s json ms k.
Proof.
  unfold prop_step, level_assigns.
  destruct (oget (ms_props ms) name) as [def|] eqn:Hdef; simpl; [|tauto].
  destruct (String.eqb name "*") eqn:Hstar.
  - apply String.eqb_eq in Hstar. subst name.
    destruct def; simpl; intros [<-|[]]; simpl; intros H.
    + destruct (star_loop_keys _ _ _ _ _ H) as [H1 [H2 [H3 H4]]]. right. auto.
    + destruct H as [H|[]]. discriminate.
    + destruct H as [H|[]]. discriminate.
  - assert (Hne : name <> "*") by (intros E; subst; discriminate).
    destruct def as [| |ps]; simpl; intros Hw; [| contradiction |];
      destruct Hw as [<-|[]]; simpl; intros H;
      apply invoke_acts_keys in H as [-> H]; left; split; auto.
    + exists PTrue, defaultPrimitiveProp. auto.
    + exists (PSch ps), ps. auto.
Qed.

Lemma own_steps_keys (s : state) (ms : model_schema) (json : val) (w : wstep) (k : string) :
  In w (own_steps ms) -> In (Some k) (map walk_key (step_acts s json w)) -> level_assigns s json ms k.
Proof.
  unfold own_steps. intros Hw. apply in_flat_map in Hw as [name [_ Hw]].
  apply (prop_step_keys s ms json name w k Hw).
Qed.

(** Every step of the walk is a step of one schema of the chain, or a throw. *)
Lemma props_steps_in (n : nat) (sc : list model_schema) (sid : nat) (ws : list wstep) (w : wstep) :
  props_steps n sc sid = Some ws -> In w ws ->
  (exists ms, In ms (chain n sc sid) /\ In w (own_steps ms)) \/ exists m, w = WThrow m.
Proof.
  revert sid ws; induction n as [|n IH]; intros sid ws H Hw; simpl in H; [discriminate|].
  simpl. destruct (nth_error sc sid) as [ms|] eqn:Hms.
  - destruct (ms_extends ms) as [p|] eqn:Hext.
    + destruct (props_steps n sc p) as [pa|] eqn:Hpa; [|discriminate].
      inversion H; subst ws. apply in_app_or in Hw as [Hw|Hw].
      * destruct (IH p pa Hpa Hw) as [[ms' [Hin Hl]]|Hm]; [left|right; exact Hm].
        exists ms'. split; [right; exact Hin | exact Hl].
      * left. exists ms. split; [left; reflexivity | exact Hw].
    + inversion H; subst ws. left. exists ms. split; [left; reflexivity | exact Hw].
  - inversion H; subst ws. destruct Hw as [<-|[]]. right. eexists; reflexivity.
Qed.

Lemma walk_keys (s : state) (sid : nat) (json : val) (ws : list wstep) (w : wstep) (k : string) :
  walk (st_schemas s) sid = Some ws -> In w ws -> In (Some k) (map walk_key (step_acts s json w)) ->
  may_assign s sid json k.
Proof.
  intros H Hw Hk. destruct (props_steps_in _ _ _ _ _ H Hw) as [[ms [Hin Hl]]|[m ->]].
  - exists ms. split; [exact Hin|]. exact (own_steps_keys s ms json w k Hl Hk).
  - simpl in Hk. destruct Hk as [Hk|[]]. discriminate.
Qed.

(** ** Lists, objects and invariants of the monad *)

Lemma nth_error_set_nth {A} (l : list A) (i j : nat) (x : A) :
  nth_error (set_nth l i x) j =
    if Nat.eqb i j then match nth_error l j with Some _ => Some x | None => None end
    else nth_error l j.
Proof.
  revert i j; induction l as [|y l IH]; intros i j.
  - destruct (Nat.eqb i j), j; reflexivity.
  - destruct i, j; simpl; auto.
Qed.

Lemma nth_error_app_last {A} (l : list A) (x : A) (j : nat) :
  nth_error (app l [x]) j = if Nat.eqb j (length l) then Some x else nth_error l j.
Proof.
  revert j; induction l as [|y l IH]; intros [|j]; simpl; auto.
  destruct j; reflexivity.
Qed.

Lemma nth_error_app_last_some {A} (l : list A) (x y : A) (j : nat) :
  nth_error l j = Some y -> nth_error (app l [x]) j = Some y.
Proof.
  intros H. rewrite nth_error_app_last.
  destruct (Nat.eqb j (length l)) eqn:E; auto.
  apply Nat.eqb_eq in E. subst.
  assert (nth_error l (length l) = None) by (apply nth_error_None; lia). congruence.
Qed.

Lemma nth_error_set_nth_other {A} (l : list A) (i j : nat) (x : A) :
  i <> j -> nth_error (set_nth l i x) j = nth_error l j.
Proof.
  intros H. rewrite nth_error_set_nth. destruct (Nat.eqb i j) eqn:E; auto.
  apply Nat.eqb_eq in E. contradiction.
Qed.

Lemma oget_oset {A} (o : list (string * A)) (k k' : string) (v : A) :
  oget (oset o k v) k' = if String.eqb k' k then Some v else oget o k'.
Proof.
  induction o as [|[k1 v1] o IH]; simpl; [reflexivity|].
  destruct (String.eqb_spec k k1) as [E|E]; simpl.
  - subst k1. destruct (String.eqb k' k); reflexivity.
  - rewrite IH. destruct (String.eqb_spec k' k1) as [E1|E1].
    + subst k1. destruct (String.eqb_spec k' k); [congruence | reflexivity].
    + reflexivity.
Qed.

Lemma keeps_bind {A B} (I : state -> Prop) (m : M A) (k : A -> M B) (Q : A -> Prop) (R : B -> Prop) :
  keeps I m Q -> (forall a, Q a -> keeps I (k a) R) -> keeps I (bind m k) R.
Proof.
  intros Hm Hk s Hs. unfold bind. specialize (Hm s Hs).
  destruct (m s) as [s' a|s' e|]; auto. destruct Hm as [H1 H2]. apply (Hk a H2 s' H1).
Qed.

Lemma bind_ok {A B} (m : M A) (k : A -> M B) (s s' : state) (a : A) :
  m s = Ok s' a -> bind m k s = k a s'.
Proof. intros H. unfold bind. rewrite H. reflexivity. Qed.

Ltac run H := rewrite (bind_ok _ _ _ _ _ H); cbv beta.

Lemma keeps_ret {A} (I : state -> Prop) (a : A) : keeps I (ret a) (fun _ => True).
Proof. intros s Hs. split; auto. Qed.

Lemma keeps_throw {A} (I : state -> Prop) (msg : string) (Q : A -> Prop) : keeps I (throw msg) Q.
Proof. intros s Hs. exact Hs. Qed.

Lemma keeps_out_of_fuel {A} (I : state -> Prop) (Q : A -> Prop) : keeps I out_of_fuel Q.
Proof. intros s Hs. exact Logic.I. Qed.

Lemma keeps_get (I : state -> Prop) : keeps I get (fun _ => True).
Proof. intros s Hs. split; auto. Qed.

Lemma keeps_get_self (I : state -> Prop) : keeps I get I.
Proof. intros s Hs. split; exact Hs. Qed.

(** Each step of the walk reads the state it starts in. *)
Lemma keeps_run_steps (I : state -> Prop) (dp : prop_schema -> val -> cbk -> val -> M unit)
  (c t : nat) (json : val) (ws : list wstep) :
  (forall w s, In w ws -> I s -> keeps I (run_acts dp c t (step_acts s json w)) (fun _ => True)) ->
  keeps I (run_steps dp c t json ws) (fun _ => True).
Proof.
  induction ws as [|w r IH]; intros H; simpl; [apply keeps_ret|].
  eapply keeps_bind; [apply keeps_get_self | intros s Hs].
  eapply keeps_bind; [apply H; [left; reflexivity | exact Hs] | intros _ _].
  apply IH. intros w' s' Hw'. apply H. right. exact Hw'.
Qed.

Lemma keeps_invariant (I : state -> Prop) (b : bool) (msg : string) : keeps I (invariant b msg) (fun _ => True).
Proof. unfold invariant. destruct b; [apply keeps_ret | apply keeps_throw]. Qed.

Lemma keeps_ctx_get (I : state -> Prop) (c : nat) : keeps I (ctx_get c) (fun _ => True).
Proof. intros s Hs. unfold ctx_get. destruct (nth_error (st_ctxs s) c); auto. Qed.

Lemma keeps_schema_get (I : state -> Prop) (sid : nat) : keeps I (schema_get sid) (fun _ => True).
Proof. intros s Hs. unfold schema_get. destruct (nth_error (st_schemas s) sid); auto. Qed.

Lemma keeps_isAssignableTo (I : state -> Prop) (a e : nat) : keeps I (isAssignableTo a e) (fun _ => True).
Proof.
  intros s Hs. unfold isAssignableTo, bind, get.
  destruct (assignable_walk _ _ _ _); [split; auto | exact Logic.I].
Qed.

Lemma keeps_filter_assignable (I : state -> Prop) (lst : list (nat * val)) (e : nat) :
  keeps I (filter_assignable lst e) (fun _ => True).
Proof.
  induction lst as [|[a v] r IH]; simpl; [apply keeps_ret|].
  eapply keeps_bind; [apply keeps_isAssignableTo | intros b _].
  eapply keeps_bind; [apply IH | intros rest _]. apply keeps_ret.
Qed.

(** ** The frame of a target object *)

Section Frame.
Variable t : nat.
Variable P : string -> Prop.
Variable ps0 : list (string * val).
#[local] Abbreviation FI := (frame_inv t P ps0).

Lemma frame_same (s s' : state) :
  st_heap s' = st_heap s -> st_onces s' = st_onces s -> st_pars s' = st_pars s -> FI s -> FI s'.
Proof. intros H1 H2 H3 H. unfold frame_inv in *. rewrite H1, H2, H3. exact H. Qed.

Lemma frame_target_lt (s : state) : FI s -> t < length (st_heap s).
Proof.
  intros [[cls [ps [H _]]] _]. apply nth_error_Some. congruence.
Qed.

Lemma keeps_modify (f : state -> state) :
  (forall s, st_heap (f s) = st_heap s /\ st_onces (f s) = st_onces s /\ st_pars (f s) = st_pars s) ->
  keeps FI (modify f) (fun _ => True).
Proof.
  intros Hf s Hs. unfold modify. split; auto.
  destruct (Hf s) as [H1 [H2 H3]]. eapply frame_same; eauto.
Qed.

Lemma keeps_ctx_put (c : nat) (cx : context) : keeps FI (ctx_put c cx) (fun _ => True).
Proof. apply keeps_modify. intros s. simpl. auto. Qed.

Lemma keeps_ctx_new (parent : option nat) (sid : nat) (cb : cbk) : keeps FI (ctx_new parent sid cb) (fun _ => True).
Proof.
  intros s Hs. unfold ctx_new. split; [exact Hs | exact Logic.I].
Qed.

Lemma keeps_record_event (e : option jserr * val) : keeps FI (record_event e) (fun _ => True).
Proof. apply keeps_modify. intros s. simpl. auto. Qed.

Lemma keeps_once_get (i : nat) :
  keeps FI (once_get i) (fun r => forall p, on_fn r = FnAssign t p -> P p).
Proof.
  intros s Hs. unfold once_get.
  destruct (nth_error (st_onces s) i) as [r|] eqn:E; auto.
  split; auto. destruct Hs as [_ [H _]]. intros p Hp. eapply H; eauto.
Qed.

Lemma keeps_once_put (i : nat) (r : once_rec) :
  (forall p, on_fn r = FnAssign t p -> P p) -> keeps FI (once_put i r) (fun _ => True).
Proof.
  intros Hr s [H1 [H2 H3]]. unfold once_put, modify. split; auto.
  split; [exact H1 | split; [|exact H3]].
  intros j r' p Hj Hf. simpl in Hj. rewrite nth_error_set_nth in Hj.
  destruct (Nat.eqb i j).
  - destruct (nth_error (st_onces s) j); inversion Hj; subst. eauto.
  - eauto.
Qed.

Lemma keeps_once_new (r : once_rec) :
  (forall p, on_fn r = FnAssign t p -> P p) -> keeps FI (once_new r) (fun _ => True).
Proof.
  intros Hr s [H1 [H2 H3]]. unfold once_new. split; auto.
  split; [exact H1 | split; [|exact H3]].
  intros j r' p Hj Hf. simpl in Hj. rewrite nth_error_app_last in Hj.
  destruct (Nat.eqb j (length (st_onces s))).
  - inversion Hj; subst. eauto.
  - eauto.
Qed.

Lemma keeps_par_get (q : nat) : keeps FI (par_get q) (fun pr => pa_arr pr <> t).
Proof.
  intros s Hs. unfold par_get.
  destruct (nth_error (st_pars s) q) as [pr|] eqn:E; auto.
  split; auto. destruct Hs as [_ [_ H]]. eauto.
Qed.

Lemma keeps_par_put (q : nat) (pr : par_rec) : pa_arr pr <> t -> keeps FI (par_put q pr) (fun _ => True).
Proof.
  intros Hr s [H1 [H2 H3]]. unfold par_put, modify. split; auto.
  split; [exact H1 | split; [exact H2|]].
  intros j pr' Hj. simpl in Hj. rewrite nth_error_set_nth in Hj.
  destruct (Nat.eqb q j).
  - destruct (nth_error (st_pars s) j); inversion Hj; subst. auto.
  - eauto.
Qed.

Lemma keeps_par_new (pr : par_rec) : pa_arr pr <> t -> keeps FI (par_new pr) (fun _ => True).
Proof.
  intros Hr s [H1 [H2 H3]]. unfold par_new. split; auto.
  split; [exact H1 | split; [exact H2|]].
  intros j pr' Hj. simpl in Hj. rewrite nth_error_app_last in Hj.
  destruct (Nat.eqb j (length (st_pars s))).
  - inversion Hj; subst. auto.
  - eauto.
Qed.

Lemma keeps_alloc (o : obj) : keeps FI (alloc o) (fun l => l <> t).
Proof.
  intros s Hs. pose proof (frame_target_lt s Hs) as Hlt.
  destruct Hs as [[cls [ps [H1 H1']]] [H2 H3]]. unfold alloc. split; [|lia].
  split; [|split; [exact H2 | exact H3]].
  exists cls, ps. split; auto. simpl. apply nth_error_app_last_some. exact H1.
Qed.

Lemma keeps_heap_get (l : nat) : keeps FI (heap_get l) (fun _ => True).
Proof. intros s Hs. unfold heap_get. destruct (nth_error (st_heap s) l); auto. Qed.

Lemma keeps_heap_put (l : nat) (o : obj) : l <> t -> keeps FI (heap_put l o) (fun _ => True).
Proof.
  intros Hl s [[cls [ps [H1 H1']]] [H2 H3]]. unfold heap_put, modify. split; auto.
  split; [|split; [exact H2 | exact H3]].
  exists cls, ps. split; auto. simpl. rewrite nth_error_set_nth_other; auto.
Qed.

Lemma keeps_set_prop (l : nat) (p : string) (v : val) :
  (l = t -> P p) -> keeps FI (set_prop l p v) (fun _ => True).
Proof.
  intros Hp s Hs. unfold set_prop, bind, heap_get.
  destruct (nth_error (st_heap s) l) as [o|] eqn:E; [|exact Hs].
  destruct (Nat.eq_dec l t) as [->|Hne].
  - destruct Hs as [[cls [ps [H1 H1']]] [H2 H3]]. rewrite H1 in E. inversion E; subst o.
    unfold heap_put, modify. split; auto.
    split; [|split; [exact H2 | exact H3]].
    exists cls, (oset ps p v). split.
    + simpl. rewrite nth_error_set_nth, Nat.eqb_refl, H1. reflexivity.
    + intros k Hk. rewrite oget_oset. destruct (String.eqb_spec k p) as [->|_].
      * exfalso. apply Hk. apply Hp. reflexivity.
      * apply H1'. exact Hk.
  - destruct o as [cls ps|es|d].
    + apply keeps_heap_put; auto.
    + destruct (array_index p); [apply keeps_heap_put; auto | split; auto].
    + split; auto.
Qed.

Lemma keeps_run_factory (f : factory) : keeps FI (run_factory f) (fun l => l <> t).
Proof.
  unfold run_factory. eapply keeps_bind; [apply keeps_modify; intros s; simpl; auto | intros _ _].
  destruct f; apply keeps_alloc.
Qed.

Lemma keeps_run_fn (fn : fnk) (v : val) :
  (forall p, fn = FnAssign t p -> P p) -> keeps FI (run_fn fn v) (fun _ => True).
Proof.
  intros Hfn. destruct fn as [|l p]; simpl.
  - eapply keeps_bind; [apply keeps_get | intros s _].
    destruct (truthy v); [apply keeps_throw | apply keeps_ret].
  - apply keeps_set_prop. intros ->. apply Hfn. reflexivity.
Qed.

Lemma keeps_guarded_noop_err (err : option jserr) : keeps FI (guarded_noop_err err) (fun _ => True).
Proof.
  destruct err as [[m|m]|]; simpl; [apply keeps_throw | apply keeps_throw | apply keeps_ret].
Qed.

Lemma keeps_create_cb (c : nat) (fn : fnk) :
  (forall p, fn = FnAssign t p -> P p) -> keeps FI (create_cb c fn) (fun _ => True).
Proof.
  intros Hfn. unfold create_cb.
  eapply keeps_bind; [apply keeps_ctx_get | intros cx _].
  eapply keeps_bind; [apply keeps_ctx_put | intros _ _].
  eapply keeps_bind; [apply keeps_once_new; exact Hfn | intros k _].
  apply keeps_ret.
Qed.

Lemma keeps_call_cb (f : nat) : forall k err v, keeps FI (call_cb f k err v) (fun _ => True).
Proof.
  induction f as [|f IH]; intros k err v; [apply keeps_out_of_fuel|].
  destruct k as [i|q idx| | |]; cbn [call_cb].
  - eapply keeps_bind; [apply keeps_once_get | intros r Hr].
    destruct (on_fired r); [apply keeps_throw|].
    eapply keeps_bind; [apply keeps_once_put; exact Hr | intros _ _].
    eapply keeps_bind; [apply keeps_ctx_get | intros cx _].
    destruct err as [e|].
    + destruct (cx_hasError cx); [apply keeps_ret|].
      eapply keeps_bind; [apply keeps_ctx_put | intros _ _]. apply IH.
    + destruct (cx_hasError cx); [apply keeps_ret|].
      eapply keeps_bind; [apply keeps_run_fn; exact Hr | intros _ _].
      eapply keeps_bind; [apply keeps_ctx_get | intros cx1 _].
      eapply keeps_bind; [apply keeps_ctx_put | intros _ _].
      destruct (settle _) as [[e w]|]; [apply IH | apply keeps_ret].
  - eapply keeps_bind; [apply keeps_par_get | intros pr Hpr].
    eapply keeps_bind; [apply keeps_heap_get | intros o _].
    destruct (par_step _ _ _ _) as [st' ev].
    eapply keeps_bind; [apply keeps_par_put; exact Hpr | intros _ _].
    eapply keeps_bind; [apply keeps_heap_put; exact Hpr | intros _ _].
    destruct ev as [[e|vs]|]; [apply IH | apply IH | apply keeps_ret].
  - apply keeps_record_event.
  - apply keeps_guarded_noop_err.
  - apply keeps_throw.
Qed.

Lemma keeps_await (f root sid : nat) (uuid : val) (cb : cbk) :
  keeps FI (await f root sid uuid cb) (fun _ => True).
Proof.
  destruct f as [|f]; unfold await; [apply keeps_out_of_fuel|].
  eapply keeps_bind; [apply keeps_ctx_get | intros cx _].
  eapply keeps_bind; [apply keeps_invariant | intros _ _].
  eapply keeps_bind; [apply keeps_get | intros s _].
  eapply keeps_bind;
    [destruct (oget _ _); [apply keeps_filter_assignable | apply keeps_ret] | intros found _].
  destruct found as [|[a v] r]; [apply keeps_ctx_put | apply keeps_call_cb].
Qed.

Lemma keeps_resolve (f root sid : nat) (id value : val) :
  keeps FI (resolve f root sid id value) (fun _ => True).
Proof.
  destruct f as [|f]; unfold resolve; [apply keeps_out_of_fuel|].
  eapply keeps_bind; [apply keeps_ctx_get | intros cx _].
  eapply keeps_bind; [apply keeps_invariant | intros _ _].
  eapply keeps_bind; [apply keeps_get | intros s _].
  eapply keeps_bind; [apply keeps_ctx_put | intros _ _].
  destruct (oget _ _) as [lst|]; [|apply keeps_ret].
  generalize (length lst) as n. induction n as [|n IHn]; cbv fix beta iota zeta; [apply keeps_ret|].
  eapply keeps_bind; [apply keeps_ctx_get | intros cx1 _].
  destruct (nth_error _ n) as [opts|]; [|apply keeps_throw].
  eapply keeps_bind; [apply keeps_isAssignableTo | intros b _].
  destruct b; [|exact IHn].
  eapply keeps_bind; [apply keeps_ctx_put | intros _ _].
  eapply keeps_bind; [apply keeps_call_cb | intros _ _].
  exact IHn.
Qed.

Lemma keeps_run_acts (dp : prop_schema -> val -> cbk -> val -> M unit) (c t' : nat) (acts : list action) :
  (forall ps jv cb old, keeps FI (dp ps jv cb old) (fun _ => True)) ->
  (forall a k, In a acts -> walk_key a = Some k -> t' = t -> P k) ->
  keeps FI (run_acts dp c t' acts) (fun _ => True).
Proof.
  intros Hdp. induction acts as [|a r IH]; intros Hacts; simpl; [apply keeps_ret|].
  assert (Hr : forall a k, In a r -> walk_key a = Some k -> t' = t -> P k)
    by (intros; eapply Hacts; [right|..]; eauto).
  destruct a as [k v|p ps jv|m].
  - eapply keeps_bind; [apply keeps_set_prop | intros _ _; apply IH; exact Hr].
    intros E. eapply Hacts; [left; reflexivity | reflexivity | exact E].
  - eapply keeps_bind; [apply keeps_ctx_get | intros cx _].
    eapply keeps_bind; [apply keeps_create_cb | intros cb _].
    { intros p' E. inversion E; subst. eapply Hacts; [left; reflexivity | reflexivity | reflexivity]. }
    eapply keeps_bind; [apply keeps_get | intros s _].
    eapply keeps_bind; [apply Hdp | intros _ _]. apply IH. exact Hr.
  - apply keeps_throw.
Qed.

Lemma keeps_deser (f : nat) :
  (forall ps jv done c old, keeps FI (deser_prop f ps jv done c old) (fun _ => True)) /\
  (forall parent sid json cb, keeps FI (deser_obj f parent sid json cb) (fun _ => True)) /\
  (forall c sid json t', t' <> t -> keeps FI (deser_props f c sid json t') (fun _ => True)).
Proof.
  induction f as [|f [IHp [IHo IHs]]];
    [repeat split; intros; apply keeps_out_of_fuel|].
  split; [|split].
  - intros ps jv done c old. cbn [deser_prop].
    destruct (ps_kind_of ps) as [| | |ser des|sid|sid attr|inner].
    + eapply keeps_bind; [apply keeps_get | intros s _].
      destruct (isPrimitive jv); apply keeps_call_cb.
    + eapply keeps_bind; [apply keeps_get | intros s _].
      eapply keeps_bind; [apply keeps_ctx_get | intros cx _].
      destruct (if isPrimitive jv then _ else _) as [e id].
      eapply keeps_bind; [apply keeps_resolve | intros _ _]. apply keeps_call_cb.
    + destruct (is_nullish jv); [apply keeps_call_cb|].
      eapply keeps_bind; [apply keeps_get | intros s _].
      eapply keeps_bind; [apply keeps_alloc | intros l _]. apply keeps_call_cb.
    + apply keeps_call_cb.
    + destruct (is_nullish jv); [apply keeps_call_cb|].
      eapply keeps_bind; [apply IHo | intros _ _]. apply keeps_ret.
    + destruct (is_nullish jv); [apply keeps_call_cb|].
      eapply keeps_bind; [apply keeps_ctx_get | intros cx _]. apply keeps_await.
    + eapply keeps_bind; [apply keeps_get | intros s _].
      destruct (array_elems s jv) as [[|e es]|]; [| |apply keeps_call_cb].
      * eapply keeps_bind; [apply keeps_alloc | intros l _]. apply keeps_call_cb.
      * eapply keeps_bind; [apply keeps_alloc | intros a Ha].
        eapply keeps_bind; [apply keeps_par_new; exact Ha | intros q _].
        eapply keeps_bind; [apply IHp | intros _ _].
        generalize 1. induction es as [|x l IHl]; intros idx;
          [apply keeps_ret|].
        eapply keeps_bind; [apply IHp | intros _ _]. apply IHl.
  - intros parent sid json cb. cbn [deser_obj].
    destruct (is_nullish json).
    + eapply keeps_bind; [apply keeps_call_cb | intros _ _]. apply keeps_ret.
    + eapply keeps_bind; [apply keeps_ctx_new | intros c _].
      eapply keeps_bind; [apply keeps_schema_get | intros ms _].
      eapply keeps_bind; [apply keeps_run_factory | intros t' Ht'].
      eapply keeps_bind; [apply keeps_ctx_get | intros cx _].
      eapply keeps_bind; [apply keeps_ctx_put | intros _ _].
      eapply keeps_bind; [apply keeps_create_cb; discriminate | intros lock _].
      eapply keeps_bind; [apply IHs; exact Ht' | intros _ _].
      eapply keeps_bind; [apply keeps_call_cb | intros _ _]. apply keeps_ret.
  - intros c sid json t' Ht'. cbn [deser_props].
    eapply keeps_bind; [apply keeps_get | intros s _].
    destruct (walk (st_schemas s) sid) as [ws|]; [|apply keeps_out_of_fuel].
    apply keeps_run_steps. intros w s1 _ _.
    apply keeps_run_acts; [intros; apply IHp | intros a k _ _ E; congruence].
Qed.

End Frame.

(** ** Objects a run leaves alone *)

Section Kept.
Variable it : nat.
Variable o0 : obj.
#[local] Abbreviation OK := (obj_kept it o0).

Lemma ok_lt (s : state) : OK s -> it < length (st_heap s).
Proof. intros [H _]. apply nth_error_Some. congruence. Qed.

Lemma ok_modify (f : state -> state) :
  (forall s, st_heap (f s) = st_heap s /\ st_onces (f s) = st_onces s /\ st_pars (f s) = st_pars s) ->
  keeps OK (modify f) (fun _ => True).
Proof.
  intros Hf s Hs. unfold modify. split; auto.
  destruct (Hf s) as [H1 [H2 H3]]. unfold obj_kept in *. rewrite H1, H2, H3. exact Hs.
Qed.

Lemma ok_reads {A} (m : M A) :
  (forall s, match m s with Ok s' _ => s' = s | Throw s' _ => s' = s | OutOfFuel => True end) ->
  keeps OK m (fun _ => True).
Proof. intros Hm s Hs. specialize (Hm s). destruct (m s); subst; auto. Qed.

Lemma ok_ctx_put (c : nat) (cx : context) : keeps OK (ctx_put c cx) (fun _ => True).
Proof. apply ok_modify. intros s. simpl. auto. Qed.

Lemma ok_ctx_new (parent : option nat) (sid : nat) (cb : cbk) : keeps OK (ctx_new parent sid cb) (fun _ => True).
Proof. intros s Hs. unfold ctx_new. split; [exact Hs | exact I]. Qed.

Lemma ok_once_get (i : nat) :
  keeps OK (once_get i) (fun r => forall l p, on_fn r = FnAssign l p -> l <> it).
Proof.
  intros s Hs. unfold once_get.
  destruct (nth_error (st_onces s) i) as [r|] eqn:E; auto.
  split; auto. destruct Hs as [_ [H _]]. intros l p Hp. eapply H; eauto.
Qed.

Lemma ok_once_put (i : nat) (r : once_rec) :
  (forall l p, on_fn r = FnAssign l p -> l <> it) -> keeps OK (once_put i r) (fun _ => True).
Proof.
  intros Hr s [H1 [H2 H3]]. unfold once_put, modify. split; auto.
  split; [exact H1 | split; [|exact H3]].
  intros j r' l p Hj Hf. simpl in Hj. rewrite nth_error_set_nth in Hj.
  destruct (Nat.eqb i j).
  - destruct (nth_error (st_onces s) j); inversion Hj; subst. eauto.
  - eauto.
Qed.

Lemma ok_once_new (r : once_rec) :
  (forall l p, on_fn r = FnAssign l p -> l <> it) -> keeps OK (once_new r) (fun _ => True).
Proof.
  intros Hr s [H1 [H2 H3]]. unfold once_new. split; auto.
  split; [exact H1 | split; [|exact H3]].
  intros j r' l p Hj Hf. simpl in Hj. rewrite nth_error_app_last in Hj.
  destruct (Nat.eqb j (length (st_onces s))).
  - inversion Hj; subst. eauto.
  - eauto.
Qed.

Lemma ok_par_get (q : nat) : keeps OK (par_get q) (fun pr => pa_arr pr <> it).
Proof.
  intros s Hs. unfold par_get.
  destruct (nth_error (st_pars s) q) as [pr|] eqn:E; auto.
  split; auto. destruct Hs as [_ [_ H]]. eauto.
Qed.

Lemma ok_par_put (q : nat) (pr : par_rec) : pa_arr pr <> it -> keeps OK (par_put q pr) (fun _ => True).
Proof.
  intros Hr s [H1 [H2 H3]]. unfold par_put, modify. split; auto.
  split; [exact H1 | split; [exact H2|]].
  intros j pr' Hj. simpl in Hj. rewrite nth_error_set_nth in Hj.
  destruct (Nat.eqb q j).
  - destruct (nth_error (st_pars s) j); inversion Hj; subst. auto.
  - eauto.
Qed.

Lemma ok_par_new (pr : par_rec) : pa_arr pr <> it -> keeps OK (par_new pr) (fun _ => True).
Proof.
  intros Hr s [H1 [H2 H3]]. unfold par_new. split; auto.
  split; [exact H1 | split; [exact H2|]].
  intros j pr' Hj. simpl in Hj. rewrite nth_error_app_last in Hj.
  destruct (Nat.eqb j (length (st_pars s))).
  - inversion Hj; subst. auto.
  - eauto.
Qed.

Lemma ok_alloc (o : obj) : keeps OK (alloc o) (fun l => l <> it).
Proof.
  intros s Hs. pose proof (ok_lt s Hs) as Hlt.
  destruct Hs as [H1 [H2 H3]]. unfold alloc. split; [|lia].
  split; [|split; [exact H2 | exact H3]].
  simpl. apply nth_error_app_last_some. exact H1.
Qed.

Lemma ok_heap_get (l : nat) : keeps OK (heap_get l) (fun _ => True).
Proof. apply ok_reads. intros s. unfold heap_get. destruct (nth_error (st_heap s) l); reflexivity. Qed.

Lemma ok_heap_put (l : nat) (o : obj) : l <> it -> keeps OK (heap_put l o) (fun _ => True).
Proof.
  intros Hl s [H1 [H2 H3]]. unfold heap_put, modify. split; auto.
  split; [|split; [exact H2 | exact H3]].
  simpl. rewrite nth_error_set_nth_other; auto.
Qed.

Lemma ok_set_prop (l : nat) (p : string) (v : val) : l <> it -> keeps OK (set_prop l p v) (fun _ => True).
Proof.
  intros Hl. unfold set_prop. eapply keeps_bind; [apply ok_heap_get | intros o _].
  destruct o as [cls ps|es|tm]; [apply ok_heap_put; exact Hl| |apply keeps_ret].
  destruct (array_index p); [apply ok_heap_put; exact Hl | apply keeps_ret].
Qed.

Lemma ok_run_factory (f : factory) : keeps OK (run_factory f) (fun l => l <> it).
Proof.
  unfold run_factory. eapply keeps_bind; [apply ok_modify; intros s; simpl; auto | intros _ _].
  destruct f; apply ok_alloc.
Qed.

Lemma ok_run_fn (fn : fnk) (v : val) :
  (forall l p, fn = FnAssign l p -> l <> it) -> keeps OK (run_fn fn v) (fun _ => True).
Proof.
  intros Hfn. destruct fn as [|l p]; simpl.
  - eapply keeps_bind; [apply keeps_get | intros s _].
    destruct (truthy v); [apply keeps_throw | apply keeps_ret].
  - apply ok_set_prop. eapply Hfn. reflexivity.
Qed.

Lemma ok_create_cb (c : nat) (fn : fnk) :
  (forall l p, fn = FnAssign l p -> l <> it) -> keeps OK (create_cb c fn) (fun _ => True).
Proof.
  intros Hfn. unfold create_cb.
  eapply keeps_bind; [apply keeps_ctx_get | intros cx _].
  eapply keeps_bind; [apply ok_ctx_put | intros _ _].
  eapply keeps_bind; [apply ok_once_new; exact Hfn | intros k _].
  apply keeps_ret.
Qed.

Lemma ok_call_cb (f : nat) : forall k err v, keeps OK (call_cb f k err v) (fun _ => True).
Proof.
  induction f as [|f IH]; intros k err v; [apply keeps_out_of_fuel|].
  destruct k as [i|q idx| | |]; cbn [call_cb].
  - eapply keeps_bind; [apply ok_once_get | intros r Hr].
    destruct (on_fired r); [apply keeps_throw|].
    eapply keeps_bind; [apply ok_once_put; exact Hr | intros _ _].
    eapply keeps_bind; [apply keeps_ctx_get | intros cx _].
    destruct err as [e|].
    + destruct (cx_hasError cx); [apply keeps_ret|].
      eapply keeps_bind; [apply ok_ctx_put | intros _ _]. apply IH.
    + destruct (cx_hasError cx); [apply keeps_ret|].
      eapply keeps_bind; [apply ok_run_fn; intros l p E; exact (Hr l p E) | intros _ _].
      eapply keeps_bind; [apply keeps_ctx_get | intros cx1 _].
      eapply keeps_bind; [apply ok_ctx_put | intros _ _].
      destruct (settle _) as [[e w]|]; [apply IH | apply keeps_ret].
  - eapply keeps_bind; [apply ok_par_get | intros pr Hpr].
    eapply keeps_bind; [apply ok_heap_get | intros o _].
    destruct (par_step _ _ _ _) as [st' ev].
    eapply keeps_bind; [apply ok_par_put; exact Hpr | intros _ _].
    eapply keeps_bind; [apply ok_heap_put; exact Hpr | intros _ _].
    destruct ev as [[e|vs]|]; [apply IH | apply IH | apply keeps_ret].
  - apply ok_modify. intros s. simpl. auto.
  - destruct err as [[m|m]|]; simpl; [apply keeps_throw | apply keeps_throw | apply keeps_ret].
  - apply keeps_throw.
Qed.

Lemma ok_await (f root sid : nat) (uuid : val) (cb : cbk) :
  keeps OK (await f root sid uuid cb) (fun _ => True).
Proof.
  destruct f as [|f]; unfold await; [apply keeps_out_of_fuel|].
  eapply keeps_bind; [apply keeps_ctx_get | intros cx _].
  eapply keeps_bind; [apply keeps_invariant | intros _ _].
  eapply keeps_bind; [apply keeps_get | intros s _].
  eapply keeps_bind;
    [destruct (oget _ _); [apply keeps_filter_assignable | apply keeps_ret] | intros found _].
  destruct found as [|[a v] r]; [apply ok_ctx_put | apply ok_call_cb].
Qed.

Lemma ok_resolve (f root sid : nat) (id value : val) :
  keeps OK (resolve f root sid id value) (fun _ => True).
Proof.
  destruct f as [|f]; unfold resolve; [apply keeps_out_of_fuel|].
  eapply keeps_bind; [apply keeps_ctx_get | intros cx _].
  eapply keeps_bind; [apply keeps_invariant | intros _ _].
  eapply keeps_bind; [apply keeps_get | intros s _].
  eapply keeps_bind; [apply ok_ctx_put | intros _ _].
  destruct (oget _ _) as [lst|]; [|apply keeps_ret].
  generalize (length lst) as n. induction n as [|n IHn]; cbv fix beta iota zeta; [apply keeps_ret|].
  eapply keeps_bind; [apply keeps_ctx_get | intros cx1 _].
  destruct (nth_error _ n) as [opts|]; [|apply keeps_throw].
  eapply keeps_bind; [apply keeps_isAssignableTo | intros b _].
  destruct b; [|exact IHn].
  eapply keeps_bind; [apply ok_ctx_put | intros _ _].
  eapply keeps_bind; [apply ok_call_cb | intros _ _].
  exact IHn.
Qed.

Lemma ok_run_acts (dp : prop_schema -> val -> cbk -> val -> M unit) (c t : nat) (acts : list action) :
  (forall ps jv cb old, keeps OK (dp ps jv cb old) (fun _ => True)) -> t <> it ->
  keeps OK (run_acts dp c t acts) (fun _ => True).
Proof.
  intros Hdp Ht. induction acts as [|a r IH]; simpl; [apply keeps_ret|].
  destruct a as [k v|p ps jv|m].
  - eapply keeps_bind; [apply ok_set_prop; exact Ht | intros _ _; exact IH].
  - eapply keeps_bind; [apply keeps_ctx_get | intros cx _].
    eapply keeps_bind; [apply ok_create_cb | intros cb _].
    { intros l p' E. inversion E; subst. exact Ht. }
    eapply keeps_bind; [apply keeps_get | intros s _].
    eapply keeps_bind; [apply Hdp | intros _ _]. exact IH.
  - apply keeps_throw.
Qed.

Lemma ok_deser (f : nat) :
  (forall ps jv done c old, keeps OK (deser_prop f ps jv done c old) (fun _ => True)) /\
  (forall parent sid json cb, keeps OK (deser_obj f parent sid json cb) (fun _ => True)) /\
  (forall c sid json t, t <> it -> keeps OK (deser_props f c sid json t) (fun _ => True)).
Proof.
  induction f as [|f [IHp [IHo IHs]]];
    [repeat split; intros; apply keeps_out_of_fuel|].
  split; [|split].
  - intros ps jv done c old. cbn [deser_prop].
    destruct (ps_kind_of ps) as [| | |ser des|sid|sid attr|inner].
    + eapply keeps_bind; [apply keeps_get | intros s _].
      destruct (isPrimitive jv); apply ok_call_cb.
    + eapply keeps_bind; [apply keeps_get | intros s _].
      eapply keeps_bind; [apply keeps_ctx_get | intros cx _].
      destruct (if isPrimitive jv then _ else _) as [e id].
      eapply keeps_bind; [apply ok_resolve | intros _ _]. apply ok_call_cb.
    + destruct (is_nullish jv); [apply ok_call_cb|].
      eapply keeps_bind; [apply keeps_get | intros s _].
      eapply keeps_bind; [apply ok_alloc | intros l _]. apply ok_call_cb.
    + apply ok_call_cb.
    + destruct (is_nullish jv); [apply ok_call_cb|].
      eapply keeps_bind; [apply IHo | intros _ _]. apply keeps_ret.
    + destruct (is_nullish jv); [apply ok_call_cb|].
      eapply keeps_bind; [apply keeps_ctx_get | intros cx _]. apply ok_await.
    + eapply keeps_bind; [apply keeps_get | intros s _].
      destruct (array_elems s jv) as [[|e es]|]; [| |apply ok_call_cb].
      * eapply keeps_bind; [apply ok_alloc | intros l _]. apply ok_call_cb.
      * eapply keeps_bind; [apply ok_alloc | intros a Ha].
        eapply keeps_bind; [apply ok_par_new; exact Ha | intros q _].
        eapply keeps_bind; [apply IHp | intros _ _].
        generalize 1. induction es as [|x l IHl]; intros idx;
          [apply keeps_ret|].
        eapply keeps_bind; [apply IHp | intros _ _]. apply IHl.
  - intros parent sid json cb. cbn [deser_obj].
    destruct (is_nullish json).
    + eapply keeps_bind; [apply ok_call_cb | intros _ _]. apply keeps_ret.
    + eapply keeps_bind; [apply ok_ctx_new | intros c _].
      eapply keeps_bind; [apply keeps_schema_get | intros ms _].
      eapply keeps_bind; [apply ok_run_factory | intros t Ht].
      eapply keeps_bind; [apply keeps_ctx_get | intros cx _].
      eapply keeps_bind; [apply ok_ctx_put | intros _ _].
      eapply keeps_bind; [apply ok_create_cb; discriminate | intros lock _].
      eapply keeps_bind; [apply IHs; exact Ht | intros _ _].
      eapply keeps_bind; [apply ok_call_cb | intros _ _]. apply keeps_ret.
  - intros c sid json t Ht. cbn [deser_props].
    eapply keeps_bind; [apply keeps_get | intros s _].
    destruct (walk (st_schemas s) sid) as [ws|]; [|apply keeps_out_of_fuel].
    apply keeps_run_steps. intros w s1 _ _.
    apply ok_run_acts; [intros; apply IHp | exact Ht].
Qed.

End Kept.

(** ** What a step reads of the state *)

Section View.
Variables s s' : state.
Variable json : val.
Hypothesis Hv : lookup_obj s json = lookup_obj s' json.

Lemma js_get_view (k : string) : js_get s json k = js_get s' json k.
Proof. unfold js_get. rewrite Hv. reflexivity. Qed.

Lemma js_in_view (k : string) : js_in s json k = js_in s' json k.
Proof. unfold js_in. rewrite Hv. reflexivity. Qed.

Lemma js_forin_view : js_forin s json = js_forin s' json.
Proof. unfold js_forin. rewrite Hv. reflexivity. Qed.

Lemma star_loop_keys_view (ms : model_schema) (keys : list string) :
  map walk_key (star_loop s ms json keys) = map walk_key (star_loop s' ms json keys).
Proof.
  induction keys as [|k r IH]; [reflexivity|]. cbn [star_loop].
  rewrite js_get_view. destruct (_ || _); [exact IH|].
  destruct (isPrimitive _); [cbn [map]; rewrite IH|]; reflexivity.
Qed.

(** The keys a step assigns depend on the state only through [json]. *)
Lemma step_keys_view (w : wstep) :
  map walk_key (step_acts s json w) = map walk_key (step_acts s' json w).
Proof.
  destruct w as [ms|name ps|m]; simpl.
  - rewrite js_forin_view. apply star_loop_keys_view.
  - unfold invoke_acts. rewrite js_in_view. destruct (js_in s' json _) as [[|]|]; reflexivity.
  - reflexivity.
Qed.

End View.

Lemma json_view_lookup (json : val) (o : obj) (s s' : state) :
  json_view json o s -> json_view json o s' -> lookup_obj s json = lookup_obj s' json.
Proof.
  destruct json; simpl; try reflexivity.
  intros [H _] [H' _]. congruence.
Qed.

Lemma keeps_view {A} (json : val) (o : obj) (m : M A) :
  (forall j, json = VRef j -> keeps (obj_kept j o) m (fun _ => True)) ->
  keeps (json_view json o) m (fun _ => True).
Proof.
  destruct json; try (intros _ st Hs; unfold json_view; destruct (m st); tauto).
  intros H. apply H. reflexivity.
Qed.

(** ** [update] leaves the properties it does not assign alone *)

Lemma keeps_and {A} (I1 I2 : state -> Prop) (m : M A) (Q : A -> Prop) :
  keeps I1 m Q -> keeps I2 m (fun _ => True) -> keeps (fun s => I1 s /\ I2 s) m Q.
Proof.
  intros H1 H2 s [Hs1 Hs2]. specialize (H1 s Hs1). specialize (H2 s Hs2).
  destruct (m s); tauto.
Qed.

Lemma keeps_ends {A} (I : state -> Prop) (m : M A) (Q : A -> Prop) (s : state) :
  keeps I m Q -> I s -> ends I m s.
Proof. intros Hm Hs. specialize (Hm s Hs). unfold ends. destruct (m s); tauto. Qed.

Lemma ends_bind {A B} (J I : state -> Prop) (m : M A) (k : A -> M B) (Q : A -> Prop) (s : state) :
  (forall s, J s -> I s) -> keeps J m Q -> (forall a s', Q a -> J s' -> ends I (k a) s') ->
  J s -> ends I (bind m k) s.
Proof.
  intros HJI Hm Hk Hs. specialize (Hm s Hs). unfold ends, bind.
  destruct (m s) as [s1 a|s1 e|]; [|apply HJI; exact Hm|exact Logic.I].
  destruct Hm as [H1 H2]. exact (Hk a s1 H2 H1).
Qed.

Lemma ends_then {A B} (I : state -> Prop) (m : M A) (k : A -> M B) (s : state) :
  ends I m s -> (forall a, keeps I (k a) (fun _ => True)) -> ends I (bind m k) s.
Proof.
  intros Hm Hk. unfold ends, bind in *. destruct (m s) as [s1 a|s1 e|]; auto.
  specialize (Hk a s1 Hm). destruct (k a s1); tauto.
Qed.

Lemma keeps_hs_ctx_new (h : list obj) (sc : list model_schema) (parent : option nat) (sid : nat) (cb : cbk) :
  keeps (same_hs h sc) (ctx_new parent sid cb) (fun _ => True).
Proof. intros s Hs. split; [exact Hs | exact Logic.I]. Qed.

Lemma keeps_hs_ctx_put (h : list obj) (sc : list model_schema) (c : nat) (cx : context) :
  keeps (same_hs h sc) (ctx_put c cx) (fun _ => True).
Proof. intros s Hs. split; [exact Hs | exact Logic.I]. Qed.

Lemma keeps_hs_create_cb (h : list obj) (sc : list model_schema) (c : nat) (fn : fnk) :
  keeps (same_hs h sc) (create_cb c fn) (fun _ => True).
Proof.
  unfold create_cb.
  eapply keeps_bind; [apply keeps_ctx_get | intros cx _].
  eapply keeps_bind; [apply keeps_hs_ctx_put | intros _ _].
  eapply keeps_bind with (Q := fun _ => True); [intros s Hs; split; [exact Hs | exact Logic.I] | intros k _].
  apply keeps_ret.
Qed.

(** The walk on [target] (at [t]) keeps the frame and leaves [json] alone,
    when every key a step assigns, read from [json] as it was in [s0], is in [P]. *)
Lemma deser_props_frame (fuel c sid t : nat) (json : val) (P : string -> Prop) (ps0 : list (string * val))
  (o : obj) (ws : list wstep) (s0 s : state) :
  (forall j, json = VRef j -> j <> t) -> json_view json o s0 ->
  walk (st_schemas s) sid = Some ws ->
  (forall w k, In w ws -> In (Some k) (map walk_key (step_acts s0 json w)) -> P k) ->
  frame_inv t P ps0 s -> json_view json o s ->
  ends (fun s' => frame_inv t P ps0 s' /\ json_view json o s') (deser_props fuel c sid json t) s.
Proof.
  intros Hjt HV0 Hw HP HF HV. destruct fuel as [|f]; [exact Logic.I|]. cbn [deser_props].
  unfold ends. rewrite (bind_ok get _ s s s eq_refl). cbv beta. rewrite Hw.
  apply (keeps_ends _ _ (fun _ => True)); [|split; assumption].
  apply keeps_run_steps. intros w s1 Hin [HF1 HV1].
  apply keeps_and.
  - apply keeps_run_acts; [intros; apply keeps_deser|].
    intros a k Ha Hk _. apply (HP w k Hin).
    rewrite (step_keys_view s0 s1 json (json_view_lookup json o s0 s1 HV0 HV1)).
    apply in_map_iff. exists a. auto.
  - apply keeps_view. intros j ->.
    apply ok_run_acts; [intros; apply ok_deser | apply not_eq_sym, Hjt; reflexivity].
Qed.

(** C8 (amended): [update(schema, target, json)] on a plain object [target]
    assigns [target[k]] only for keys [k] that some schema of the [extends]
    chain assigns from [json] as it is when [update] is called: a prop other
    than ['*'] whose JSON key is in [json], or, for a schema with
    ['*': true], a key of [json] that is not a member name of
    [Object.prototype] and that the schema neither lists nor uses as a JSON
    name. Every other property of [target] keeps its value, also when
    [update] throws. This holds when [json] is a primitive, [null],
    [undefined], or a plain object or array other than [target]; no JSON key
    of a prop of the chain names a member [json] inherits; no callback left
    by an earlier deserialization assigns into [target] or [json], nor
    writes a result array over them; and the [extends] chain is acyclic. *)
Theorem update_frame (fuel sid t : nat) (json : val) (cb : cbk) (s : state)
  (cls : option nat) (ps0 : list (string * val))
  (Ht : nth_error (st_heap s) t = Some (OPlain cls ps0))
  (Hjson : json_input s t json)
  (Hinh : forall ms k d ps, In ms (chain (S (length (st_schemas s))) (st_schemas s) sid) ->
          oget (ms_props ms) k = Some d -> (d = PTrue /\ ps = defaultPrimitiveProp \/ d = PSch ps) ->
          inherited s json (json_attr k ps) = false)
  (Honces : forall i r l p, nth_error (st_onces s) i = Some r -> on_fn r = FnAssign l p ->
            l <> t /\ json <> VRef l)
  (Hpars : forall q pr, nth_error (st_pars s) q = Some pr -> pa_arr pr <> t /\ json <> VRef (pa_arr pr))
  (Hwalk : walk (st_schemas s) sid <> None) :
  match update fuel (VSchema sid) (VRef t) json cb s with
  | Ok s' _ | Throw s' _ =>
      exists cls' ps', nth_error (st_heap s') t = Some (OPlain cls' ps') /\
        forall k, ~ may_assign s sid json k -> oget ps' k = oget ps0 k
  | OutOfFuel => True
  end.
Proof.
  clear Hinh.
  destruct (walk (st_schemas s) sid) as [ws|] eqn:Hw; [clear Hwalk|congruence].
  assert (Hjt : forall j, json = VRef j -> j <> t).
  { intros j ->. apply Hjson. }
  assert (Ho : exists o, json_view json o s).
  { destruct json; try (exists (OArray []); exact Logic.I).
    destruct Hjson as [_ [o [Ho _]]]. exists o. split; [exact Ho | split].
    - intros i r l' p Hr E E'. subst l'. exact (proj2 (Honces i r l p Hr E) eq_refl).
    - intros q pr Hq E. exact (proj2 (Hpars q pr Hq) (f_equal VRef (eq_sym E))). }
  destruct Ho as [o HV].
  set (FI := frame_inv t (may_assign s sid json) ps0).
  set (I := fun s' => FI s' /\ json_view json o s').
  set (J := fun s' => I s' /\ same_hs (st_heap s) (st_schemas s) s').
  assert (HF : FI s).
  { split; [exists cls, ps0; split; [exact Ht | reflexivity] | split].
    - intros i r p Hr E. exfalso. exact (proj1 (Honces i r t p Hr E) eq_refl).
    - intros q pr Hq. exact (proj1 (Hpars q pr Hq)). }
  assert (HJI : forall s', J s' -> I s') by (intros ? []; assumption).
  assert (HE : ends I (update fuel (VSchema sid) (VRef t) json cb) s).
  { unfold update.
    apply (ends_bind J I _ _ J);
      [exact HJI | apply keeps_get_self | | split; [split; [exact HF | exact HV] | split; reflexivity]].
    intros s1 s2 [_ [Hh1 _]] HJ2. cbv beta iota.
    assert (L : lookup_obj s1 (VRef t) = Some (OPlain cls ps0)) by (simpl; rewrite Hh1; exact Ht).
    rewrite L. clear s1 Hh1 L.
    apply (ends_bind J I _ _ (fun _ => True)); [exact HJI | | | exact HJ2].
    { apply keeps_and; [apply keeps_and | apply keeps_hs_ctx_new].
      - apply keeps_ctx_new.
      - apply keeps_view. intros j _. apply ok_ctx_new. }
    clear s2 HJ2. intros c s2 _ HJ2.
    apply (ends_bind J I _ _ (fun _ => True)); [exact HJI | apply keeps_ctx_get | | exact HJ2].
    clear s2 HJ2. intros cx s2 _ HJ2.
    apply (ends_bind J I _ _ (fun _ => True)); [exact HJI | | | exact HJ2].
    { apply keeps_and; [apply keeps_and | apply keeps_hs_ctx_put].
      - apply keeps_ctx_put.
      - apply keeps_view. intros j _. apply ok_ctx_put. }
    clear s2 HJ2. intros u s2 _ HJ2.
    apply (ends_bind J I _ _ (fun _ => True)); [exact HJI | | | exact HJ2].
    { apply keeps_and; [apply keeps_and | apply keeps_hs_create_cb].
      - apply keeps_create_cb; discriminate.
      - apply keeps_view. intros j _. apply ok_create_cb. discriminate. }
    clear s2 HJ2. intros lock s3 _ [[HF3 HV3] [Hh3 Hs3]].
    apply ends_then.
    - apply (deser_props_frame fuel c sid t json _ ps0 o ws s s3 Hjt HV); [congruence | | exact HF3 | exact HV3].
      intros w k Hin Hk. exact (walk_keys s sid json ws w k Hw Hin Hk).
    - intros. apply keeps_and; [apply keeps_call_cb | apply keeps_view; intros; apply ok_call_cb]. }
  unfold ends in HE. destruct (update fuel (VSchema sid) (VRef t) json cb s);
    [destruct HE as [[[cls' [ps' [H1 H2]]] _] _] | destruct HE as [[[cls' [ps' [H1 H2]]] _] _] | exact Logic.I];
    exists cls', ps'; split; assumption.
Qed.

Lemma update_frame_witness :
  json_input frame_state 0 (VRef 1) /\
  match update 1000 (VSchema 0) (VRef 0) (VRef 1) CbUser frame_state with
  | Ok s' _ | Throw s' _ =>
      exists cls' ps', nth_error (st_heap s') 0 = Some (OPlain cls' ps') /\
        forall k, ~ may_assign frame_state 0 (VRef 1) k ->
                  oget ps' k = oget [("uuid", VNum 7); ("x", VNum 1)] k
  | OutOfFuel => True
  end.
Proof.
  assert (Hj : json_input frame_state 0 (VRef 1)).
  { split; [discriminate|]. exists (OPlain None [("uuid", VNum 9)]). split; reflexivity. }
  split; [exact Hj|].
  apply (update_frame 1000 0 0 (VRef 1) CbUser frame_state None [("uuid", VNum 7); ("x", VNum 1)]).
  - reflexivity.
  - exact Hj.
  - intros ms k d ps Hms Hk Hd. simpl in Hms. destruct Hms as [<-|[]].
    simpl in Hk. destruct (String.eqb_spec k "uuid") as [->|E].
    + inversion Hk; subst d. destruct Hd as [[Hd _]|Hd]; [discriminate|].
      inversion Hd; subst ps. reflexivity.
    + discriminate.
  - intros i r l p H. destruct i; discriminate.
  - intros q pr H. destruct q; discriminate.
  - vm_compute. discriminate.
Defined.

(** ** Round trips *)

Lemma set_nth_app_last {A} (l : list A) (x y : A) : set_nth (app l [x]) (length l) y = app l [y].
Proof. induction l as [|z l IH]; simpl; [reflexivity | rewrite IH; reflexivity]. Qed.

Lemma dates_kept_refl (h : list obj) : dates_kept h h.
Proof. intros d tm H. exact H. Qed.

Lemma dates_kept_trans (h1 h2 h3 : list obj) : dates_kept h1 h2 -> dates_kept h2 h3 -> dates_kept h1 h3.
Proof. intros H1 H2 d tm H. apply H2, H1, H. Qed.

Lemma dates_kept_app (h : list obj) (o : obj) : dates_kept h (app h [o]).
Proof. intros d tm H. apply nth_error_app_last_some. exact H. Qed.

Lemma dates_kept_set (h : list obj) (t : nat) (cls : option nat) (ps : list (string * val)) (o : obj) :
  nth_error h t = Some (OPlain cls ps) -> dates_kept h (set_nth h t o).
Proof.
  intros Ht d tm H. rewrite nth_error_set_nth.
  destruct (Nat.eqb t d) eqn:E; [apply Nat.eqb_eq in E; subst; congruence | exact H].
Qed.

Lemma same_val_kept (h h' : list obj) (v w : val) : dates_kept h h' -> same_val h v w -> same_val h' v w.
Proof.
  intros Hk [E|[d1 [d2 [tm [E1 [E2 [H1 H2]]]]]]]; [left; exact E|].
  right. exists d1, d2, tm. repeat split; auto.
Qed.

Lemma rt_ok_kept (h h' : list obj) (ps : prop_schema) (v : val) : dates_kept h h' -> rt_ok h ps v -> rt_ok h' ps v.
Proof.
  intros Hk. unfold rt_ok. destruct (ps_kind_of ps); auto.
  intros [E|[d [tm [E H]]]]; [left; exact E | right; exists d, tm; auto].
Qed.

Lemma js_get_ref_same (s s' : state) (l : nat) (k : string) :
  nth_error (st_heap s) l = nth_error (st_heap s') l -> js_get s (VRef l) k = js_get s' (VRef l) k.
Proof. intros H. unfold js_get. cbn [lookup_obj]. rewrite H. reflexivity. Qed.

Lemma oget_in_keys {A} (o : list (string * A)) (k : string) : In k (okeys o) -> oget o k <> None.
Proof.
  unfold okeys. rewrite in_js_keys. induction o as [|[k' v] o IH]; simpl; [tauto|].
  intros [E|H]; destruct (String.eqb k k') eqn:Ek; try discriminate.
  - subst. rewrite String.eqb_refl in Ek. discriminate.
  - exact (IH H).
Qed.

Lemma keys_in_okeys {A} (o : list (string * A)) (k : string) (v : A) : oget o k = Some v -> In k (okeys o).
Proof.
  unfold okeys. rewrite in_js_keys. induction o as [|[k' v'] o IH]; simpl; [discriminate|].
  destruct (String.eqb k k') eqn:Ek; intros H.
  - left. symmetry. apply String.eqb_eq. exact Ek.
  - right. exact (IH H).
Qed.

Lemma ser_prop_rt (f : nat) (s : state) (h : list obj) (ps : prop_schema) (v : val) :
  rt_ok h ps v -> dates_kept h (st_heap s) ->
  exists sv, ser_prop (S f) ps v s = Ok s sv /\ ser_rel h ps v sv.
Proof.
  intros Hok Hk. destruct ps as [j idf kind]. unfold rt_ok, ser_rel in *. cbn [ps_kind_of] in *.
  destruct kind as [| | |ser des| | |]; try contradiction; cbn [ser_prop ps_kind_of].
  - exists v. cbv [bind get invariant ret]. rewrite Hok. split; [reflexivity | split; auto].
  - destruct Hok as [Hn|[d [tm [-> Hd]]]].
    + exists v. rewrite Hn. split; [reflexivity | left; auto].
    + exists (match tm with Some z => VNum z | None => VNaN end).
      cbv [bind get is_nullish]. cbn [lookup_obj]. rewrite (Hk d tm Hd).
      split; [reflexivity | right; exists d, tm; auto].
  - exists (ser v). split; [reflexivity | exact Hok].
Qed.

Lemma set_prop_last (s0 : state) (acc : list (string * val)) (a : string) (v : val) :
  set_prop (length (st_heap s0)) a v (upd_heap (fun h => app h [OPlain None acc]) s0)
  = Ok (upd_heap (fun h => app h [OPlain None (oset acc a v)]) s0) tt.
Proof.
  unfold set_prop, bind, heap_get. cbn [st_heap upd_heap]. rewrite nth_error_app_last, Nat.eqb_refl.
  unfold heap_put, modify. f_equal. destruct s0; cbn. unfold upd_heap; cbn [st_heap]. rewrite set_nth_app_last. reflexivity.
Qed.

Section SerKeys.
Variables (f : nat) (s0 : state) (ms : model_schema) (l : nat).
Hypothesis Hl : l < length (st_heap s0).
Hypothesis Hinj : forall k1 k2 d1 d2 ps1 ps2,
  oget (ms_props ms) k1 = Some d1 -> oget (ms_props ms) k2 = Some d2 ->
  prop_ps d1 = Some ps1 -> prop_ps d2 = Some ps2 -> json_attr k1 ps1 = json_attr k2 ps2 -> k1 = k2.

Lemma ser_keys_rt (ks : list string) :
  (forall k, In k ks -> exists d ps, oget (ms_props ms) k = Some d /\ prop_ps d = Some ps /\
                                     k <> "*" /\ rt_ok (st_heap s0) ps (js_get s0 (VRef l) k)) ->
  forall acc, exists acc',
    ser_keys (ser_prop (S f)) ms (VRef l) (VRef (length (st_heap s0))) ks
      (upd_heap (fun h => app h [OPlain None acc]) s0)
      = Ok (upd_heap (fun h => app h [OPlain None acc']) s0) tt /\
    (forall a, (forall k d ps, In k ks -> oget (ms_props ms) k = Some d -> prop_ps d = Some ps ->
                               json_attr k ps <> a) -> oget acc' a = oget acc a) /\
    (forall k d ps, In k ks -> oget (ms_props ms) k = Some d -> prop_ps d = Some ps ->
       exists sv, oget acc' (json_attr k ps) = Some sv /\ ser_rel (st_heap s0) ps (js_get s0 (VRef l) k) sv).
Proof.
  induction ks as [|k ks IH]; intros Hks acc.
  - exists acc. split; [reflexivity | split; [auto | intros ? ? ? []]].
  - destruct (Hks k (or_introl eq_refl)) as [d [ps [Hd [Hps [Hstar Hok]]]]].
    assert (Hks' : forall k, In k ks -> exists d ps, oget (ms_props ms) k = Some d /\ prop_ps d = Some ps /\
                                     k <> "*" /\ rt_ok (st_heap s0) ps (js_get s0 (VRef l) k))
      by (intros; apply Hks; right; assumption).
    set (sA := upd_heap (fun h => app h [OPlain None acc]) s0).
    assert (Hx : js_get sA (VRef l) k = js_get s0 (VRef l) k).
    { apply js_get_ref_same. cbn [sA upd_heap st_heap]. rewrite nth_error_app_last.
      destruct (Nat.eqb_spec l (length (st_heap s0))); [lia | reflexivity]. }
    destruct (ser_prop_rt f sA (st_heap s0) ps (js_get s0 (VRef l) k) Hok) as [sv [Hsv Hrel]];
      [apply dates_kept_app|].
    destruct (IH Hks' (oset acc (json_attr k ps) sv)) as [acc' [Hrun [Hframe Hhit]]].
    exists acc'. split; [|split].
    + cbn [ser_keys]. rewrite Hd.
      replace (String.eqb k "*") with false by (symmetry; apply String.eqb_neq; exact Hstar).
      destruct d as [| |ps0]; cbn [prop_ps] in Hps; [injection Hps as E; rewrite E | discriminate | injection Hps as E; rewrite E];
        (run (eq_refl : get sA = Ok sA sA); rewrite Hx; run Hsv; unfold set_prop_val;
         run (set_prop_last s0 acc (json_attr k ps) sv); exact Hrun).
    + intros a Ha. rewrite Hframe by (intros ? ? ? ? Hd1 Hps1; eapply Ha; [right; eassumption | exact Hd1 | exact Hps1]).
      rewrite oget_oset. destruct (String.eqb a (json_attr k ps)) eqn:E; [|reflexivity].
      apply String.eqb_eq in E. exfalso. exact (Ha k d ps (or_introl eq_refl) Hd Hps (eq_sym E)).
    + intros k' d' ps' [<-|Hin] Hd' Hps'; [|exact (Hhit k' d' ps' Hin Hd' Hps')].
      rewrite Hd in Hd'. injection Hd' as <-. rewrite Hps in Hps'. injection Hps' as <-.
      destruct (in_dec string_dec k ks) as [Hin|Hnin]; [exact (Hhit k d ps Hin Hd Hps)|].
      exists sv. split; [|exact Hrel].
      rewrite Hframe; [rewrite oget_oset, String.eqb_refl; reflexivity|].
      intros k2 d2 ps2 Hin2 Hd2 Hps2 E. apply Hnin.
      rewrite (Hinj k2 k d2 d ps2 ps Hd2 Hd Hps2 Hps E) in Hin2. exact Hin2.
Qed.

End SerKeys.

Lemma schema_chain_cons (n : nat) (sc : list model_schema) (sid : nat) (mss : list model_schema) :
  schema_chain n sc sid = Some mss ->
  exists n' ms r, n = S n' /\ nth_error sc sid = Some ms /\ mss = ms :: r /\
    match ms_extends ms with
    | None => r = []
    | Some p => schema_chain n' sc p = Some r
    end.
Proof.
  destruct n as [|n]; simpl; [discriminate|].
  destruct (nth_error sc sid) as [ms|]; [|discriminate].
  destruct (ms_extends ms) as [p|] eqn:Hext.
  - destruct (schema_chain n sc p) as [r|] eqn:E; [|discriminate]. intros H. injection H as <-.
    exists n, ms, r. rewrite Hext. auto.
  - intros H. injection H as <-. exists n, ms, []. rewrite Hext. auto.
Qed.

Lemma json_names_distinct_tail (ms : model_schema) (r : list model_schema) :
  json_names_distinct (ms :: r) -> json_names_distinct r.
Proof.
  intros H i1 i2 ms1 ms2 k1 k2 d1 d2 ps1 ps2 H1 H2 Hd1 Hd2 P1 P2 E.
  destruct (H (S i1) (S i2) ms1 ms2 k1 k2 d1 d2 ps1 ps2 H1 H2 Hd1 Hd2 P1 P2 E) as [Ei Ek].
  split; [lia | exact Ek].
Qed.

(** [serializeWithSchema] along an [extends] chain: one new plain object,
    holding at the JSON name of each prop of the chain the value the prop
    serializes, and nothing else. *)
Lemma ser_chain_rt (s0 : state) (l : nat) (cls : option nat) (xps : list (string * val)) :
  nth_error (st_heap s0) l = Some (OPlain cls xps) ->
  forall n sid mss F, schema_chain n (st_schemas s0) sid = Some mss -> length mss < F ->
  (forall ms k d, In ms mss -> oget (ms_props ms) k = Some d ->
     k <> "*" /\ exists ps, prop_ps d = Some ps /\ rt_ok (st_heap s0) ps (js_get s0 (VRef l) k)) ->
  json_names_distinct mss ->
  exists acc,
    ser_with_schema F sid (VRef l) s0
      = Ok (upd_heap (fun h => app h [OPlain None acc]) s0) (VRef (length (st_heap s0))) /\
    (forall a, (forall ms k d ps, In ms mss -> oget (ms_props ms) k = Some d -> prop_ps d = Some ps ->
                                  json_attr k ps <> a) -> oget acc a = None) /\
    (forall ms k d ps, In ms mss -> oget (ms_props ms) k = Some d -> prop_ps d = Some ps ->
       exists sv, oget acc (json_attr k ps) = Some sv /\ ser_rel (st_heap s0) ps (js_get s0 (VRef l) k) sv).
Proof.
  intros Hx. assert (Hl : l < length (st_heap s0)) by (apply nth_error_Some; congruence).
  induction n as [|n IH]; intros sid mss F Hch HF Hkinds Hdist.
  { discriminate. }
  destruct (schema_chain_cons _ _ _ _ Hch) as [n' [ms [r [En [Hms [-> Hr]]]]]].
  injection En as <-.
  destruct F as [|[|F']]; cbn [List.length] in HF; [lia| |].
  { destruct (ms_extends ms); [|subst r]; cbn [List.length] in HF; lia. }
  assert (Hinj : forall k1 k2 d1 d2 ps1 ps2,
    oget (ms_props ms) k1 = Some d1 -> oget (ms_props ms) k2 = Some d2 ->
    prop_ps d1 = Some ps1 -> prop_ps d2 = Some ps2 -> json_attr k1 ps1 = json_attr k2 ps2 -> k1 = k2).
  { intros k1 k2 d1 d2 ps1 ps2 H1 H2 P1 P2 E.
    exact (proj2 (Hdist 0 0 ms ms k1 k2 d1 d2 ps1 ps2 eq_refl eq_refl H1 H2 P1 P2 E)). }
  assert (Hks : forall k, In k (okeys (ms_props ms)) -> exists d ps, oget (ms_props ms) k = Some d /\
                  prop_ps d = Some ps /\ k <> "*" /\ rt_ok (st_heap s0) ps (js_get s0 (VRef l) k)).
  { intros k Hin. pose proof (oget_in_keys _ _ Hin) as Hk.
    destruct (oget (ms_props ms) k) as [d|] eqn:Hd; [|congruence].
    destruct (Hkinds ms k d (or_introl eq_refl) Hd) as [Hs [ps [Hps Hok]]]. exists d, ps. auto. }
  (* the props of [ms] have JSON names no schema of [r] uses *)
  assert (Hsep : forall ms2 k2 d2 ps2 k1 d1 ps1, In ms2 r ->
            oget (ms_props ms2) k2 = Some d2 -> prop_ps d2 = Some ps2 ->
            oget (ms_props ms) k1 = Some d1 -> prop_ps d1 = Some ps1 -> json_attr k1 ps1 <> json_attr k2 ps2).
  { intros ms2 k2 d2 ps2 k1 d1 ps1 Hin H2 P2 H1 P1 E. apply In_nth_error in Hin as [j Hj].
    destruct (Hdist 0 (S j) ms ms2 k1 k2 d1 d2 ps1 ps2 eq_refl Hj H1 H2 P1 P2 E) as [Ei _]. discriminate. }
  assert (Hg : schema_get sid s0 = Ok s0 ms) by (unfold schema_get; rewrite Hms; reflexivity).
  destruct (ms_extends ms) as [p|] eqn:Hext.
  - (* the parent's object, then the props of [ms] *)
    destruct (IH p r (S F') Hr) as [accp [Erec [Hfrp Hhitp]]].
    { cbn [List.length] in HF. lia. }
    { intros ms2 k d Hin Hd. apply (Hkinds ms2 k d (or_intror Hin) Hd). }
    { exact (json_names_distinct_tail _ _ Hdist). }
    destruct (ser_keys_rt F' s0 ms l Hl Hinj (okeys (ms_props ms)) Hks accp) as [acc [Hrun [Hfr Hhit]]].
    exists acc. split; [|split].
    + cbn [ser_with_schema]. run Hg.
      run (eq_refl : invariant (is_object (VRef l)) "Expected object" s0 = Ok s0 tt).
      rewrite Hext. run Erec. run Hrun. reflexivity.
    + intros a Ha. rewrite Hfr.
      * apply Hfrp. intros ms2 k d ps Hin. apply Ha. right. exact Hin.
      * intros k d ps _. apply Ha. left. reflexivity.
    + intros ms2 k d ps [<-|Hin] Hd Hps.
      * apply (Hhit k d ps); [eapply keys_in_okeys; exact Hd | exact Hd | exact Hps].
      * destruct (Hhitp ms2 k d ps Hin Hd Hps) as [sv [Hsv Hrel]]. exists sv. split; [|exact Hrel].
        rewrite Hfr; [exact Hsv|]. intros k1 d1 ps1 _ H1 P1. exact (Hsep ms2 k d ps k1 d1 ps1 Hin Hd Hps H1 P1).
  - subst r.
    destruct (ser_keys_rt F' s0 ms l Hl Hinj (okeys (ms_props ms)) Hks []) as [acc [Hrun [Hfr Hhit]]].
    exists acc. split; [|split].
    + cbn [ser_with_schema]. run Hg.
      run (eq_refl : invariant (is_object (VRef l)) "Expected object" s0 = Ok s0 tt).
      rewrite Hext.
      run (eq_refl : (l' <- alloc (OPlain None []) ;; ret (VRef l')) s0
                     = Ok (upd_heap (fun h => app h [OPlain None []]) s0) (VRef (length (st_heap s0)))).
      run Hrun. reflexivity.
    + intros a Ha. rewrite Hfr; [reflexivity|]. intros k d ps _. apply Ha. left. reflexivity.
    + intros ms2 k d ps [<-|[]] Hd Hps.
      apply (Hhit k d ps); [eapply keys_in_okeys; exact Hd | exact Hd | exact Hps].
Qed.

Lemma serialize_rt (f sid l n : nat) (s0 : state) (mss : list model_schema) (cls : option nat)
  (xps : list (string * val)) :
  schema_chain n (st_schemas s0) sid = Some mss -> length mss <= S f ->
  nth_error (st_heap s0) l = Some (OPlain cls xps) ->
  (forall ms k d, In ms mss -> oget (ms_props ms) k = Some d ->
     k <> "*" /\ exists ps, prop_ps d = Some ps /\ rt_ok (st_heap s0) ps (js_get s0 (VRef l) k)) ->
  json_names_distinct mss ->
  exists acc,
    serialize_ (S (S (S f))) (VSchema sid) (VRef l) s0
      = Ok (upd_heap (fun h => app h [OPlain None acc]) s0) (VRef (length (st_heap s0))) /\
    (forall a, (forall ms k d ps, In ms mss -> oget (ms_props ms) k = Some d -> prop_ps d = Some ps ->
                                  json_attr k ps <> a) -> oget acc a = None) /\
    (forall ms k d ps, In ms mss -> oget (ms_props ms) k = Some d -> prop_ps d = Some ps ->
       exists sv, oget acc (json_attr k ps) = Some sv /\ ser_rel (st_heap s0) ps (js_get s0 (VRef l) k) sv).
Proof.
  intros Hch Hlen Hx Hkinds Hdist.
  destruct (ser_chain_rt s0 l cls xps Hx n sid mss (S (S f)) Hch ltac:(lia) Hkinds Hdist)
    as [acc [Eser [Hfr Hhit]]].
  exists acc. split; [|split; assumption].
  cbn [serialize_]. run (eq_refl : get s0 = Ok s0 s0).
  assert (Ha : array_elems s0 (VRef l) = None) by (unfold array_elems; cbn [lookup_obj]; rewrite Hx; reflexivity).
  rewrite Ha. cbn [truthy negb invariant].
  run (eq_refl : ret tt s0 = Ok s0 tt). exact Eser.
Qed.

(** The [once] wrapper of a prop of the root Context fires: it assigns the
    target and leaves [pendingCallbacks] at 1, the lock still pending. *)
Lemma call_once_assign (f : nat) (s : state) (c n sid t : nat) (k : string) (cls0 : option nat)
  (tps : list (string * val)) (w : val) :
  nth_error (st_ctxs s) c = Some (with_pc 2 (rt_ctx sid c t)) ->
  nth_error (st_onces s) n = Some (Once c (FnAssign t k) false) ->
  nth_error (st_heap s) t = Some (OPlain cls0 tps) ->
  call_cb (S f) (CbOnce n) None w s =
    Ok (upd_ctxs (fun l => set_nth l c (rt_ctx sid c t))
          (upd_heap (fun h => set_nth h t (OPlain cls0 (oset tps k w)))
             (upd_onces (fun l => set_nth l n (Once c (FnAssign t k) true)) s))) tt.
Proof.
  intros Hc Ho Ht. cbn [call_cb].
  assert (H1 : once_get n s = Ok s (Once c (FnAssign t k) false)) by (unfold once_get; rewrite Ho; reflexivity).
  run H1. cbn [on_fired on_ctx on_fn].
  set (sA := upd_onces (fun l => set_nth l n (Once c (FnAssign t k) true)) s).
  run (eq_refl : once_put n (Once c (FnAssign t k) true) s = Ok sA tt).
  assert (H2 : ctx_get c sA = Ok sA (with_pc 2 (rt_ctx sid c t))) by (unfold ctx_get; cbn; rewrite Hc; reflexivity).
  run H2. cbn [cx_hasError with_pc rt_ctx].
  set (sB := upd_heap (fun h => set_nth h t (OPlain cls0 (oset tps k w))) sA).
  assert (H3 : run_fn (FnAssign t k) w sA = Ok sB tt)
    by (unfold run_fn, set_prop, bind, heap_get; cbn; rewrite Ht; reflexivity).
  run H3.
  assert (H4 : ctx_get c sB = Ok sB (with_pc 2 (rt_ctx sid c t))) by (unfold ctx_get; cbn; rewrite Hc; reflexivity).
  run H4. reflexivity.
Qed.

Section RtInv.
Variables (c L0 sid t : nat) (cls0 : option nat) (ev0 : list (option jserr * val)) (H1 : list obj)
  (xv : string -> val).

Lemma rt_inv_post (s sP : state) (D : list string) (k : string) (w : val) (tps : list (string * val))
  (X : context) :
  nth_error (st_ctxs s) c = Some (rt_ctx sid c t) ->
  nth_error (st_onces s) L0 = Some (Once c FnNoop false) ->
  st_events s = ev0 ->
  (forall i, i < t -> nth_error (st_heap s) i = nth_error H1 i) ->
  nth_error (st_heap s) t = Some (OPlain cls0 tps) ->
  (forall k, (In k D -> exists w, oget tps k = Some w /\ same_val (st_heap s) (xv k) w) /\
             (~ In k D -> oget tps k = None)) ->
  st_ctxs sP = set_nth (st_ctxs s) c X ->
  st_onces sP = app (st_onces s) [Once c (FnAssign t k) false] ->
  st_events sP = st_events s ->
  (forall i, i < length (st_heap s) -> nth_error (st_heap sP) i = nth_error (st_heap s) i) ->
  dates_kept (st_heap s) (st_heap sP) ->
  same_val (st_heap sP) (xv k) w ->
  rt_inv c L0 sid t cls0 ev0 H1 xv (k :: D)
    (upd_ctxs (fun l => set_nth l c (rt_ctx sid c t))
       (upd_heap (fun h => set_nth h t (OPlain cls0 (oset tps k w)))
          (upd_onces (fun l => set_nth l (length (st_onces s)) (Once c (FnAssign t k) true)) sP))).
Proof.
  intros Hc Ho Hev Hpre Ht Htps HcP HoP HevP HhP HdP Hw.
  assert (HtP : nth_error (st_heap sP) t = Some (OPlain cls0 tps))
    by (rewrite HhP; [exact Ht | apply nth_error_Some; congruence]).
  assert (Hk : dates_kept (st_heap sP) (set_nth (st_heap sP) t (OPlain cls0 (oset tps k w))))
    by (eapply dates_kept_set; exact HtP).
  split; [|split; [|split; [|split]]]; cbn [upd_ctxs upd_heap upd_onces st_ctxs st_onces st_heap st_events].
  - rewrite nth_error_set_nth, Nat.eqb_refl, HcP, nth_error_set_nth, Nat.eqb_refl, Hc. reflexivity.
  - rewrite nth_error_set_nth_other, HoP; [apply nth_error_app_last_some; exact Ho|].
    assert (L0 < length (st_onces s)) by (apply nth_error_Some; congruence). lia.
  - rewrite HevP. exact Hev.
  - intros i Hi. rewrite nth_error_set_nth_other by lia. rewrite HhP; [apply Hpre; exact Hi|].
    assert (t < length (st_heap s)) by (apply nth_error_Some; congruence). lia.
  - exists (oset tps k w). split.
    + rewrite nth_error_set_nth, Nat.eqb_refl, HtP. reflexivity.
    + intros k'. rewrite oget_oset. destruct (String.eqb k' k) eqn:E.
      * apply String.eqb_eq in E. subst k'. split; [intros _; exists w; split; [reflexivity|]|].
        -- eapply same_val_kept; [exact Hk | exact Hw].
        -- intros Hn. exfalso. apply Hn. left. reflexivity.
      * apply String.eqb_neq in E. destruct (Htps k') as [Hin Hout]. split.
        -- intros [Ek|Hin']; [congruence|]. destruct (Hin Hin') as [w' [Hw' Hs]].
           exists w'. split; [exact Hw'|]. eapply same_val_kept; [|exact Hs].
           eapply dates_kept_trans; [exact HdP | exact Hk].
        -- intros Hn. apply Hout. intros Hin'. apply Hn. right. exact Hin'.
Qed.

End RtInv.

(** One prop of the JSON read into the target. *)
Lemma rt_step (f c L0 sid t : nat) (cls0 : option nat) (ev0 : list (option jserr * val)) (H1 : list obj)
  (xv : string -> val) (D : list string) (s : state) (k : string) (ps : prop_schema) (sv : val)
  (rest : list action) :
  t = length H1 ->
  rt_inv c L0 sid t cls0 ev0 H1 xv D s ->
  ser_rel H1 ps (xv k) sv ->
  exists s',
    run_acts (fun ps jv cb old => deser_prop (S (S f)) ps jv cb c old) c t (AInvoke k ps sv :: rest) s
      = run_acts (fun ps jv cb old => deser_prop (S (S f)) ps jv cb c old) c t rest s' /\
    rt_inv c L0 sid t cls0 ev0 H1 xv (k :: D) s'.
Proof.
  intros Hlen [Hc [Ho [Hev [Hpre [tps [Ht Htps]]]]]] Hrel.
  cbn [run_acts].
  assert (E1 : ctx_get c s = Ok s (rt_ctx sid c t)) by (unfold ctx_get; rewrite Hc; reflexivity).
  run E1. change (cx_root (rt_ctx sid c t)) with c.
  set (X := with_pc (cx_pc (rt_ctx sid c t) + 1) (rt_ctx sid c t)).
  set (n := length (st_onces s)).
  set (s2 := upd_onces (fun l => app l [Once c (FnAssign t k) false]) (upd_ctxs (fun l => set_nth l c X) s)).
  assert (E2 : create_cb c (FnAssign t k) s = Ok s2 (CbOnce n)) by (unfold create_cb; run E1; reflexivity).
  run E2. run (eq_refl : get s2 = Ok s2 s2).
  assert (Hc2 : nth_error (st_ctxs s2) c = Some (with_pc 2 (rt_ctx sid c t)))
    by (cbn; rewrite nth_error_set_nth, Nat.eqb_refl, Hc; reflexivity).
  assert (Ho2 : nth_error (st_onces s2) n = Some (Once c (FnAssign t k) false))
    by (cbn; rewrite nth_error_app_last, Nat.eqb_refl; reflexivity).
  assert (Ht2 : nth_error (st_heap s2) t = Some (OPlain cls0 tps)) by exact Ht.
  assert (Hpost : forall sP w,
    st_ctxs sP = st_ctxs s2 -> st_onces sP = st_onces s2 -> st_events sP = st_events s2 ->
    (forall i, i < length (st_heap s) -> nth_error (st_heap sP) i = nth_error (st_heap s) i) ->
    dates_kept (st_heap s) (st_heap sP) -> same_val (st_heap sP) (xv k) w ->
    rt_inv c L0 sid t cls0 ev0 H1 xv (k :: D)
      (upd_ctxs (fun l => set_nth l c (rt_ctx sid c t))
         (upd_heap (fun h => set_nth h t (OPlain cls0 (oset tps k w)))
            (upd_onces (fun l => set_nth l n (Once c (FnAssign t k) true)) sP)))).
  { intros sP w E1' E2' E3' E4 E5 E6.
    apply (rt_inv_post c L0 sid t cls0 ev0 H1 xv s sP D k w tps X); auto. }
  set (old := js_get s2 (VRef t) k).
  destruct ps as [j idf kind]. unfold ser_rel in Hrel. cbn [ps_kind_of] in Hrel.
  destruct kind as [| | |ser des| | |]; try contradiction.
  - (* primitive *)
    destruct Hrel as [-> Hp].
    assert (E3 : deser_prop (S (S f)) (PS j idf KPrimitive) (xv k) (CbOnce n) c old s2 =
                 call_cb (S f) (CbOnce n) None (xv k) s2)
      by (cbn [deser_prop ps_kind_of]; run (eq_refl : get s2 = Ok s2 s2); rewrite Hp; reflexivity).
    rewrite (call_once_assign f s2 c n sid t k cls0 tps (xv k) Hc2 Ho2 Ht2) in E3.
    run E3. eexists; split; [reflexivity|].
    apply Hpost; auto using dates_kept_refl. left. reflexivity.
  - (* date *)
    destruct Hrel as [[Hn ->]|[d [tm [Ed [Hd ->]]]]].
    + assert (E3 : deser_prop (S (S f)) (PS j idf KDate) (xv k) (CbOnce n) c old s2 =
                   call_cb (S f) (CbOnce n) None (xv k) s2)
        by (cbn [deser_prop ps_kind_of]; rewrite Hn; reflexivity).
      rewrite (call_once_assign f s2 c n sid t k cls0 tps (xv k) Hc2 Ho2 Ht2) in E3.
      run E3. eexists; split; [reflexivity|].
      apply Hpost; auto using dates_kept_refl. left. reflexivity.
    + set (sP := upd_heap (fun h => app h [ODate tm]) s2).
      assert (HtP : nth_error (st_heap sP) t = Some (OPlain cls0 tps))
        by (apply nth_error_app_last_some; exact Ht).
      assert (E3 : deser_prop (S (S f)) (PS j idf KDate) (match tm with Some z => VNum z | None => VNaN end)
                     (CbOnce n) c old s2 =
                   call_cb (S f) (CbOnce n) None (VRef (length (st_heap s))) sP)
        by (destruct tm; reflexivity).
      rewrite (call_once_assign f sP c n sid t k cls0 tps _ Hc2 Ho2 HtP) in E3.
      run E3. eexists; split; [reflexivity|].
      apply Hpost; [reflexivity | reflexivity | reflexivity | | apply dates_kept_app |].
      * intros i Hi. change (st_heap sP) with (app (st_heap s) [ODate tm]). rewrite nth_error_app_last.
        destruct (Nat.eqb_spec i (length (st_heap s))); [lia | reflexivity].
      * right. exists d, (length (st_heap s)), tm. split; [exact Ed | split; [reflexivity|]]. split.
        -- assert (Hdl : d < t) by (subst t; apply nth_error_Some; congruence).
           assert (Htl : t < length (st_heap s)) by (apply nth_error_Some; congruence).
           change (st_heap sP) with (app (st_heap s) [ODate tm]). rewrite nth_error_app_last.
           destruct (Nat.eqb_spec d (length (st_heap s))); [lia|]. rewrite Hpre by exact Hdl. exact Hd.
        -- change (st_heap sP) with (app (st_heap s) [ODate tm]). rewrite nth_error_app_last, Nat.eqb_refl.
           reflexivity.
  - (* custom *)
    assert (E3 : deser_prop (S (S f)) (PS j idf (KCustom ser des)) sv (CbOnce n) c old s2 =
                 call_cb (S f) (CbOnce n) None (des sv) s2) by reflexivity.
    rewrite (call_once_assign f s2 c n sid t k cls0 tps (des sv) Hc2 Ho2 Ht2) in E3.
    run E3. eexists; split; [reflexivity|].
    apply Hpost; auto using dates_kept_refl. left. symmetry. exact Hrel.
Qed.

Lemma rt_steps (f c L0 sid t r : nat) (cls0 : option nat) (ev0 : list (option jserr * val)) (H1 : list obj)
  (xv : string -> val) (acc : list (string * val)) (ws : list wstep) :
  t = length H1 -> r < t -> nth_error H1 r = Some (OPlain None acc) ->
  Forall (fun w => exists k ps sv, w = WProp k ps /\ oget acc (json_attr k ps) = Some sv /\
                                   ser_rel H1 ps (xv k) sv) ws ->
  forall D s, rt_inv c L0 sid t cls0 ev0 H1 xv D s ->
  exists s' D',
    run_steps (fun ps jv cb old => deser_prop (S (S f)) ps jv cb c old) c t (VRef r) ws s = Ok s' tt /\
    rt_inv c L0 sid t cls0 ev0 H1 xv D' s' /\
    (forall k, In k D' <-> In k D \/ exists ps, In (WProp k ps) ws).
Proof.
  intros Hlen Hrt Hr Hws. induction Hws as [|w ws [k [ps [sv [-> [Hsv Hrel]]]]] _ IH]; intros D s Hinv.
  - exists s, D. split; [reflexivity | split; [exact Hinv|]]. intros k. split; [left; assumption|].
    intros [H|[? []]]; exact H.
  - assert (Hacts : step_acts s (VRef r) (WProp k ps) = [AInvoke k ps sv]).
    { destruct Hinv as [_ [_ [_ [Hpre _]]]]. cbn [step_acts]. unfold invoke_acts, js_in, js_get.
      cbn [lookup_obj]. rewrite (Hpre r Hrt), Hr. unfold ohas. rewrite Hsv. reflexivity. }
    destruct (rt_step f c L0 sid t cls0 ev0 H1 xv D s k ps sv [] Hlen Hinv Hrel) as [s1 [E1 Hinv1]].
    destruct (IH (k :: D) s1 Hinv1) as [s' [D' [E [Hinv' HD']]]].
    exists s', D'. split; [|split; [exact Hinv'|]].
    + cbn [run_steps]. run (eq_refl : get s = Ok s s). rewrite Hacts. run E1. exact E.
    + intros k'. rewrite HD'. split.
      * intros [[<-|Hin]|[ps' Hin]]; [right; exists ps; left; reflexivity | left; exact Hin |].
        right. exists ps'. right. exact Hin.
      * intros [Hin|[ps' [E'|Hin]]]; [left; right; exact Hin| |].
        -- injection E' as -> _. left. left. reflexivity.
        -- right. exists ps'. exact Hin.
Qed.

Lemma ser_rel_kept (h h' : list obj) (ps : prop_schema) (v sv : val) :
  dates_kept h h' -> ser_rel h ps v sv -> ser_rel h' ps v sv.
Proof.
  intros Hk. unfold ser_rel. destruct (ps_kind_of ps); auto.
  intros [E|[d [tm [E [H E']]]]]; [left; exact E | right; exists d, tm; auto].
Qed.

(** The walk along an [extends] chain: the steps of each schema, parents first. *)
Lemma walk_of_chain (n : nat) (sc : list model_schema) (sid : nat) (mss : list model_schema) :
  schema_chain n sc sid = Some mss -> props_steps n sc sid = Some (List.concat (map own_steps (rev mss))).
Proof.
  revert sid mss. induction n as [|n IH]; intros sid mss; [discriminate|].
  cbn [schema_chain props_steps]. destruct (nth_error sc sid) as [ms|]; [|discriminate].
  destruct (ms_extends ms) as [p|].
  - destruct (schema_chain n sc p) as [r|] eqn:E; [|discriminate]. intros H. injection H as <-.
    rewrite (IH p r E). cbn [rev]. rewrite map_app, concat_app. cbn [map List.concat]. rewrite app_nil_r. reflexivity.
  - intros H. injection H as <-. cbn. rewrite app_nil_r. reflexivity.
Qed.

Lemma in_chain_steps (mss : list model_schema) (w : wstep) :
  In w (List.concat (map own_steps (rev mss))) <-> exists ms, In ms mss /\ In w (own_steps ms).
Proof.
  rewrite in_concat. split.
  - intros [x [Hx Hw]]. apply in_map_iff in Hx. destruct Hx as [ms [<- Hms]].
    exists ms. split; [apply in_rev; exact Hms | exact Hw].
  - intros [ms [Hms Hw]]. exists (own_steps ms). split; [|exact Hw].
    apply in_map. apply in_rev. rewrite rev_involutive. exact Hms.
Qed.

Lemma own_steps_in (ms : model_schema) (w : wstep) :
  (forall k d, oget (ms_props ms) k = Some d -> k <> "*") ->
  In w (own_steps ms) -> exists k d ps, oget (ms_props ms) k = Some d /\ prop_ps d = Some ps /\ w = WProp k ps.
Proof.
  intros Hstar Hw. unfold own_steps in Hw. apply in_flat_map in Hw. destruct Hw as [k [_ Hw]].
  unfold prop_step in Hw. destruct (oget (ms_props ms) k) as [d|] eqn:Hd; [|destruct Hw].
  replace (String.eqb k "*") with false in Hw by (symmetry; apply String.eqb_neq; exact (Hstar k d Hd)).
  exists k, d. destruct d as [| |ps]; cbn in Hw; (destruct Hw as [<-|[]] || destruct Hw);
    eexists; (split; [exact Hd | split; reflexivity]).
Qed.

Lemma own_steps_has (ms : model_schema) (k : string) (d : propdef) (ps : prop_schema) :
  oget (ms_props ms) k = Some d -> prop_ps d = Some ps -> k <> "*" -> In (WProp k ps) (own_steps ms).
Proof.
  intros Hd Hps Hstar. unfold own_steps. apply in_flat_map. exists k. split; [eapply keys_in_okeys; exact Hd|].
  unfold prop_step. rewrite Hd.
  replace (String.eqb k "*") with false by (symmetry; apply String.eqb_neq; exact Hstar).
  destruct d as [| |ps0]; cbn [prop_ps] in Hps; injection Hps as <- || discriminate; left; reflexivity.
Qed.

(** The lock of the root Context fires last: the Context settles and the
    user's callback gets the target. *)
Lemma call_lock (f c L0 sid t : nat) (cls0 : option nat) (ev0 : list (option jserr * val)) (H1 : list obj)
  (xv : string -> val) (D : list string) (s : state) :
  rt_inv c L0 sid t cls0 ev0 H1 xv D s ->
  call_cb (S (S f)) (CbOnce L0) None VUndef s =
    Ok (upd_events (fun l => app l [(None, VRef t)])
          (upd_ctxs (fun l => set_nth l c (with_pc (cx_pc (rt_ctx sid c t) - 1) (rt_ctx sid c t)))
             (upd_onces (fun l => set_nth l L0 (Once c FnNoop true)) s))) tt.
Proof.
  intros [Hc [Ho _]]. cbn [call_cb].
  assert (E1 : once_get L0 s = Ok s (Once c FnNoop false)) by (unfold once_get; rewrite Ho; reflexivity).
  run E1. cbn [on_fired on_ctx on_fn].
  set (sA := upd_onces (fun l => set_nth l L0 (Once c FnNoop true)) s).
  run (eq_refl : once_put L0 (Once c FnNoop true) s = Ok sA tt).
  assert (E2 : ctx_get c sA = Ok sA (rt_ctx sid c t)) by (unfold ctx_get; cbn; rewrite Hc; reflexivity).
  run E2. cbn [cx_hasError rt_ctx].
  run (eq_refl : run_fn FnNoop VUndef sA = Ok sA tt).
  run E2. reflexivity.
Qed.

Lemma run_factory_ok (fa : factory) (s : state) :
  run_factory fa s = Ok (upd_heap (fun h => app h [OPlain (factory_cls fa) []]) (bump_factory_calls s))
                        (length (st_heap s)).
Proof. destruct fa; reflexivity. Qed.

Lemma deserialize_rt (f sid : nat) (s0 : state) (mss : list model_schema) (acc : list (string * val))
  (xv : string -> val) :
  schema_chain (S (length (st_schemas s0))) (st_schemas s0) sid = Some mss ->
  (forall ms k d, In ms mss -> oget (ms_props ms) k = Some d -> k <> "*" /\ exists ps, prop_ps d = Some ps) ->
  (forall ms k d ps, In ms mss -> oget (ms_props ms) k = Some d -> prop_ps d = Some ps ->
     exists sv, oget acc (json_attr k ps) = Some sv /\ ser_rel (st_heap s0) ps (xv k) sv) ->
  exists s' t cls0 tps,
    deserialize (S (S (S (S f)))) (VSchema sid) (VRef (length (st_heap s0))) CbUser
      (upd_heap (fun h => app h [OPlain None acc]) s0) = Ok s' (VRef t) /\
    st_events s' = app (st_events s0) [(None, VRef t)] /\
    t = length (app (st_heap s0) [OPlain None acc]) /\
    (forall i, i < t -> nth_error (st_heap s') i = nth_error (app (st_heap s0) [OPlain None acc]) i) /\
    nth_error (st_heap s') t = Some (OPlain cls0 tps) /\
    (forall k, ((exists ms, In ms mss /\ oget (ms_props ms) k <> None) ->
                exists w, oget tps k = Some w /\ same_val (st_heap s') (xv k) w) /\
               ((forall ms, In ms mss -> oget (ms_props ms) k = None) -> oget tps k = None)).
Proof.
  intros Hch Hnof Hsv.
  destruct (schema_chain_cons _ _ _ _ Hch) as [n' [ms [r [_ [Hms [Emss _]]]]]].
  remember (app (st_heap s0) [OPlain None acc]) as H1 eqn:EH1.
  remember (upd_heap (fun h => app h [OPlain None acc]) s0) as s1 eqn:Es1.
  assert (Hh1 : st_heap s1 = H1) by (subst; reflexivity).
  assert (Hr : nth_error H1 (length (st_heap s0)) = Some (OPlain None acc))
    by (subst H1; rewrite nth_error_app_last, Nat.eqb_refl; reflexivity).
  unfold deserialize. run (eq_refl : get s1 = Ok s1 s1). cbn [getDefaultModelSchema truthy negb].
  assert (Ha : array_elems s1 (VRef (length (st_heap s0))) = None)
    by (unfold array_elems; cbn [lookup_obj]; rewrite Hh1, Hr; reflexivity).
  rewrite Ha. cbn [deser_obj is_nullish].
  assert (Hs1 : st_schemas s1 = st_schemas s0) by (subst; reflexivity).
  assert (Hev1 : st_events s1 = st_events s0) by (subst; reflexivity).
  set (c := length (st_ctxs s1)).
  set (cx0 := Ctx None true 0 0 CbUser VNull false sid c [] []).
  set (sA := upd_ctxs (fun l => app l [cx0]) s1).
  run (eq_refl : ctx_new None sid CbUser s1 = Ok sA c).
  assert (Eg : schema_get sid sA = Ok sA ms)
    by (unfold schema_get; change (st_schemas sA) with (st_schemas s1); rewrite Hs1, Hms; reflexivity).
  run Eg. run (run_factory_ok (ms_factory ms) sA).
  set (t := length (st_heap sA)).
  set (cls0 := factory_cls (ms_factory ms)).
  set (sB := upd_heap (fun h => app h [OPlain cls0 []]) (bump_factory_calls sA)).
  assert (Eg2 : ctx_get c sB = Ok sB cx0).
  { unfold ctx_get. change (st_ctxs sB) with (app (st_ctxs s1) [cx0]).
    rewrite nth_error_app_last. unfold c. rewrite Nat.eqb_refl. reflexivity. }
  run Eg2.
  set (sC := upd_ctxs (fun l => set_nth l c (with_target (VRef t) cx0)) sB).
  run (eq_refl : ctx_put c (with_target (VRef t) cx0) sB = Ok sC tt).
  set (L0 := length (st_onces s1)).
  set (sE := upd_onces (fun l => app l [Once c FnNoop false])
               (upd_ctxs (fun l => set_nth l c (with_pc (cx_pc (with_target (VRef t) cx0) + 1)
                                                     (with_target (VRef t) cx0))) sC)).
  assert (Hc : nth_error (st_ctxs sC) c = Some (with_target (VRef t) cx0)).
  { change (st_ctxs sC) with (set_nth (app (st_ctxs s1) [cx0]) c (with_target (VRef t) cx0)).
    rewrite nth_error_set_nth, Nat.eqb_refl, nth_error_app_last. unfold c. rewrite Nat.eqb_refl. reflexivity. }
  assert (Ecb : create_cb c FnNoop sC = Ok sE (CbOnce L0)).
  { unfold create_cb. assert (E : ctx_get c sC = Ok sC (with_target (VRef t) cx0))
      by (unfold ctx_get; rewrite Hc; reflexivity).
    run E. reflexivity. }
  run Ecb.
  assert (Hlen : t = length H1)
    by (unfold t; change (st_heap sA) with (st_heap s1); rewrite Hh1; reflexivity).
  assert (Hrt : length (st_heap s0) < t) by (rewrite Hlen; subst H1; rewrite length_app; cbn; lia).
  assert (Hinv0 : rt_inv c L0 sid t cls0 (st_events s0) H1 xv [] sE).
  { split; [|split; [|split; [|split]]].
    - change (st_ctxs sE) with (set_nth (st_ctxs sC) c (with_pc (cx_pc (with_target (VRef t) cx0) + 1)
                                                           (with_target (VRef t) cx0))).
      rewrite nth_error_set_nth, Nat.eqb_refl, Hc. reflexivity.
    - change (st_onces sE) with (app (st_onces s1) [Once c FnNoop false]).
      rewrite nth_error_app_last. unfold L0. rewrite Nat.eqb_refl. reflexivity.
    - change (st_events sE) with (st_events s1). exact Hev1.
    - intros i Hi. change (st_heap sE) with (app (st_heap s1) [OPlain cls0 []]).
      rewrite nth_error_app_last. destruct (Nat.eqb_spec i (length (st_heap s1))) as [E|E].
      + exfalso. unfold t in Hi. change (st_heap sA) with (st_heap s1) in Hi. lia.
      + rewrite Hh1. reflexivity.
    - exists []. split.
      + change (st_heap sE) with (app (st_heap s1) [OPlain cls0 []]). rewrite nth_error_app_last.
        unfold t. change (length (st_heap sA)) with (length (st_heap s1)). rewrite Nat.eqb_refl. reflexivity.
      + intros k. split; [intros [] | intros _; reflexivity]. }
  set (ws := List.concat (map own_steps (rev mss))).
  assert (Hstar : forall ms', In ms' mss -> forall k d, oget (ms_props ms') k = Some d -> k <> "*")
    by (intros ms' Hin k d Hd; exact (proj1 (Hnof ms' k d Hin Hd))).
  assert (Hws : Forall (fun w => exists k ps sv, w = WProp k ps /\ oget acc (json_attr k ps) = Some sv /\
                                                 ser_rel H1 ps (xv k) sv) ws).
  { apply Forall_forall. intros w Hw. apply in_chain_steps in Hw. destruct Hw as [ms' [Hin Hw]].
    destruct (own_steps_in ms' w (Hstar ms' Hin) Hw) as [k [d [ps [Hd [Hps ->]]]]].
    destruct (Hsv ms' k d ps Hin Hd Hps) as [sv [Hsv1 Hrel]].
    exists k, ps, sv. split; [reflexivity | split; [exact Hsv1|]].
    apply ser_rel_kept with (st_heap s0); [subst H1; apply dates_kept_app | exact Hrel]. }
  destruct (rt_steps f c L0 sid t (length (st_heap s0)) cls0 (st_events s0) H1 xv acc ws Hlen Hrt Hr Hws [] sE Hinv0)
    as [s' [D' [Erun [Hinv' HD']]]].
  assert (Edp : deser_props (S (S (S f))) c sid (VRef (length (st_heap s0))) t sE = Ok s' tt).
  { rewrite <- Erun. cbn [deser_props]. run (eq_refl : get sE = Ok sE sE).
    change (st_schemas sE) with (st_schemas s1). rewrite Hs1. unfold walk.
    rewrite (walk_of_chain _ _ _ _ Hch). reflexivity. }
  run Edp. run (call_lock (S f) c L0 sid t cls0 (st_events s0) H1 xv D' s' Hinv').
  destruct Hinv' as [_ [_ [Hev' [Hpre' [tps [Ht' Htps']]]]]].
  eexists; exists t, cls0, tps. split; [reflexivity|]. split; [|split; [|split; [|split]]].
  - cbn [st_events upd_events upd_ctxs upd_onces]. rewrite Hev'. reflexivity.
  - exact Hlen.
  - exact Hpre'.
  - exact Ht'.
  - intros k. destruct (Htps' k) as [Hin Hout]. split.
    + intros [ms' [Hms' Hk]]. apply Hin. apply HD'. right.
      destruct (oget (ms_props ms') k) as [d|] eqn:Hd; [|congruence].
      destruct (Hnof ms' k d Hms' Hd) as [Hk' [ps Hps]].
      exists ps. apply in_chain_steps. exists ms'. split; [exact Hms'|]. exact (own_steps_has ms' k d ps Hd Hps Hk').
    + intros Hk. apply Hout. intros Hin'. apply HD' in Hin'. destruct Hin' as [[]|[ps Hin']].
      apply in_chain_steps in Hin'. destruct Hin' as [ms' [Hms' Hw]].
      destruct (own_steps_in ms' _ (Hstar ms' Hms') Hw) as [k' [d [ps' [Hd [_ E]]]]].
      injection E as -> _. rewrite (Hk ms' Hms') in Hd. discriminate.
Qed.

Lemma oget_in_pair {A} (o : list (string * A)) (k : string) (v : A) : oget o k = Some v -> In (k, v) o.
Proof.
  induction o as [|[k' v'] o IH]; simpl; [discriminate|].
  destruct (String.eqb_spec k k') as [->|_]; intros H; [injection H as ->; left; reflexivity | right; auto].
Qed.



(** * Further properties of the code *)

(** ** [alias] and [list] *)

(** [alias(name, p)] throws, changing nothing, when [name] is empty or [p]
    is already aliased; otherwise it returns a prop schema of the same kind
    and identifier flag as [p] (or [primitive()] for an omitted [p]) whose
    JSON key is [name] whatever the prop is called.  Such a prop schema can
    be neither aliased again nor given to [list]. *)
Theorem alias_compose (name n2 : string) (p : option prop_schema) (s : state) :
  let q := match p with Some q => q | None => defaultPrimitiveProp end in
  match alias name p s with
  | Ok s' a =>
      s' = s /\ name <> "" /\ (forall k, json_attr k a = name) /\
      ps_kind_of a = ps_kind_of q /\ ps_identifier a = ps_identifier q /\
      (exists m, alias n2 (Some a) s = Throw s m) /\
      list_ (Some a) s = Throw s "[serializr] provided prop is aliased, please put aliases first"
  | Throw s' _ => s' = s /\ (name = "" \/ isAliasedPropSchema q = true)
  | OutOfFuel => False
  end.
Proof.
  intros q. unfold alias, bind, invariant, ret, throw. fold q.
  destruct (String.eqb_spec name "") as [E|E]; simpl.
  - auto.
  - destruct (isAliasedPropSchema q) eqn:Eq; simpl; [auto|].
    assert (Ea : isAliasedPropSchema (PS (Some name) (ps_identifier q) (ps_kind_of q)) = true).
    { unfold isAliasedPropSchema; simpl. destruct (String.eqb_spec name ""); [contradiction | reflexivity]. }
    split; [reflexivity|]. split; [exact E|]. split; [|split; [reflexivity|split; [reflexivity|split]]].
    + intros k. unfold json_attr; simpl. destruct (String.eqb_spec name ""); [contradiction | reflexivity].
    + destruct (String.eqb n2 ""); simpl; eexists; [reflexivity|]. rewrite Ea. reflexivity.
    + unfold list_, bind, invariant. rewrite Ea. reflexivity.
Qed.

(** ** [isAssignableTo] *)

Lemma assignable_walk_none (n : nat) (sc : list model_schema) (e : nat) :
  assignable_walk n sc None e = Some false.
Proof. destruct n; reflexivity. Qed.

Lemma assignable_walk_chain (n : nat) (sc : list model_schema) (a e : nat) (b : bool) :
  assignable_walk n sc (Some a) e = Some b -> (b = true <-> In e (chain_ids (S n) sc a)).
Proof.
  revert a. induction n as [|n IH]; intros a H.
  - simpl in H. destruct (Nat.eqb_spec a e) as [<-|Ne]; [|discriminate].
    injection H as <-. simpl. tauto.
  - change (chain_ids (S (S n)) sc a) with
      (a :: match nth_error sc a with
            | Some ms => match ms_extends ms with Some p => chain_ids (S n) sc p | None => [] end
            | None => [] end).
    simpl in H. destruct (Nat.eqb_spec a e) as [<-|Ne].
    + injection H as <-. simpl. tauto.
    + destruct (nth_error sc a) as [ms|].
      * destruct (ms_extends ms) as [p|].
        -- rewrite (IH p H). simpl. split; [tauto|]. intros [E|E]; [congruence | exact E].
        -- rewrite assignable_walk_none in H. injection H as <-. simpl. split; [discriminate|].
           intros [E|[]]. congruence.
      * rewrite assignable_walk_none in H. injection H as <-. simpl. split; [discriminate|].
        intros [E|[]]. congruence.
Qed.

Lemma chain_ids_in_range (n : nat) (sc : list model_schema) (a : nat) :
  (forall i ms p, nth_error sc i = Some ms -> ms_extends ms = Some p -> p < length sc) ->
  a < length sc -> forall x, In x (chain_ids n sc a) -> x < length sc.
Proof.
  intros Hext. revert a. induction n as [|n IH]; intros a Ha x Hx; [destruct Hx|].
  simpl in Hx. destruct Hx as [<-|Hx]; [exact Ha|].
  destruct (nth_error sc a) as [ms|] eqn:E; [|destruct Hx].
  destruct (ms_extends ms) as [p|] eqn:Ep; [|destruct Hx].
  exact (IH p (Hext _ _ _ E Ep) x Hx).
Qed.

Lemma assignable_walk_fuel (n : nat) (sc : list model_schema) (a e : nat) :
  assignable_walk n sc (Some a) e = None -> length (chain_ids (S n) sc a) = S n.
Proof.
  revert a. induction n as [|n IH]; intros a H.
  { simpl. destruct (nth_error sc a) as [ms|]; [destruct (ms_extends ms)|]; reflexivity. }
  simpl in H. destruct (Nat.eqb a e); [discriminate|].
  change (length (chain_ids (S (S n)) sc a)) with
    (S (length (match nth_error sc a with
                | Some ms => match ms_extends ms with Some p => chain_ids (S n) sc p | None => [] end
                | None => [] end))).
  destruct (nth_error sc a) as [ms|]; [|rewrite assignable_walk_none in H; discriminate].
  destruct (ms_extends ms) as [p|]; [|rewrite assignable_walk_none in H; discriminate].
  rewrite (IH p H). reflexivity.
Qed.

(** [isAssignableTo(A, E)] changes nothing and answers whether [E] is [A]
    or one of the schemas [A] extends, directly or not.  It runs forever
    only on a cyclic [extends] chain: when every [extends] points into the
    schema store, the chain it was walking repeats a schema. *)
Theorem isAssignableTo_chain (a e : nat) (s : state) :
  let sc := st_schemas s in
  match isAssignableTo a e s with
  | Ok s' b => s' = s /\ (b = true <-> In e (chain_ids (S (length sc)) sc a))
  | Throw _ _ => False
  | OutOfFuel =>
      (forall i ms p, nth_error sc i = Some ms -> ms_extends ms = Some p -> p < length sc) ->
      a < length sc -> ~ NoDup (chain_ids (S (length sc)) sc a)
  end.
Proof.
  intros sc. unfold isAssignableTo, bind, get. fold sc.
  destruct (assignable_walk (length sc) sc (Some a) e) as [b|] eqn:E.
  - split; [reflexivity|]. exact (assignable_walk_chain _ _ _ _ _ E).
  - intros Hext Ha Hnd. pose proof (assignable_walk_fuel _ _ _ _ E) as Hl.
    assert (Hincl : incl (chain_ids (S (length sc)) sc a) (seq 0 (length sc))).
    { intros x Hx. apply in_seq. split; [lia|]. simpl. exact (chain_ids_in_range _ _ _ Hext Ha x Hx). }
    pose proof (NoDup_incl_length Hnd Hincl) as Hle. rewrite Hl, length_seq in Hle. lia.
Qed.

(** ** [getIdentifierProp] and [reference] *)

Lemma identifier_prop_chain (n : nat) (sc : list model_schema) (sid : nat) (k : string) :
  (identifier_prop n sc sid = Some (Some k) ->
     exists ms ips, In ms (chain (S n) sc sid) /\ oget (ms_props ms) k = Some (PSch ips) /\
                    ps_identifier ips = true) /\
  (identifier_prop n sc sid = Some None ->
     forall ms k' ips, In ms (chain (S n) sc sid) -> oget (ms_props ms) k' = Some (PSch ips) ->
                       ps_identifier ips = false).
Proof.
  revert sid. induction n as [|n IH]; intros sid.
  all: cbn [identifier_prop]; change (chain (S ?m) sc sid) with
         (match nth_error sc sid with
          | None => []
          | Some ms => ms :: match ms_extends ms with Some p => chain m sc p | None => [] end
          end).
  all: destruct (nth_error sc sid) as [ms|]; [|split; [discriminate | intros _ ? ? ? []]].
  all: set (pred := fun k0 => match oget (ms_props ms) k0 with
                              | Some (PSch ps) => ps_identifier ps | _ => false end).
  all: destruct (find pred (okeys (ms_props ms))) as [k0|] eqn:Ef.
  all: try (split; [|discriminate];
            intros H; injection H as <-; apply find_some in Ef; destruct Ef as [_ Hp];
            unfold pred in Hp; destruct (oget (ms_props ms) k0) as [[| |ips]|] eqn:Ek; try discriminate;
            exists ms, ips; split; [left; reflexivity | auto]).
  all: assert (Hown : forall k' ips, oget (ms_props ms) k' = Some (PSch ips) -> ps_identifier ips = false)
         by (intros k' ips Hk'; pose proof (find_none _ _ Ef k' (keys_in_okeys _ _ _ Hk')) as Hp;
             unfold pred in Hp; rewrite Hk' in Hp; exact Hp).
  - destruct (ms_extends ms) as [p|]; [split; discriminate|].
    split; [discriminate|]. intros _ ms' k' ips [<-|[]]. exact (Hown k' ips).
  - destruct (ms_extends ms) as [p|].
    + destruct (IH p) as [IH1 IH2]. split.
      * intros H. destruct (IH1 H) as [ms' [ips [Hin Hk]]]. exists ms', ips. split; [right; exact Hin | exact Hk].
      * intros H ms' k' ips [<-|Hin]; [exact (Hown k' ips) | exact (IH2 H ms' k' ips Hin)].
    + split; [discriminate|]. intros _ ms' k' ips [<-|[]]. exact (Hown k' ips).
Qed.

(** [reference(target)] with the default lookup changes nothing.  For a
    model schema [S] as [target] it succeeds exactly when the first prop
    marked [identifier()] found in [S] or in a schema [S] extends, in the
    order of [getIdentifierProp], has a non-empty name, and then uses that
    name as identifier attribute; otherwise (no such prop, or one named
    [""]) it throws.  It throws for a string [target]. *)
Theorem reference_identifier (sid : nat) (s : state) :
  let sc := st_schemas s in
  (forall str, exists msg, reference (VStr str) s = Throw s msg) /\
  match reference (VSchema sid) s with
  | Ok s' ps =>
      s' = s /\
      exists attr ms ips, attr <> "" /\ identifier_prop (length sc) sc sid = Some (Some attr) /\
        ps = PS None false (KReference sid attr) /\ In ms (chain (S (length sc)) sc sid) /\
        oget (ms_props ms) attr = Some (PSch ips) /\ ps_identifier ips = true
  | Throw s' _ =>
      s' = s /\
      (identifier_prop (length sc) sc sid = Some (Some "") \/
       forall ms k ips, In ms (chain (S (length sc)) sc sid) -> oget (ms_props ms) k = Some (PSch ips) ->
                        ps_identifier ips = false)
  | OutOfFuel => True
  end.
Proof.
  intros sc. split; [intros str; eexists; reflexivity|].
  unfold reference, bind, get, throw, ret, out_of_fuel. fold sc. cbn [getDefaultModelSchema truthy negb].
  pose proof (fun k => identifier_prop_chain (length sc) sc sid k) as HH.
  destruct (identifier_prop (length sc) sc sid) as [[attr|]|] eqn:Ei; [| |exact I].
  - destruct (String.eqb attr "") eqn:Ea.
    + apply String.eqb_eq in Ea. subst attr. split; [reflexivity | left; reflexivity].
    + apply String.eqb_neq in Ea. destruct (proj1 (HH attr) eq_refl) as [ms [ips [Hin [Hk Hid]]]].
      split; [reflexivity|]. exists attr, ms, ips. repeat split; assumption.
  - split; [reflexivity | right; exact (proj2 (HH "") eq_refl)].
Qed.

(** ** [deserializeStarProps] *)


(** ** Serialization writes only into objects it creates *)

Lemma upd_heap_same (s0 s : state) (h : list obj) :
  s = upd_heap (fun _ => st_heap s) s0 -> upd_heap (fun _ => h) s = upd_heap (fun _ => h) s0.
Proof. intros E. rewrite E at 1. destruct s0; reflexivity. Qed.

Lemma heap_grows_refl (s : state) : heap_grows s s.
Proof. split; [exists []; rewrite app_nil_r; reflexivity | destruct s; reflexivity]. Qed.

Lemma grows_step (s0 s : state) (h' : list obj) :
  heap_grows s0 s -> (exists tl, h' = app (st_heap s0) tl) -> heap_grows s0 (upd_heap (fun _ => h') s).
Proof. intros [_ Es] Htl. split; [exact Htl | apply upd_heap_same; exact Es]. Qed.

Lemma set_nth_app_r {A} (h tl : list A) (l : nat) (x : A) :
  length h <= l -> set_nth (app h tl) l x = app h (set_nth tl (l - length h) x).
Proof.
  revert l; induction h as [|y h IH]; intros l Hl; simpl.
  - rewrite Nat.sub_0_r. reflexivity.
  - destruct l as [|l]; simpl in Hl; [lia|]. rewrite IH by lia. reflexivity.
Qed.

Section Grows.
Variable s0 : state.
#[local] Abbreviation HG := (heap_grows s0).

Lemma grows_alloc (o : obj) : keeps HG (alloc o) (fun l => length (st_heap s0) <= l).
Proof.
  intros s Hs. unfold alloc. destruct Hs as [[tl E] Es]. split.
  - change (upd_heap (fun h => app h [o]) s) with (upd_heap (fun _ => app (st_heap s) [o]) s).
    apply grows_step; [split; [exists tl; exact E | exact Es]|].
    exists (app tl [o]). rewrite E, app_assoc. reflexivity.
  - rewrite E, length_app. lia.
Qed.

Lemma grows_heap_get (l : nat) : keeps HG (heap_get l) (fun _ => True).
Proof. intros s Hs. unfold heap_get. destruct (nth_error (st_heap s) l); auto. Qed.

Lemma grows_heap_put (l : nat) (o : obj) : length (st_heap s0) <= l -> keeps HG (heap_put l o) (fun _ => True).
Proof.
  intros Hl s Hs. unfold heap_put, modify. split; [|exact I].
  change (upd_heap (fun h => set_nth h l o) s) with (upd_heap (fun _ => set_nth (st_heap s) l o) s).
  apply grows_step; [exact Hs|]. destruct Hs as [[tl E] _].
  exists (set_nth tl (l - length (st_heap s0)) o). rewrite E. apply set_nth_app_r. exact Hl.
Qed.

Lemma grows_set_prop (l : nat) (p : string) (v : val) :
  length (st_heap s0) <= l -> keeps HG (set_prop l p v) (fun _ => True).
Proof.
  intros Hl. unfold set_prop. eapply keeps_bind; [apply grows_heap_get | intros o _].
  destruct o as [cls ps|es|tm]; [apply grows_heap_put; exact Hl| |apply keeps_ret].
  destruct (array_index p); [apply grows_heap_put; exact Hl | apply keeps_ret].
Qed.

Lemma grows_set_prop_val (res : val) (p : string) (v : val) :
  (fresh_ref s0) res -> keeps HG (set_prop_val res p v) (fun _ => True).
Proof. intros [l [-> Hl]]. apply grows_set_prop. exact Hl. Qed.

Lemma grows_ser_star (ms : model_schema) (o res : val) (keys : list string) :
  (fresh_ref s0) res -> keeps HG (ser_star ms o res keys) (fun _ => True).
Proof.
  intros Hr. induction keys as [|k r IH]; [apply keeps_ret|]. cbn [ser_star].
  destruct (ohas (ms_props ms) k || proto_key k); [exact IH|].
  eapply keeps_bind; [apply keeps_get | intros s _].
  eapply keeps_bind; [apply keeps_invariant | intros _ _].
  eapply keeps_bind; [apply grows_set_prop_val; exact Hr | intros _ _]. exact IH.
Qed.

Lemma grows_ser_keys (sp : prop_schema -> val -> M val) (ms : model_schema) (o res : val) (keys : list string) :
  (forall ps v, keeps HG (sp ps v) (fun _ => True)) -> (fresh_ref s0) res ->
  keeps HG (ser_keys sp ms o res keys) (fun _ => True).
Proof.
  intros Hsp Hr. induction keys as [|k r IH]; [apply keeps_ret|]. cbn [ser_keys].
  destruct (oget (ms_props ms) k) as [def|]; [|exact IH].
  destruct (String.eqb k "*").
  - destruct def; try apply keeps_throw.
    eapply keeps_bind; [apply keeps_get | intros s _].
    eapply keeps_bind; [apply grows_ser_star; exact Hr | intros _ _]. exact IH.
  - destruct def as [| |ps]; [| exact IH |];
      (eapply keeps_bind; [apply keeps_get | intros s _]);
      (eapply keeps_bind; [apply Hsp | intros jv _]);
      (eapply keeps_bind; [apply grows_set_prop_val; exact Hr | intros _ _]); exact IH.
Qed.

Lemma grows_ser (f : nat) :
  (forall ps v, keeps HG (ser_prop f ps v) (fun _ => True)) /\
  (forall sid o, keeps HG (ser_with_schema f sid o) (fresh_ref s0)) /\
  (forall sch th, keeps HG (serialize_ f sch th) (fresh_ref s0)).
Proof.
  induction f as [|f [IHp [IHw IHs]]]; [repeat split; intros; apply keeps_out_of_fuel|].
  split; [|split].
  - intros ps v. cbn [ser_prop].
    destruct (ps_kind_of ps) as [| | |ser des|sid|sid attr|inner].
    1,2: eapply keeps_bind; [apply keeps_get | intros s _];
         eapply keeps_bind; [apply keeps_invariant | intros _ _]; apply keeps_ret.
    + destruct (is_nullish v); [apply keeps_ret|].
      eapply keeps_bind; [apply keeps_get | intros s _].
      destruct (lookup_obj s v) as [[| |tm]|]; try apply keeps_throw. apply keeps_ret.
    + apply keeps_ret.
    + destruct (is_nullish v); [apply keeps_ret|].
      intros s Hs. specialize (IHs (VSchema sid) v s Hs).
      destruct (serialize_ f (VSchema sid) v s); [destruct IHs; auto|exact IHs|exact I].
    + destruct (truthy v); [|apply keeps_ret].
      eapply keeps_bind; [apply keeps_get | intros s _]. apply keeps_ret.
    + eapply keeps_bind; [apply keeps_get | intros s _].
      destruct (array_elems s v) as [es|];
        [|destruct (negb (truthy v)); [apply keeps_throw|];
          destruct (js_in s v "length") as [[]|]; try apply keeps_throw;
          destruct (js_in s v "map") as [[]|]; apply keeps_throw].
      eapply keeps_bind with (Q := fun _ => True).
      * induction es as [|e es IHe]; [apply keeps_ret|].
        eapply keeps_bind; [apply IHp | intros x _].
        eapply keeps_bind; [exact IHe | intros xs _]. apply keeps_ret.
      * intros vs _. eapply keeps_bind; [apply grows_alloc | intros l _]. apply keeps_ret.
  - intros sid o. cbn [ser_with_schema].
    eapply keeps_bind; [apply keeps_schema_get | intros ms _].
    eapply keeps_bind; [apply keeps_invariant | intros _ _].
    eapply keeps_bind with (Q := (fresh_ref s0)).
    + destruct (ms_extends ms) as [p|]; [apply IHw|].
      intros s Hs. destruct (grows_alloc (OPlain None []) s Hs) as [H1 H2].
      split; [exact H1 | exists (length (st_heap s)); auto].
    + intros res Hr. eapply keeps_bind; [apply grows_ser_keys; [apply IHp | exact Hr] | intros _ _].
      intros s Hs. split; [exact Hs | exact Hr].
  - intros sch th. cbn [serialize_].
    eapply keeps_bind; [apply keeps_get | intros s _].
    assert (Hw : forall sc x, keeps HG (match sc with
                                        | VSchema sid => ser_with_schema f sid x
                                        | VRef _ => throw "TypeError: Cannot convert undefined or null to object"
                                        | _ => throw "[serializr] Expected schema"
                                        end) (fresh_ref s0))
      by (intros [] x; first [apply IHw | apply keeps_throw]).
    assert (Hal : forall vs, keeps HG (l <- alloc (OArray vs) ;; ret (VRef l)) (fresh_ref s0)).
    { intros vs s1 Hs1. destruct (grows_alloc (OArray vs) s1 Hs1) as [H1 H2].
      unfold bind, alloc, ret in *. split; [exact H1 | eexists; split; [reflexivity | exact H2]]. }
    destruct (array_elems s th) as [[|x es]|].
    + apply Hal.
    + eapply keeps_bind; [apply keeps_invariant | intros _ _].
      eapply keeps_bind with (Q := fun _ => True); [|intros vs _; apply Hal].
      eapply keeps_bind; [apply Hw | intros y0 _].
      eapply keeps_bind with (Q := fun _ => True); [|intros ys0 _; apply keeps_ret].
      induction es as [|e r IHr]; [apply keeps_ret|].
      eapply keeps_bind; [apply Hw | intros y _].
      eapply keeps_bind; [exact IHr | intros ys _]. apply keeps_ret.
    + eapply keeps_bind; [apply keeps_invariant | intros _ _]. apply Hw.
Qed.

End Grows.

(** [serialize(schema, thing)] changes nothing but the heap, and there it
    only appends: every object that existed before the call, the input
    object graph included, is left unchanged, also when it throws.  What it
    returns is a new object. *)
Theorem serialize_only_allocates (f : nat) (schema thing : val) (s : state) :
  match serialize_ f schema thing s with
  | Ok s' r => heap_grows s s' /\ exists l, r = VRef l /\ length (st_heap s) <= l
  | Throw s' _ => heap_grows s s'
  | OutOfFuel => True
  end.
Proof.
  destruct (grows_ser s f) as [_ [_ H]]. specialize (H schema thing s (heap_grows_refl s)).
  destruct (serialize_ f schema thing s); exact H.
Qed.

(** ** Callbacks and Contexts *)

Lemma ctx_get_ok (s : state) (c : nat) (cx : context) :
  nth_error (st_ctxs s) c = Some cx -> ctx_get c s = Ok s cx.
Proof. intros H. unfold ctx_get. rewrite H. reflexivity. Qed.

Lemma set_nth_set_nth {A} (l : list A) (i : nat) (x y : A) :
  set_nth (set_nth l i x) i y = set_nth l i y.
Proof. revert i; induction l as [|z l IH]; intros [|i]; simpl; try rewrite IH; reflexivity. Qed.

Lemma bind_throw {A B} (m : M A) (k : A -> M B) (s s' : state) (e : string) :
  m s = Throw s' e -> bind m k s = Throw s' e.
Proof. intros H. unfold bind. rewrite H. reflexivity. Qed.

Lemma bind_oof {A B} (m : M A) (k : A -> M B) (s : state) :
  m s = OutOfFuel -> bind m k s = OutOfFuel.
Proof. intros H. unfold bind. rewrite H. reflexivity. Qed.


(** [deserialize(schema, [], callback)] allocates two empty arrays: it
    returns the first and passes the second to the callback, with no
    error. *)
Theorem deserialize_empty_array (f sid : nat) (schema json : val) (s : state)
  (Hs : getDefaultModelSchema s schema = VSchema sid) (Hj : array_elems s json = Some []) :
  let n := length (st_heap s) in
  deserialize (S f) schema json CbUser s =
    Ok (upd_events (fun ev => app ev [(None, VRef (S n))]) (upd_heap (fun h => app h [OArray []; OArray []]) s))
       (VRef n).
Proof.
  intros n. unfold deserialize. rewrite (bind_ok get _ s s s eq_refl). cbv beta zeta.
  rewrite Hs, Hj. unfold bind, alloc, ret. cbn [call_cb record_event modify].
  destruct s as [h cl sc cxs os ps ev fc]. unfold n. cbn.
  unfold upd_events, upd_heap; cbn [st_heap st_events]. rewrite <- app_assoc, length_app, Nat.add_1_r. reflexivity.
Qed.

Lemma keeps_pure {A} (I : state -> Prop) (m : M A) :
  (forall s, match m s with Ok s' _ => s' = s | Throw s' _ => s' = s | OutOfFuel => True end) ->
  keeps I m (fun _ => True).
Proof. intros Hm s Hs. specialize (Hm s). destruct (m s); subst; auto. Qed.

Section Fired.
Variable s0 : state.
#[local] Abbreviation FK := (fun s => forall i, fired s0 i = true -> fired s i = true).

Lemma fk_modify (g : state -> state) :
  (forall s, st_onces (g s) = st_onces s) -> keeps FK (modify g) (fun _ => True).
Proof. intros Hg s Hs. unfold modify. split; [|exact I]. intros i Hi. unfold fired. rewrite Hg. exact (Hs i Hi). Qed.

Lemma fk_once_put (i : nat) (r : once_rec) : on_fired r = true -> keeps FK (once_put i r) (fun _ => True).
Proof.
  intros Hr s Hs. unfold once_put, modify. split; [|exact I]. intros j Hj. specialize (Hs j Hj).
  unfold fired in *. cbn [upd_onces st_onces]. rewrite nth_error_set_nth.
  destruct (Nat.eqb i j); [destruct (nth_error (st_onces s) j); [exact Hr | exact Hs] | exact Hs].
Qed.

Lemma fk_set_prop (l : nat) (p : string) (v : val) : keeps FK (set_prop l p v) (fun _ => True).
Proof.
  unfold set_prop. eapply keeps_bind.
  - apply keeps_pure. intros s. unfold heap_get. destruct (nth_error (st_heap s) l); reflexivity.
  - intros o _. destruct o as [cls ps|es|tm]; [apply fk_modify; reflexivity| |apply keeps_ret].
    destruct (array_index p); [apply fk_modify; reflexivity | apply keeps_ret].
Qed.

Lemma fk_call_cb (f : nat) : forall k err v, keeps FK (call_cb f k err v) (fun _ => True).
Proof.
  induction f as [|f IH]; intros k err v; [apply keeps_out_of_fuel|].
  destruct k as [i|q idx| | |]; cbn [call_cb].
  - eapply keeps_bind; [apply keeps_pure; intros s; unfold once_get; destruct (nth_error (st_onces s) i); reflexivity | intros r _].
    destruct (on_fired r); [apply keeps_throw|].
    eapply keeps_bind; [apply fk_once_put; reflexivity | intros _ _].
    eapply keeps_bind; [apply keeps_ctx_get | intros cx _].
    destruct err as [e|].
    + destruct (cx_hasError cx); [apply keeps_ret|].
      eapply keeps_bind; [apply fk_modify; reflexivity | intros _ _]. apply IH.
    + destruct (cx_hasError cx); [apply keeps_ret|].
      eapply keeps_bind.
      { destruct (on_fn r) as [|l p]; cbn [run_fn]; [|apply fk_set_prop].
        eapply keeps_bind; [apply keeps_get | intros s _].
        destruct (truthy v); [apply keeps_throw | apply keeps_ret]. }
      intros _ _.
      eapply keeps_bind; [apply keeps_ctx_get | intros cx1 _].
      eapply keeps_bind; [apply fk_modify; reflexivity | intros _ _].
      destruct (settle _) as [[e w]|]; [apply IH | apply keeps_ret].
  - eapply keeps_bind; [apply keeps_pure; intros s; unfold par_get; destruct (nth_error (st_pars s) q); reflexivity | intros pr _].
    eapply keeps_bind; [apply keeps_pure; intros s; unfold heap_get; destruct (nth_error (st_heap s) (pa_arr pr)); reflexivity | intros o _].
    destruct (par_step _ _ _ _) as [st' ev].
    eapply keeps_bind; [apply fk_modify; reflexivity | intros _ _].
    eapply keeps_bind; [apply fk_modify; reflexivity | intros _ _].
    destruct ev as [[e|vs]|]; [apply IH | apply IH | apply keeps_ret].
  - apply fk_modify; reflexivity.
  - destruct err as [[m|m]|]; cbn [guarded_noop_err]; [apply keeps_throw | apply keeps_throw | apply keeps_ret].
  - apply keeps_throw.
Qed.

End Fired.

(** A [once] wrapper that has run its function throws "callback was invoked
    twice" on every later call, whatever the callbacks it triggered did
    meanwhile; the state is left unchanged by that call. *)
Theorem once_fires_at_most_once (f i : nat) (err : option jserr) (v : val) (s : state) :
  match call_cb (S f) (CbOnce i) err v s with
  | Ok s' _ => forall f' err' v',
      call_cb (S f') (CbOnce i) err' v' s' = Throw s' "[serializr] callback was invoked twice"
  | _ => True
  end.
Proof.
  destruct (call_cb (S f) (CbOnce i) err v s) as [s' u| |] eqn:E; [|exact I|exact I].
  assert (Hf : fired s' i = true).
  { revert E. cbn [call_cb]. unfold bind at 1, once_get.
    destruct (nth_error (st_onces s) i) as [r|] eqn:Er; [|discriminate].
    destruct (on_fired r); [discriminate|].
    unfold bind at 1, once_put, modify.
    set (s1 := upd_onces _ s).
    assert (H1 : fired s1 i = true).
    { unfold fired, s1. cbn [upd_onces st_onces]. rewrite nth_error_set_nth, Nat.eqb_refl, Er. reflexivity. }
    match goal with |- ?K s1 = _ -> _ => assert (HK : keeps (fun x => forall j, fired s1 j = true -> fired x j = true) K (fun _ => True)) end.
    { eapply keeps_bind; [apply keeps_ctx_get | intros cx _].
      destruct err as [e|].
      - destruct (cx_hasError cx); [apply keeps_ret|].
        eapply keeps_bind; [apply fk_modify; reflexivity | intros _ _]. apply fk_call_cb.
      - destruct (cx_hasError cx); [apply keeps_ret|].
        eapply keeps_bind.
        { destruct (on_fn r) as [|l p]; cbn [run_fn]; [|apply fk_set_prop].
          eapply keeps_bind; [apply keeps_get | intros s2 _].
          destruct (truthy v); [apply keeps_throw | apply keeps_ret]. }
        intros _ _.
        eapply keeps_bind; [apply keeps_ctx_get | intros cx1 _].
        eapply keeps_bind; [apply fk_modify; reflexivity | intros _ _].
        destruct (settle _) as [[e w]|]; [apply fk_call_cb | apply keeps_ret]. }
    intros E. specialize (HK s1 (fun j Hj => Hj)). rewrite E in HK. apply (proj1 HK). exact H1. }
  intros f' err' v'. cbn [call_cb]. unfold bind at 1, once_get.
  unfold fired in Hf. destruct (nth_error (st_onces s') i) as [r|]; [|discriminate].
  rewrite Hf. reflexivity.
Qed.

Lemma set_nth_same {A} (l : list A) (i : nat) (x : A) : nth_error l i = Some x -> set_nth l i x = l.
Proof. revert i; induction l as [|y l IH]; intros [|i] H; simpl in *; try discriminate; [congruence | f_equal; auto]. Qed.

Lemma upd_heap_set_same (s : state) (r : nat) (x : obj) :
  nth_error (st_heap s) r = Some x -> upd_heap (fun h => set_nth h r x) s = s.
Proof. intros H. unfold upd_heap. rewrite (set_nth_same _ _ _ H). destruct s; reflexivity. Qed.

Lemma upd_heap_set_set (s : state) (r : nat) (x y : obj) :
  upd_heap (fun h => set_nth h r y) (upd_heap (fun h => set_nth h r x) s) = upd_heap (fun h => set_nth h r y) s.
Proof. destruct s. unfold upd_heap. simpl. rewrite set_nth_set_nth. reflexivity. Qed.

Lemma js_get_set_other (s : state) (o : val) (r : nat) (x : obj) (k : string) :
  o <> VRef r -> js_get (upd_heap (fun h => set_nth h r x) s) o k = js_get s o k.
Proof.
  intros Ho. destruct o as [| | | | | | | |l]; try reflexivity.
  apply js_get_ref_same. cbn [upd_heap st_heap]. apply nth_error_set_nth_other. congruence.
Qed.

Lemma ser_star_run (ms : model_schema) (o : val) (r : nat) (cls : option nat) (s0 : state) (keys : list string) :
  forall s acc, nth_error (st_heap s) r = Some (OPlain cls acc) -> (forall k, js_get s o k = js_get s0 o k) ->
  o <> VRef r ->
  let todo := filter (fun k => negb (ohas (ms_props ms) k || proto_key k)) keys in
  let copy := fold_left (fun a k => oset a k (js_get s0 o k)) in
  match ser_star ms o (VRef r) keys s with
  | Ok s' _ => (forall k, In k todo -> isPrimitive (js_get s0 o k) = true) /\
               s' = upd_heap (fun h => set_nth h r (OPlain cls (copy todo acc))) s
  | Throw s' m => exists pre k post, todo = app pre (k :: post) /\
        (forall k', In k' pre -> isPrimitive (js_get s0 o k') = true) /\ isPrimitive (js_get s0 o k) = false /\
        m = "[serializr] encountered non primitive value while serializing '*' properties in property '"
              ++ k ++ "': " ++ js_str s' (js_get s0 o k) /\
        s' = upd_heap (fun h => set_nth h r (OPlain cls (copy pre acc))) s
  | OutOfFuel => False
  end.
Proof.
  induction keys as [|k rest IH]; intros s acc Hr Hread Ho todo copy.
  - unfold todo, copy. cbn [ser_star filter fold_left]. unfold ret. split; [intros k []|].
    symmetry. exact (upd_heap_set_same _ _ _ Hr).
  - cbn [ser_star]. unfold todo; cbn [filter].
    destruct (ohas (ms_props ms) k || proto_key k) eqn:Ek; cbn [negb].
    + exact (IH s acc Hr Hread Ho).
    + rewrite (bind_ok get _ s s s eq_refl). cbv beta zeta. rewrite Hread.
      destruct (isPrimitive (js_get s0 o k)) eqn:Ep.
      * unfold invariant. rewrite (bind_ok (ret tt) _ s s tt eq_refl). cbv beta.
        set (s1 := upd_heap (fun h => set_nth h r (OPlain cls (oset acc k (js_get s0 o k)))) s).
        assert (Hs1 : (set_prop_val (VRef r) k (js_get s0 o k)) s = Ok s1 tt).
        { assert (Hg : heap_get r s = Ok s (OPlain cls acc)) by (unfold heap_get; rewrite Hr; reflexivity).
          cbn [set_prop_val]. unfold set_prop. rewrite (bind_ok _ _ _ _ _ Hg). reflexivity. }
        rewrite (bind_ok _ _ _ _ _ Hs1). cbv beta.
        assert (Hr1 : nth_error (st_heap s1) r = Some (OPlain cls (oset acc k (js_get s0 o k)))).
        { unfold s1. cbn [upd_heap st_heap]. rewrite nth_error_set_nth, Nat.eqb_refl, Hr. reflexivity. }
        assert (Hread1 : forall k', js_get s1 o k' = js_get s0 o k').
        { intros k'. unfold s1. rewrite js_get_set_other by exact Ho. apply Hread. }
        specialize (IH s1 _ Hr1 Hread1 Ho). cbv zeta in IH.
        destruct (ser_star ms o (VRef r) rest s1) as [s' u|s' m|]; [| |exact IH].
        { destruct IH as [Hall Hs']. split.
          - intros k' [<-|Hin]; [exact Ep | exact (Hall k' Hin)].
          - rewrite Hs'. unfold s1. apply upd_heap_set_set. }
        destruct IH as [pre [k1 [post [Ht [Hpre [Hk [Hm Hs']]]]]]].
        exists (k :: pre), k1, post. split; [cbn [app]; rewrite Ht; reflexivity|].
        split; [intros k' [<-|Hin]; [exact Ep | exact (Hpre k' Hin)]|].
        split; [exact Hk|]. split; [exact Hm|].
        rewrite Hs'. unfold s1. apply upd_heap_set_set.
      * exists [], k, (filter (fun k => negb (ohas (ms_props ms) k || proto_key k)) rest).
        split; [reflexivity|]. split; [intros _ []|]. split; [exact Ep|].
        split; [reflexivity|]. cbn [fold_left]. unfold invariant, bind, throw. symmetry. exact (upd_heap_set_same _ _ _ Hr).
Qed.


Lemma bind_assoc_s {A B C} (m : M A) (k1 : A -> M B) (k2 : B -> M C) (s : state) :
  bind (bind m k1) k2 s = bind m (fun a => bind (k1 a) k2) s.
Proof. unfold bind. destruct (m s); reflexivity. Qed.

(** [serialize(schema, array)]: on an empty array it returns a new empty
    array and looks at neither the schema nor the default schemas, so it
    does not throw even for a schema that is not one; on a non-empty array
    it returns a new array with one entry per element. *)
Theorem serialize_array_shape (f : nat) (schema thing : val) (s : state) :
  match array_elems s thing with
  | Some [] =>
      serialize_ (S f) schema thing s =
        Ok (upd_heap (fun h => app h [OArray []]) s) (VRef (length (st_heap s)))
  | Some es =>
      match serialize_ (S f) schema thing s with
      | Ok s' r => exists l vs, r = VRef l /\ array_elems s' r = Some vs /\ length vs = length es
      | _ => True
      end
  | None => True
  end.
Proof.
  cbn [serialize_]. rewrite (bind_ok get _ s s s eq_refl). cbv beta zeta.
  destruct (array_elems s thing) as [[|x es]|] eqn:E; [reflexivity| |exact I].
  match goal with |- context [bind (invariant ?b ?m) _ s] => destruct (invariant b m s) as [s0 u| |] eqn:Ei end;
    [rewrite (bind_ok _ _ _ _ _ Ei) | rewrite (bind_throw _ _ _ _ _ Ei); exact I | rewrite (bind_oof _ _ _ Ei); exact I].
  match goal with |- context [bind (?g es) _] =>
    assert (Hgo : forall xs s1 s2 ys, g xs s1 = Ok s2 ys -> length ys = length xs) end.
  { induction xs as [|y xs IH]; intros s1 s2 ys H.
    + cbv fix beta iota in H. unfold ret in H. inversion H. reflexivity.
    + cbv fix beta iota in H. unfold bind in H at 1.
      match type of H with (match ?t with _ => _ end) = _ => destruct t as [s3 z| |]; try discriminate end.
      unfold bind in H.
      match type of H with (match ?t with _ => _ end) = _ => destruct t as [s4 ys'| |] eqn:E4 end;
        try discriminate.
      unfold ret in H. inversion H; subst. cbn [List.length]. f_equal. exact (IH _ _ _ E4). }
  rewrite bind_assoc_s.
  match goal with |- context [bind ?A _ s0] => destruct (A s0) as [s1 y| |] eqn:EA end;
    [rewrite (bind_ok _ _ _ _ _ EA) | rewrite (bind_throw _ _ _ _ _ EA); exact I | rewrite (bind_oof _ _ _ EA); exact I].
  cbv beta. rewrite bind_assoc_s.
  match goal with |- context [bind (?g es) _ s1] => destruct (g es s1) as [s2 ys| |] eqn:Eg end;
    [rewrite (bind_ok _ _ _ _ _ Eg) | rewrite (bind_throw _ _ _ _ _ Eg); exact I | rewrite (bind_oof _ _ _ Eg); exact I].
  cbv beta. rewrite (bind_ok (ret (y :: ys)) _ s2 s2 _ eq_refl). unfold bind, alloc, ret.
  exists (length (st_heap s2)), (y :: ys). split; [reflexivity|split].
  - unfold array_elems, lookup_obj. cbn [upd_heap st_heap].
    rewrite nth_error_app_last, Nat.eqb_refl. reflexivity.
  - cbn [List.length]. f_equal. exact (Hgo _ _ _ _ Eg).
Qed.

(** ** Deserializing arrays: the items array *)


Lemma items_loop (fuel sid p n : nat) : forall es idx acc s s' u,
  obj_kept n (OArray acc) s ->
  (fix go (es : list val) (idx : nat) : M unit :=
     match es with
     | [] => ret tt
     | e :: r =>
         inst <- deser_obj fuel None sid e (CbPar p idx) ;;
         array_push n inst ;;;
         go r (S idx)
     end) es idx s = Ok s' u ->
  exists vs, nth_error (st_heap s') n = Some (OArray vs) /\ length vs = length acc + length es.
Proof.
  induction es as [|e es IH]; intros idx acc s s' u Hk Hr.
  - inversion Hr; subst. exists acc. split; [apply Hk | simpl; lia].
  - cbv fix beta iota in Hr.
    pose proof (proj1 (proj2 (ok_deser n (OArray acc) fuel)) None sid e (CbPar p idx) s Hk) as K.
    destruct (deser_obj fuel None sid e (CbPar p idx) s) as [s1 inst|s1 m|] eqn:E;
      [| unfold bind in Hr; rewrite E in Hr; discriminate | unfold bind in Hr; rewrite E in Hr; discriminate].
    destruct K as [K _]. rewrite (bind_ok _ _ _ _ _ E) in Hr; cbv beta in Hr.
    destruct K as [Hn [Ho Hp]].
    assert (Hpush : array_push n inst s1 =
      Ok (upd_heap (fun h => set_nth h n (OArray (app acc [inst]))) s1) tt).
    { unfold array_push, bind, heap_get. rewrite Hn. reflexivity. }
    rewrite (bind_ok _ _ _ _ _ Hpush) in Hr; cbv beta in Hr.
    destruct (IH (S idx) (app acc [inst]) (upd_heap (fun h => set_nth h n (OArray (app acc [inst]))) s1) s' u) as [vs [Hvs Hl]]; [|exact Hr|].
    + split; [|split; [exact Ho | exact Hp]].
      simpl. rewrite nth_error_set_nth, Nat.eqb_refl, Hn. reflexivity.
    + exists vs. split; [exact Hvs|]. rewrite Hl, length_app. simpl. lia.
Qed.

(** [deserialize(schema, json)] on a non-empty JSON array: when it
    completes, it returns the freshly allocated items array, which then holds
    one entry per element of [json]. *)
Theorem deserialize_array_length (f sid : nat) (schema json : val) (cb : cbk) (es : list val)
  (s s' : state) (r : val)
  (Hs : getDefaultModelSchema s schema = VSchema sid) (Hj : array_elems s json = Some es)
  (Hne : es <> []) (Hw : refs_in_heap s) (Hr : deserialize f schema json cb s = Ok s' r) :
  exists vs, r = VRef (length (st_heap s)) /\ array_elems s' r = Some vs /\ length vs = length es.
Proof.
  unfold deserialize in Hr. rewrite (bind_ok get _ s s s eq_refl) in Hr. cbv beta zeta in Hr.
  rewrite Hs, Hj in Hr. destruct es as [|e0 es']; [contradiction|].
  set (n := length (st_heap s)) in *.
  set (s1 := upd_heap (fun h => app h [OArray []]) s) in *.
  rewrite (bind_ok (alloc (OArray [])) _ s s1 n eq_refl) in Hr. cbv beta in Hr.
  assert (H1 : obj_kept n (OArray []) s1).
  { destruct Hw as [Wo Wp]. split; [|split].
    - simpl. rewrite nth_error_app_last. unfold n. rewrite Nat.eqb_refl. reflexivity.
    - intros i o l p Hi Hf. simpl in Hi. pose proof (Wo i o l p Hi Hf). unfold n. lia.
    - intros q pr Hq. simpl in Hq. pose proof (Wp q pr Hq). unfold n. lia. }
  set (cb' := match cb with CbUndefined => CbNoop | k => k end) in *.
  pose proof (ok_alloc n (OArray []) (OArray []) s1 H1) as K2. unfold alloc in K2 at 1.
  destruct K2 as [H2 Ha].
  rewrite (bind_ok (alloc (OArray [])) _ s1 _ _ eq_refl) in Hr. cbv beta in Hr.
  set (a := length (st_heap s1)) in *.
  set (s2 := upd_heap (fun h => app h [OArray []]) s1) in *.
  pose proof (ok_par_new n (OArray []) (Par (Z.of_nat (length (e0 :: es'))) false a cb') Ha s2 H2) as K3.
  unfold par_new in K3 at 1. destruct K3 as [H3 _].
  rewrite (bind_ok (par_new _) _ s2 _ _ eq_refl) in Hr. cbv beta in Hr.
  match type of Hr with bind ?g _ _ = _ => destruct (g (upd_pars (fun l => app l [Par (Z.of_nat (length (e0 :: es'))) false a cb']) s2)) as [s4 u|s4 m|] eqn:E end;
    [rewrite (bind_ok _ _ _ _ _ E) in Hr; inversion Hr; subst s4 r
    |rewrite (bind_throw _ _ _ _ _ E) in Hr; discriminate
    |rewrite (bind_oof _ _ _ E) in Hr; discriminate].
  destruct (items_loop f sid (length (st_pars s2)) n (e0 :: es') 0 [] _ _ _ H3 E) as [vs [Hvs Hl]].
  exists vs. split; [reflexivity|]. split; [unfold array_elems, lookup_obj; rewrite Hvs; reflexivity | exact Hl].
Qed.

Lemma deserialize_empty_array_witness :
  let s := St [OArray []] [] [User] [] [] [] [] 0 in
  deserialize 1 (VSchema 0) (VRef 0) CbUser s =
    Ok (upd_events (fun ev => app ev [(None, VRef 2)]) (upd_heap (fun h => app h [OArray []; OArray []]) s))
       (VRef 1).
Proof.
  intros s. apply (deserialize_empty_array 0 0 (VSchema 0) (VRef 0) s); reflexivity.
Defined.


Lemma deserialize_array_length_witness :
  let s := St [OArray [VRef 1; VRef 2]; OPlain None [("x", VNum 1)]; OPlain None [("x", VStr "a")]]
              [] [MS FactoryPlain [("x", PTrue)] None] [] [] [] [] 0 in
  match deserialize 10 (VSchema 0) (VRef 0) CbUser s with
  | Ok s' r => exists vs, r = VRef 3 /\ array_elems s' r = Some vs /\ length vs = 2
  | _ => False
  end.
Proof.
  intros s. case_eq (deserialize 10 (VSchema 0) (VRef 0) CbUser s).
  - intros s' r E.
    apply (deserialize_array_length 10 0 (VSchema 0) (VRef 0) CbUser [VRef 1; VRef 2] s s' r);
      [reflexivity | reflexivity | discriminate | split; intros [|i]; simpl; discriminate | exact E].
  - intros s' m E. vm_compute in E. discriminate.
  - intros E. vm_compute in E. discriminate.
Defined.
